(** * llm-event-hooks: hook dispatch and stream buffering

    A shallow embedding of the hook engines ([HookManager],
    [HookableEventEmitter]) and of the buffering layer ([StreamBuffer],
    [BufferManager]) of the TypeScript sources, followed by the properties
    established about them.

    Conventions of the embedding.
    - JavaScript numbers that hold counts, priorities and millisecond
      timestamps are integers of [Z]; array positions are [nat].
    - [Date.now()] is an explicit clock: a [now] argument for the synchronous
      buffer operations, a [clock] field for the asynchronous dispatchers,
      where it advances only while the dispatcher awaits a hook.
    - A function reference is a name ([FnRef]); what the function does when
      it is called is given by an environment, so that [===] on functions is
      decidable and closures created by the library are constructors.
    - A payload is the value that a hook is passed and the value that it
      returns. A hook of the embedding changes the payload by returning
      another one; it does not write into the object it was passed. The
      dispatchers make no copy of a payload: where a hook is said to be
      passed a payload, the code passes that same object.
    - Logging, metrics and metadata bags have no influence on control flow
      and are left out. *)

From stdpp Require Import base decidable option list strings sorting.
From Stdlib Require Import ZArith Lia.

#[local] Open Scope Z_scope.

(* ================================================================== *)
(** ** Runtime notions shared by the components                        *)
(* ================================================================== *)

Module Js.

(** [HookEvent] of src/types/index.ts. *)
Inductive HookEvent :=
| message_before | message_after | chunk_before | chunk_after
| buffer_flush | tool_before | tool_after | tool_loop_before
| tool_loop_after | error_event | session_start | session_end.

#[global] Instance HookEvent_eq_dec : EqDecision HookEvent.
Proof. solve_decision. Defined.

(** Values that are thrown or that reject a promise. *)
Inductive JsError :=
| TimedOut (timeout : Z)
    (* new Error(`Hook execution timed out after ${timeout}ms`) *)
| Thrown (message : string)
    (* whatever a callback throws or rejects with *)
| ReferenceError (identifier : string)
    (* reading an identifier that is not in scope *)
| TypeError (callee : string)
    (* calling a member that is not a function *)
| AlreadyExists (bufferId : string)
    (* new Error(`Buffer with id ${bufferId} already exists`) *)
| LimitReached (bufferId : string) (maxBuffers : Z).
    (* new Error(`Cannot create buffer ${bufferId} - maximum buffer
       limit (${maxBuffers}) reached`) *)

#[global] Instance JsError_eq_dec : EqDecision JsError.
Proof. solve_decision. Defined.


(** Delay really used by [setTimeout]: a delay below 1 or above
    2^31-1 is replaced by 1. *)
Definition timerDelay (timeout : Z) : Z :=
  if (1 <=? timeout) && (timeout <=? 2147483647) then timeout else 1.

(** [Array.prototype.findIndex]; [None] stands for -1. *)
Fixpoint findIndex {A} (p : A → bool) (l : list A) : option nat :=
  match l with
  | [] => None
  | x :: l' => if p x then Some 0%nat else S <$> findIndex p l'
  end.

(** [Array.prototype.sort] with the comparator [(a, b) => key a - key b].
    The sort is stable, and a stable sort has one possible result; it is
    computed here by insertion. *)
Fixpoint insertSorted {A} (key : A → Z) (x : A) (l : list A) : list A :=
  match l with
  | [] => [x]
  | y :: l' => if key x <=? key y then x :: y :: l'
               else y :: insertSorted key x l'
  end.

Definition sortBy {A} (key : A → Z) (l : list A) : list A :=
  foldr (insertSorted key) [] l.

(** What one call of a hook amounts to, as its caller can observe it.
    The function keeps the thread for [blocksFor] milliseconds before it
    returns its value or its promise: nothing else runs in that time, no
    timer either. The promise settles [settleAfter] milliseconds after the
    call, with [outcome] ([inl] for a throw or a rejection, [inr None] for
    [undefined]). A run with [settleAfter] equal to [blocksFor] settles
    without giving control back to the event loop (a plain return value, a
    promise that is already settled); otherwise the hook waits for a
    timer or for input, and [blocksFor] is smaller. [effects] are the
    operations the call performs on the registry it is registered with,
    each at its offset from the call. *)
Record HookRun (Payload Op : Type) := {
  blocksFor : Z;
  settleAfter : Z;
  outcome : JsError + option Payload;
  effects : list (Z * Op)
}.
Arguments blocksFor {_ _} _.
Arguments settleAfter {_ _} _.
Arguments outcome {_ _} _.
Arguments effects {_ _} _.

(** Timed operations waiting to run, ordered by due time; operations due at
    the same time keep the order in which they were scheduled. *)
Fixpoint enqueue {Op} (due : Z) (op : Op) (q : list (Z * Op)) : list (Z * Op) :=
  match q with
  | [] => [(due, op)]
  | (d, o) :: q' => if d <=? due then (d, o) :: enqueue due op q'
                    else (due, op) :: (d, o) :: q'
  end.

Definition schedule {Op} (start : Z) (es : list (Z * Op)) (q : list (Z * Op))
  : list (Z * Op) :=
  foldl (λ q e, enqueue (start + e.1) e.2 q) q es.

(** The operations of [q] that run up to time [t]; the timed-out caller
    resumes before whatever is due at [t] itself ([strict]). *)
Definition isDue {Op} (strict : bool) (t : Z) (e : Z * Op) : bool :=
  if strict then e.1 <? t else e.1 <=? t.

Definition dueOps {Op} (strict : bool) (t : Z) (q : list (Z * Op)) : list Op :=
  snd <$> List.filter (isDue strict t) q.

Definition laterOps {Op} (strict : bool) (t : Z) (q : list (Z * Op))
  : list (Z * Op) :=
  List.filter (λ e, negb (isDue strict t e)) q.

(** [for (const x of arr)] over an array that the body may change: the
    iterator keeps a position and reads the array as it is at each step.
    [arr] reads the array out of the state; the body either moves to a new
    state or throws, which leaves the loop. The loop need not end (the body
    may keep growing the array), hence the fuel. *)
Fixpoint forOf {S A E} (fuel : nat) (arr : S → list A) (body : A → S → E + S)
    (i : nat) (s : S) : option (E + S) :=
  match fuel with
  | O => None
  | Datatypes.S fuel' =>
      match arr s !! i with
      | None => Some (inr s)
      | Some x =>
          match body x s with
          | inl e => Some (inl e)
          | inr s' => forOf fuel' arr body (Datatypes.S i) s'
          end
      end
  end.

(** The same loop over a list that cannot change. *)
Fixpoint forEach {S A E} (body : A → S → E + S) (l : list A) (s : S) : E + S :=
  match l with
  | [] => inr s
  | x :: l' =>
      match body x s with
      | inl e => inl e
      | inr s' => forEach body l' s'
      end
  end.

End Js.

(* ================================================================== *)
(** ** src/core/HookManager.ts                                         *)
(* ================================================================== *)

Module HookManager.
Import Js.

(** A function value. [OnceWrapper id hook] is the closure [wrappedHook]
    that [registerOneTimeHook] builds around [hook]. *)
Inductive FnRef :=
| UserFn (n : nat)
| OnceWrapper (id : string) (hook : FnRef).

Fixpoint FnRef_eqb (f g : FnRef) : bool :=
  match f, g with
  | UserFn n, UserFn m => bool_decide (n = m)
  | OnceWrapper i f', OnceWrapper j g' => bool_decide (i = j) && FnRef_eqb f' g'
  | _, _ => false
  end.

(** The [options] argument of the two register methods. *)
Record Options := {
  opt_priority : option Z;
  opt_id : option string;
  opt_timeout : option Z
}.

(** Calls a hook can make on the manager while it runs. [generated] is the
    value the default expression of [id] would produce
    ([`hook-${Date.now()}-${Math.random()...}`]). *)
Inductive Op :=
| RegisterHook (event : HookEvent) (hook : FnRef) (options : Options)
    (generated : string)
| RegisterOneTimeHook (event : HookEvent) (hook : FnRef) (options : Options)
    (generated : string)
| UnregisterHookById (hookId : string)
| UnregisterHook (event : HookEvent) (hook : FnRef).

Record PriorityHookRegistration := {
  hook : FnRef;
  priority : Z;
  id : string;
  oneTime : bool;
  timeout : option Z
}.

(** [hookRegistrations] is a [Map]: its entries are kept in insertion
    order, which is the order [unregisterHookById] searches them in.
    [pending] holds the registry operations that hooks called earlier have
    yet to perform. The statistics map and the set of error handlers are
    not part of the state: they are written and notified, never read by
    the dispatch (an error handler is taken not to call the manager). The
    [context] argument is passed to every hook as it is and is left out. *)
Record State := {
  hookRegistrations : list (HookEvent * list PriorityHookRegistration);
  clock : Z;
  pending : list (Z * Op)
}.

Definition empty (now : Z) : State :=
  {| hookRegistrations := []; clock := now; pending := [] |}.

(** [this.hookRegistrations.get(event)] *)
Fixpoint get (event : HookEvent)
    (m : list (HookEvent * list PriorityHookRegistration))
  : option (list PriorityHookRegistration) :=
  match m with
  | [] => None
  | (e, regs) :: m' => if bool_decide (e = event) then Some regs else get event m'
  end.

(** [this.hookRegistrations.set(event, regs)]: an existing key keeps its
    place, a new key goes last. *)
Fixpoint set (event : HookEvent) (regs : list PriorityHookRegistration)
    (m : list (HookEvent * list PriorityHookRegistration))
  : list (HookEvent * list PriorityHookRegistration) :=
  match m with
  | [] => [(event, regs)]
  | (e, old) :: m' =>
      if bool_decide (e = event) then (e, regs) :: m'
      else (e, old) :: set event regs m'
  end.

(** [this.hookRegistrations.get(event) || []] *)
Definition registrationsOf (event : HookEvent) (st : State)
  : list PriorityHookRegistration :=
  default [] (get event (hookRegistrations st)).

Definition withRegistrations
    (m : list (HookEvent * list PriorityHookRegistration)) (st : State) : State :=
  {| hookRegistrations := m; clock := clock st; pending := pending st |}.

(** The part shared by [registerHook] and [registerOneTimeHook]: create the
    event's array if needed, push, sort by priority. *)
Definition addRegistration (event : HookEvent)
    (registration : PriorityHookRegistration) (st : State) : State :=
  let registrations := registrationsOf event st in
  withRegistrations
    (set event (sortBy priority (registrations ++ [registration]))
       (hookRegistrations st))
    st.

Definition registerHook (event : HookEvent) (hook : FnRef) (options : Options)
    (generated : string) (st : State) : string * State :=
  let priority := default 100 (opt_priority options) in
  let id := default generated (opt_id options) in
  let registration :=
    {| hook := hook; priority := priority; id := id; oneTime := false;
       timeout := opt_timeout options |} in
  (id, addRegistration event registration st).

Definition registerOneTimeHook (event : HookEvent) (hook : FnRef)
    (options : Options) (generated : string) (st : State) : string * State :=
  let priority := default 100 (opt_priority options) in
  let id := default generated (opt_id options) in
  let wrappedHook := OnceWrapper id hook in
  let registration :=
    {| hook := wrappedHook; priority := priority; id := id; oneTime := true;
       timeout := opt_timeout options |} in
  (id, addRegistration event registration st).

(** A call of [registerHook] on a given event, and a sequence of them. *)
Record RegisterCall := {
  call_hook : FnRef;
  call_options : Options;
  call_generated : string
}.

Definition registerAll (event : HookEvent) (calls : list RegisterCall)
    (st : State) : State :=
  foldl (λ st c, (registerHook event (call_hook c) (call_options c)
                    (call_generated c) st).2) st calls.

(** The registration that a call of [registerHook] creates. *)
Definition registrationFor (c : RegisterCall) : PriorityHookRegistration :=
  {| hook := call_hook c;
     priority := default 100 (opt_priority (call_options c));
     id := default (call_generated c) (opt_id (call_options c));
     oneTime := false;
     timeout := opt_timeout (call_options c) |}.

(** The search of [unregisterHookById] through the entries of the map:
    the first event whose array holds the id loses that element. *)
Fixpoint removeById (hookId : string)
    (m : list (HookEvent * list PriorityHookRegistration))
  : option (list (HookEvent * list PriorityHookRegistration)) :=
  match m with
  | [] => None
  | (e, registrations) :: m' =>
      match findIndex (λ reg, bool_decide (id reg = hookId)) registrations with
      | Some index => Some ((e, delete index registrations) :: m')
      | None => cons (e, registrations) <$> removeById hookId m'
      end
  end.

Definition unregisterHookById (hookId : string) (st : State) : bool * State :=
  match removeById hookId (hookRegistrations st) with
  | Some m => (true, withRegistrations m st)
  | None => (false, st)
  end.

Definition unregisterHook (event : HookEvent) (f : FnRef) (st : State)
  : bool * State :=
  match get event (hookRegistrations st) with
  | None => (false, st)
  | Some registrations =>
      match findIndex (λ reg, FnRef_eqb (hook reg) f) registrations with
      | Some index =>
          (true, withRegistrations
                   (set event (delete index registrations) (hookRegistrations st))
                   st)
      | None => (false, st)
      end
  end.

(** [getHookInfo] *)
Definition getHookInfo (event : HookEvent) (st : State) : list (string * Z) :=
  (λ reg, (id reg, priority reg)) <$> registrationsOf event st.

Definition applyOp (st : State) (op : Op) : State :=
  match op with
  | RegisterHook e f o g => (registerHook e f o g st).2
  | RegisterOneTimeHook e f o g => (registerOneTimeHook e f o g st).2
  | UnregisterHookById i => (unregisterHookById i st).2
  | UnregisterHook e f => (unregisterHook e f st).2
  end.

(** Let time pass up to [t]: the pending operations that are due run in
    order, the others stay. *)
Definition advance (strict : bool) (t : Z) (st : State) : State :=
  let ran := foldl applyOp st (dueOps strict t (pending st)) in
  {| hookRegistrations := hookRegistrations ran;
     clock := t;
     pending := laterOps strict t (pending st) |}.

(** Entries of [HookExecutionResult]. *)
Record ExecutedHook := {
  executed_hookId : string;
  executed_priority : Z;
  executed_executionTime : Z;
  executed_success : bool;
  executed_modifiedData : bool
}.

Record HookError := {
  error_hookId : string;
  error_event : HookEvent;
  error : JsError;
  error_executionTime : Z
}.

Section Dispatch.

Context {Payload : Type}.

(** What the integrator's functions do when called. *)
Variable user : nat → Payload → HookRun Payload Op.

(** The wrapper of a one-time hook awaits the original hook, unregisters
    the registration, then returns the result or throws the error again. *)
Fixpoint call (f : FnRef) (data : Payload) : HookRun Payload Op :=
  match f with
  | UserFn n => user n data
  | OnceWrapper id hook =>
      let run := call hook data in
      {| blocksFor := blocksFor run;
         settleAfter := settleAfter run;
         outcome := outcome run;
         effects := effects run ++ [(settleAfter run, UnregisterHookById id)] |}
  end.

Record HookExecutionResult := {
  success : bool;
  executedHooks : list ExecutedHook;
  errors : list HookError;
  modifiedData : Payload;
  executionTime : Z;
  hookCount : nat
}.

(** [await Promise.resolve(fn(data, context))] *)
Definition awaitCall (f : FnRef) (data : Payload) (st : State)
  : (JsError + option Payload) * State :=
  let run := call f data in
  let st' := {| hookRegistrations := hookRegistrations st; clock := clock st;
                pending := schedule (clock st) (effects run) (pending st) |} in
  (outcome run, advance false (clock st + settleAfter run) st').

(** [executeWithTimeout]: the timer is set, then the function is called
    inside the executor of the promise. The callback of the timer can run
    only when the function has given the thread back and the delay has
    passed; the [then] callback that clears the timer runs as soon as the
    promise of the function has settled. So the function wins when its
    promise settles without giving control back to the event loop, however
    long that takes, or before the delay has passed; otherwise the timer
    rejects, at the first moment it can run, and a later settlement is
    ignored. (When the promise settles in the millisecond in which the
    timer is due, the timer, which was set first, is taken to run
    first.) *)
Definition executeWithTimeout (f : FnRef) (data : Payload) (timeout : Z)
    (st : State) : (JsError + option Payload) * State :=
  let run := call f data in
  let st' := {| hookRegistrations := hookRegistrations st; clock := clock st;
                pending := schedule (clock st) (effects run) (pending st) |} in
  if (settleAfter run <=? blocksFor run) || (settleAfter run <? timerDelay timeout)
  then (outcome run, advance false (clock st + settleAfter run) st')
  else
    let fires := Z.max (timerDelay timeout) (blocksFor run) in
    (inl (TimedOut timeout),
     advance (blocksFor run <? timerDelay timeout) (clock st + fires) st').

(** [registration.timeout ? executeWithTimeout(...) : registration.hook(...)];
    an absent timeout and 0 are both falsy. *)
Definition invoke (registration : PriorityHookRegistration) (data : Payload)
    (st : State) : (JsError + option Payload) * State :=
  match timeout registration with
  | Some t => if bool_decide (t = 0) then awaitCall (hook registration) data st
              else executeWithTimeout (hook registration) data t st
  | None => awaitCall (hook registration) data st
  end.

(** One call of a hook by the dispatcher: the registration, the payload
    passed, and what the dispatcher got back. *)
Record Invocation := {
  called : PriorityHookRegistration;
  input : Payload;
  settled : JsError + option Payload
}.

(** The variables of [executeHooksWithMonitoring] that the loop changes.
    [invoked] is not in the source: it records, in order, the calls the
    loop has made. *)
Record Loop := {
  manager : State;
  data : Payload;
  result : HookExecutionResult;
  invoked : list Invocation
}.

(** One iteration: the [try] block and the [catch] block. *)
Definition iteration (event : HookEvent)
    (registration : PriorityHookRegistration) (l : Loop) : JsError + Loop :=
  let hookStartTime := clock (manager l) in
  let '(settled, st) := invoke registration (data l) (manager l) in
  let hookDuration := clock st - hookStartTime in
  let r := result l in
  let seen := invoked l ++ [{| called := registration; input := data l;
                               settled := settled |}] in
  match settled with
  | inr hookResult =>
      let data' := default (data l) hookResult in
      inr {| manager := st;
             data := data';
             result :=
               {| success := success r;
                  executedHooks := executedHooks r ++
                    [{| executed_hookId := id registration;
                        executed_priority := priority registration;
                        executed_executionTime := hookDuration;
                        executed_success := true;
                        executed_modifiedData := bool_decide (is_Some hookResult) |}];
                  errors := errors r;
                  modifiedData := match hookResult with
                                  | Some _ => data'
                                  | None => modifiedData r
                                  end;
                  executionTime := executionTime r;
                  hookCount := hookCount r |};
             invoked := seen |}
  | inl e =>
      inr {| manager := st;
             data := data l;
             result :=
               {| success := success r;
                  executedHooks := executedHooks r;
                  errors := errors r ++
                    [{| error_hookId := id registration;
                        error_event := event;
                        error := e;
                        error_executionTime := hookDuration |}];
                  modifiedData := modifiedData r;
                  executionTime := executionTime r;
                  hookCount := hookCount r |};
             invoked := seen |}
  end.

Definition start (event : HookEvent) (payload : Payload) (st : State) : Loop :=
  {| manager := st;
     data := payload;
     result := {| success := true; executedHooks := []; errors := [];
                  modifiedData := payload; executionTime := 0;
                  hookCount := length (registrationsOf event st) |};
     invoked := [] |}.

(** The statements after the loop. *)
Definition finish (startTime : Z) (l : Loop) : Loop :=
  let r := result l in
  {| manager := manager l;
     data := data l;
     result := {| success := bool_decide (length (errors r) = 0%nat);
                  executedHooks := executedHooks r;
                  errors := errors r;
                  modifiedData := modifiedData r;
                  executionTime := clock (manager l) - startTime;
                  hookCount := hookCount r |};
     invoked := invoked l |}.

(** [executeHooksWithMonitoring]. The loop is over the array stored in the
    map, not over a copy. [None]: the fuel did not suffice (an iteration
    never throws: its [catch] block handles every failure of the hook). *)
Definition executeHooksWithMonitoring (fuel : nat) (event : HookEvent)
    (payload : Payload) (st : State) : option Loop :=
  match forOf fuel (λ l, registrationsOf event (manager l)) (iteration event)
          0%nat (start event payload st) with
  | Some (inr l) => Some (finish (clock st) l)
  | Some (inl e) => None
  | None => None
  end.

(** The ids of the hooks that failed, in the order of the report. *)
Definition failedIds (r : HookExecutionResult) : list string :=
  error_hookId <$> errors r.

(** Notions used to state properties of a dispatch. *)

(** The payload after a call that was made with payload [d]. *)
Definition carried (d : Payload) (s : JsError + option Payload) : Payload :=
  match s with
  | inr (Some v) => v
  | _ => d
  end.

(** Each call of the trace got the payload the calls before it left. *)
Fixpoint chained (p : Payload) (tr : list Invocation) : Prop :=
  match tr with
  | [] => True
  | inv :: tr' => input inv = p ∧ chained (carried p (settled inv)) tr'
  end.

Definition replay (p : Payload) (tr : list Invocation) : Payload :=
  foldl (λ d inv, carried d (settled inv)) p tr.

(** The failure of a call, as the report lists it. *)
Definition failureOf (inv : Invocation) : option (string * JsError) :=
  match settled inv with
  | inl e => Some (id (called inv), e)
  | inr _ => None
  end.

Definition successOf (inv : Invocation) : option string :=
  match settled inv with
  | inl _ => None
  | inr _ => Some (id (called inv))
  end.

(** How the loop variables and the report relate to the calls made so
    far, in a dispatch of [payload]. *)
Definition consistent (payload : Payload) (l : Loop) : Prop :=
  chained payload (invoked l)
  ∧ data l = replay payload (invoked l)
  ∧ modifiedData (result l) = data l
  ∧ (λ e, (error_hookId e, error e)) <$> errors (result l)
    = omap failureOf (invoked l)
  ∧ executed_hookId <$> executedHooks (result l) = omap successOf (invoked l)
  ∧ Forall (λ inv, ∃ st, settled inv = (invoke (called inv) (input inv) st).1)
      (invoked l).

(** Nothing changes the registrations of [event] while its hooks run:
    no operation is pending, and no hook registered for the event performs
    an operation on the registry. *)
Definition undisturbed (event : HookEvent) (st : State) : Prop :=
  pending st = [] ∧
  ∀ r d, r ∈ registrationsOf event st → effects (call (hook r) d) = [].

(** What the dispatcher got back from a call is the timeout error of the
    registration when the hook, registered with a timeout other than 0, had
    given control back and was still pending when the delay had passed, and
    otherwise what the hook of the registration did with the payload it was
    passed. *)
Definition answered (inv : Invocation) : Prop :=
  let run := call (hook (called inv)) (input inv) in
  let late t :=
    t ≠ 0 ∧ blocksFor run < settleAfter run
    ∧ timerDelay t ≤ settleAfter run in
  match timeout (called inv) with
  | Some t => (late t → settled inv = inl (TimedOut t))
              ∧ (¬ late t → settled inv = outcome run)
  | None => settled inv = outcome run
  end.

End Dispatch.

(** Further notions about the registry. *)

(** Every array of the registry is in non-decreasing order of priority. *)
Definition sortedByPriority (st : State) : Prop :=
  ∀ event, StronglySorted (λ a b, priority a ≤ priority b)
             (registrationsOf event st).

(** No registration, of any event, has the id. *)
Definition idFree (hookId : string) (st : State) : Prop :=
  Forall (λ entry, Forall (λ reg, id reg ≠ hookId) entry.2)
    (hookRegistrations st).

(** The number of registrations, over all events. *)
Definition registrationCount (st : State) : nat :=
  length (concat (snd <$> hookRegistrations st)).

End HookManager.

(* ================================================================== *)
(** ** src/core/EventEmitter.ts                                        *)
(* ================================================================== *)

Module HookableEventEmitter.
Import Js.

(** A function value. [OnceWrapper n event hook] is the closure
    [wrappedHook] that [once] builds around [hook]; [n] tells apart the
    closures of different calls (it is the number of the hook id that the
    call hands out). [ListenerOnce n event listener] is the function that
    [once] of the base class, the [EventEmitter] of the runtime, builds
    around [listener]: it calls [listener] the first time it is called and
    does nothing afterwards; [n] is the number of the hook id under which
    it is filed. [ErrorLogger] is the listener that the constructor
    installs on the error event. *)
Inductive FnRef :=
| UserFn (n : nat)
| OnceWrapper (n : nat) (event : HookEvent) (hook : FnRef)
| ListenerOnce (n : nat) (event : HookEvent) (listener : FnRef)
| ErrorLogger.

Fixpoint FnRef_eqb (f g : FnRef) : bool :=
  match f, g with
  | UserFn n, UserFn m => bool_decide (n = m)
  | OnceWrapper n e f', OnceWrapper m e' g' =>
      bool_decide (n = m) && bool_decide (e = e') && FnRef_eqb f' g'
  | ListenerOnce n e f', ListenerOnce m e' g' =>
      bool_decide (n = m) && bool_decide (e = e') && FnRef_eqb f' g'
  | ErrorLogger, ErrorLogger => true
  | _, _ => false
  end.

(** The number of wrappers around a function. *)
Fixpoint depth (f : FnRef) : nat :=
  match f with
  | OnceWrapper _ _ hook => S (depth hook)
  | ListenerOnce _ _ listener => S (depth listener)
  | _ => 0
  end.

(** Calls a hook can make on the emitter while it runs. [Unregister] is
    the private [unregisterHook], which a once-wrapper calls on itself. *)
Inductive Op :=
| On (event : HookEvent) (hook : FnRef) (priority : option Z)
| Once (event : HookEvent) (hook : FnRef) (priority : option Z)
| Off (event : HookEvent) (hook : FnRef)
| Unregister (event : HookEvent) (hook : FnRef).

(** [id] holds the number [n] of the id [`hook-${n}`]. *)
Record PriorityHookRegistration := {
  event : HookEvent;
  hook : FnRef;
  priority : Z;
  id : nat
}.

(** [fired] lists the wrappers [ListenerOnce] that have been called: the
    flag that each of them keeps. *)
Record State := {
  hookRegistrations : list (HookEvent * list PriorityHookRegistration);
  nextHookId : nat;
  fired : list nat;
  clock : Z;
  pending : list (Z * Op)
}.

Fixpoint get (event : HookEvent)
    (m : list (HookEvent * list PriorityHookRegistration))
  : option (list PriorityHookRegistration) :=
  match m with
  | [] => None
  | (e, regs) :: m' => if bool_decide (e = event) then Some regs else get event m'
  end.

Fixpoint set (event : HookEvent) (regs : list PriorityHookRegistration)
    (m : list (HookEvent * list PriorityHookRegistration))
  : list (HookEvent * list PriorityHookRegistration) :=
  match m with
  | [] => [(event, regs)]
  | (e, old) :: m' =>
      if bool_decide (e = event) then (e, regs) :: m'
      else (e, old) :: set event regs m'
  end.

Definition withRegistrations
    (m : list (HookEvent * list PriorityHookRegistration)) (next : nat)
    (st : State) : State :=
  {| hookRegistrations := m; nextHookId := next; fired := fired st;
     clock := clock st; pending := pending st |}.

(** The private [registerHook]. [priority || 100] yields 100 for the
    priority 0 as well. *)
Definition registerHook (event : HookEvent) (hook : FnRef) (priority : Z)
    (st : State) : State :=
  let registration :=
    {| event := event;
       hook := hook;
       priority := if bool_decide (priority = 0) then 100 else priority;
       id := nextHookId st |} in
  let registrations := default [] (get event (hookRegistrations st)) in
  withRegistrations
    (set event (sortBy HookableEventEmitter.priority
                  (registrations ++ [registration]))
       (hookRegistrations st))
    (S (nextHookId st)) st.

(** The private [unregisterHook]. *)
Definition unregisterHook (event : HookEvent) (f : FnRef) (st : State) : State :=
  match get event (hookRegistrations st) with
  | None => st
  | Some registrations =>
      match findIndex (λ reg, FnRef_eqb (hook reg) f) registrations with
      | Some index =>
          withRegistrations
            (set event (delete index registrations) (hookRegistrations st))
            (nextHookId st) st
      | None => st
      end
  end.

(** [on(event, hook, priority = 100)]; the listener list of the base class
    is not part of the state. *)
Definition on (event : HookEvent) (hook : FnRef) (priority : option Z)
    (st : State) : State :=
  registerHook event hook (default 100 priority) st.

(** [once(event, hook, priority = 100)]. The closure [wrappedHook] is
    registered with the priority. Then [super.once(event, wrappedHook)]
    runs: [once] of the base class wraps its argument in the function that
    calls it one time only and hands that function to [this.on], which is
    the method [on] above; so the function is registered as a hook as
    well, with the default priority, under the next id. *)
Definition once (event : HookEvent) (hook : FnRef) (priority : option Z)
    (st : State) : State :=
  let wrappedHook := OnceWrapper (nextHookId st) event hook in
  let st1 := registerHook event wrappedHook (default 100 priority) st in
  on event (ListenerOnce (nextHookId st1) event wrappedHook) None st1.

Definition off (event : HookEvent) (hook : FnRef) (st : State) : State :=
  unregisterHook event hook st.

(** The emitter as its constructor leaves it: [setupErrorHandling] has
    registered the logging listener through [on]. *)
Definition create (now : Z) : State :=
  on error_event ErrorLogger None
    {| hookRegistrations := []; nextHookId := 1; fired := []; clock := now;
       pending := [] |}.

(** [getHookInfo] *)
Definition getHookInfo (event : HookEvent) (st : State) : list (nat * Z) :=
  match get event (hookRegistrations st) with
  | None => []
  | Some registrations => (λ reg, (id reg, priority reg)) <$> registrations
  end.

Definition applyOp (st : State) (op : Op) : State :=
  match op with
  | On e f p => on e f p st
  | Once e f p => once e f p st
  | Off e f => off e f st
  | Unregister e f => unregisterHook e f st
  end.

Definition advance (t : Z) (st : State) : State :=
  let ran := foldl applyOp st (dueOps false t (pending st)) in
  {| hookRegistrations := hookRegistrations ran;
     nextHookId := nextHookId ran;
     fired := fired ran;
     clock := t;
     pending := laterOps false t (pending st) |}.

Section Dispatch.

Context {Payload : Type}.

Variable user : nat → Payload → HookRun Payload Op.

(** What a call of a function value does, when the wrappers [fired] have
    been called before. The wrapper of [once] unregisters itself, then
    calls the original hook. A wrapper of the base class that has been
    called before returns nothing; on its first call it takes itself off
    the listeners of the base class (which are not part of the state),
    sets its flag and calls its listener. The logging listener returns
    nothing. *)
Fixpoint callWith (fired : list nat) (f : FnRef) (data : Payload)
  : HookRun Payload Op :=
  match f with
  | UserFn n => user n data
  | OnceWrapper n event hook =>
      let run := callWith fired hook data in
      {| blocksFor := blocksFor run;
         settleAfter := settleAfter run;
         outcome := outcome run;
         effects := (0, Unregister event (OnceWrapper n event hook)) :: effects run |}
  | ListenerOnce n event listener =>
      if bool_decide (n ∈ fired)
      then {| blocksFor := 0; settleAfter := 0; outcome := inr None;
              effects := [] |}
      else callWith fired listener data
  | ErrorLogger =>
      {| blocksFor := 0; settleAfter := 0; outcome := inr None; effects := [] |}
  end.

(** The call when no wrapper of the base class has been called yet. *)
Definition call (f : FnRef) (data : Payload) : HookRun Payload Op :=
  callWith [] f data.

(** The wrappers of the base class that set their flag in a call of [f]. *)
Fixpoint firing (fired : list nat) (f : FnRef) : list nat :=
  match f with
  | OnceWrapper _ _ hook => firing fired hook
  | ListenerOnce n _ listener =>
      if bool_decide (n ∈ fired) then [] else n :: firing fired listener
  | _ => []
  end.

(** [await Promise.resolve(registration.hook(currentData, context))] *)
Definition awaitCall (f : FnRef) (data : Payload) (st : State)
  : (JsError + option Payload) * State :=
  let run := callWith (fired st) f data in
  let st' := {| hookRegistrations := hookRegistrations st;
                nextHookId := nextHookId st;
                fired := firing (fired st) f ++ fired st;
                clock := clock st;
                pending := schedule (clock st) (effects run) (pending st) |} in
  (outcome run, advance (clock st + settleAfter run) st').

(** One call of a hook by the dispatcher: the registration, the payload
    passed, and what the dispatcher got back. *)
Record Invocation := {
  called : PriorityHookRegistration;
  input : Payload;
  settled : JsError + option Payload
}.

(** The variables of [executeHooks] that the loop changes; [invoked] is
    not in the source and records, in order, the calls the loop has made. *)
Record Loop := {
  emitter : State;
  currentData : Payload;
  invoked : list Invocation
}.

(** One iteration. [hookStartTime] is declared by [const] inside the [try]
    block, so the [catch] block, which reads it first thing, is outside its
    scope: entering the [catch] block throws a ReferenceError, and that
    error leaves the loop and the method. *)
Definition iteration (registration : PriorityHookRegistration) (l : Loop)
  : JsError * Loop + Loop :=
  let '(settled, st) := awaitCall (hook registration) (currentData l) (emitter l) in
  let l' := {| emitter := st;
               currentData := match settled with
                              | inr result => default (currentData l) result
                              | inl _ => currentData l
                              end;
               invoked := invoked l ++
                 [{| called := registration; input := currentData l;
                     settled := settled |}] |} in
  match settled with
  | inr _ => inr l'
  | inl _ => inl (ReferenceError "hookStartTime", l')
  end.

(** [executeHooks]: [inl] when the returned promise rejects (the loop
    variables are then those at the throw). The loop is over the array
    stored in the map. [None]: the fuel did not suffice. *)
Definition executeHooks (fuel : nat) (event : HookEvent) (data : Payload)
    (st : State) : option (JsError * Loop + Loop) :=
  let begin := {| emitter := st; currentData := data; invoked := [] |} in
  match get event (hookRegistrations st) with
  | None => Some (inr begin)
  | Some [] => Some (inr begin)
  | Some _ =>
      forOf fuel
        (λ l, default [] (get event (hookRegistrations (emitter l))))
        iteration 0%nat begin
  end.

(** Notions used to state properties of a dispatch. *)

Definition registrationsOf (event : HookEvent) (st : State)
  : list PriorityHookRegistration :=
  default [] (get event (hookRegistrations st)).

Definition undisturbed (event : HookEvent) (st : State) : Prop :=
  pending st = [] ∧
  ∀ fired' r d, fired st ⊆ fired' → r ∈ registrationsOf event st →
                effects (callWith fired' (hook r) d) = [].

(** No hook registered for [event] throws or rejects. *)
Definition unfailing (event : HookEvent) (st : State) : Prop :=
  ∀ fired' r d, fired st ⊆ fired' → r ∈ registrationsOf event st →
                ∃ v, outcome (callWith fired' (hook r) d) = inr v.

(** What the dispatcher got back from a call is what the hook of the
    registration did with the payload it was passed. *)
Definition answered (inv : Invocation) : Prop :=
  ∃ fired', settled inv = outcome (callWith fired' (hook (called inv)) (input inv)).

End Dispatch.

(** [this.hookRegistrations.delete(event)] *)
Fixpoint remove (event : HookEvent)
    (m : list (HookEvent * list PriorityHookRegistration))
  : list (HookEvent * list PriorityHookRegistration) :=
  match m with
  | [] => []
  | (e, regs) :: m' =>
      if bool_decide (e = event) then m' else (e, regs) :: remove event m'
  end.

(** [removeAllListeners(event)], on the hook registrations. *)
Definition removeAllListeners (event : HookEvent) (st : State) : State :=
  withRegistrations (remove event (hookRegistrations st)) (nextHookId st) st.

(** Further notions about the registry. *)

(** An array in non-decreasing order of priority in which no registration
    has the priority 0. *)
Definition ordered (regs : list PriorityHookRegistration) : Prop :=
  StronglySorted (λ a b, priority a ≤ priority b) regs
  ∧ Forall (λ r, priority r ≠ 0) regs.

(** The registrations of all events. *)
Definition allRegistrations (st : State) : list PriorityHookRegistration :=
  concat (snd <$> hookRegistrations st).

(** No two registrations of the registry have the same id, and every id
    in use is below the next id to hand out. *)
Definition wellNumbered (st : State) : Prop :=
  NoDup (id <$> allRegistrations st)
  ∧ Forall (λ r, (id r < nextHookId st)%nat) (allRegistrations st).

(** The public methods that change the registry. *)
Inductive Call :=
| Do (op : Op)
| RemoveAllListeners (event : HookEvent).

Definition perform (st : State) (c : Call) : State :=
  match c with
  | Do op => applyOp st op
  | RemoveAllListeners event => removeAllListeners event st
  end.

(** The payload that a sequence of calls leaves, starting from [p]. *)
Definition replay {Payload} (p : Payload) (tr : list (@Invocation Payload))
  : Payload :=
  foldl (λ d inv, match settled inv with
                  | inr (Some v) => v
                  | _ => d
                  end) p tr.

(** Each call of the trace got the payload the calls before it left. *)
Fixpoint chained {Payload} (p : Payload) (tr : list (@Invocation Payload))
  : Prop :=
  match tr with
  | [] => True
  | inv :: tr' => input inv = p ∧ chained (replay p [inv]) tr'
  end.

End HookableEventEmitter.

(* ================================================================== *)
(** ** src/events/BufferEvent.ts and the chunk types of
       src/events/types.ts                                             *)
(* ================================================================== *)

Module BufferFlushEvent.
Import Js.

Record Chunk := {
  id : string;
  content : string;
  index : Z;
  timestamp : Z;
  isComplete : bool;
  sequenceId : option string
}.

Inductive Strategy := Size | Time | Hybrid.

#[global] Instance Strategy_eq_dec : EqDecision Strategy.
Proof. solve_decision. Defined.

Inductive FlushReason := BySize | ByTime | ByHybrid | Manual.

#[global] Instance FlushReason_eq_dec : EqDecision FlushReason.
Proof. solve_decision. Defined.

Record StreamBufferConfig := {
  maxSize : Z;
  maxTime : Z;
  strategy : Strategy;
  enableMetrics : bool
}.

Record BufferFlushEventData := {
  bufferId : string;
  chunks : list Chunk;
  flushReason : FlushReason;
  totalSize : Z;
  processingTime : Z
}.

(** [createDefaultBufferConfig()] *)
Definition createDefaultBufferConfig : StreamBufferConfig :=
  {| maxSize := 10; maxTime := 100; strategy := Hybrid; enableMetrics := true |}.

(** [chunks.reduce((sum, chunk) => sum + chunk.content.length, 0)] *)
Definition totalSizeOf (cs : list Chunk) : Z :=
  foldl (λ sum chunk, sum + Z.of_nat (String.length (content chunk))) 0 cs.

Definition withProcessingTime (t : Z) (d : BufferFlushEventData)
  : BufferFlushEventData :=
  {| bufferId := bufferId d; chunks := chunks d; flushReason := flushReason d;
     totalSize := totalSize d; processingTime := t |}.

Definition withClock (now : Z) (em : HookableEventEmitter.State)
  : HookableEventEmitter.State :=
  {| HookableEventEmitter.hookRegistrations :=
       HookableEventEmitter.hookRegistrations em;
     HookableEventEmitter.nextHookId := HookableEventEmitter.nextHookId em;
     HookableEventEmitter.fired := HookableEventEmitter.fired em;
     HookableEventEmitter.clock := now;
     HookableEventEmitter.pending := HookableEventEmitter.pending em |}.

(** [processBufferFlush], on the emitter part of the object. The default
    validation rule asks for fields that the event data always has. The
    hooks of the buffer-flush event run on the event data; the chunks of
    what they return are the result; an error is thrown again. *)
Definition processBufferFlush
    (user : nat → BufferFlushEventData
            → HookRun BufferFlushEventData HookableEventEmitter.Op)
    (fuel : nat) (now : Z) (bufferId : string) (cs : list Chunk)
    (reason : FlushReason) (em : HookableEventEmitter.State)
  : option ((JsError + list Chunk) * HookableEventEmitter.State) :=
  let eventData :=
    {| bufferId := bufferId; chunks := cs; flushReason := reason;
       totalSize := totalSizeOf cs; processingTime := 0 |} in
  match HookableEventEmitter.executeHooks user fuel buffer_flush eventData
          (withClock now em) with
  | None => None
  | Some (inl (e, l)) => Some (inl e, HookableEventEmitter.emitter l)
  | Some (inr l) =>
      let em' := HookableEventEmitter.emitter l in
      let processedData :=
        withProcessingTime (HookableEventEmitter.clock em' - now)
          (HookableEventEmitter.currentData l) in
      Some (inr (chunks processedData), em')
  end.

End BufferFlushEvent.

(* ================================================================== *)
(** ** src/streaming/StreamBuffer.ts                                   *)
(* ================================================================== *)

Module StreamBuffer.
Import Js.
Import BufferFlushEvent.

(** What awaiting [onFlush(flushData, flushContext)] gives: the time it
    took and how the promise settled. *)
Definition FlushHandler : Type :=
  BufferFlushEventData → Z * (JsError + list Chunk).

(** The fields of the class. [flushTimeout] is the due time of the armed
    timer. [immediates] are the callbacks that [addChunk] and [addChunks]
    have handed to [setImmediate] and that have not run yet: each is a
    call of [flush] with the recorded reason. *)
Record t := {
  id : string;
  config : StreamBufferConfig;
  chunks : list Chunk;
  createdAt : Z;
  lastChunkTime : Z;
  flushTimeout : option Z;
  isActive : bool;
  bufferEvent : HookableEventEmitter.State;
  onFlush : option FlushHandler;
  totalChunksAdded : Z;
  totalFlushes : Z;
  totalProcessingTime : Z;
  immediates : list FlushReason
}.

(** Return value of [addChunk] and [addChunks]. *)
Record AddResult := {
  shouldFlush : bool;
  flushReason : option FlushReason;
  bufferedChunks : Z
}.

Definition usesTimer (c : StreamBufferConfig) : bool :=
  bool_decide (strategy c = Time) || bool_decide (strategy c = Hybrid).

(** [startFlushTimer] at [now]: the due time of the timer it sets with
    [setTimeout(..., this.config.maxTime)]. *)
Definition timerDue (now : Z) (c : StreamBufferConfig) : Z :=
  now + timerDelay (maxTime c).

(** [new StreamBuffer({ id, config, onFlush })] *)
Definition create (now : Z) (id : string) (config : option StreamBufferConfig)
    (onFlush : option FlushHandler) : t :=
  let config := default createDefaultBufferConfig config in
  {| id := id;
     config := config;
     chunks := [];
     createdAt := now;
     lastChunkTime := now;
     flushTimeout := if usesTimer config then Some (timerDue now config) else None;
     isActive := true;
     bufferEvent := HookableEventEmitter.create now;
     onFlush := onFlush;
     totalChunksAdded := 0;
     totalFlushes := 0;
     totalProcessingTime := 0;
     immediates := [] |}.

(** The private [shouldFlush], at time [now]. The two products by 0.7 and
    0.5 are compared exactly, as ratios of integers. *)
Definition checkFlush (now : Z) (b : t) : bool * option FlushReason :=
  let age := now - createdAt b in
  let timeSinceLastChunk := now - lastChunkTime b in
  let n := Z.of_nat (length (chunks b)) in
  if maxSize (config b) <=? n then (true, Some BySize)
  else if bool_decide (strategy (config b) = Time) && (maxTime (config b) <=? age)
  then (true, Some ByTime)
  else if bool_decide (strategy (config b) = Hybrid) then
    if maxTime (config b) <=? age then (true, Some ByHybrid)
    else if (7 * maxSize (config b) <=? 10 * n)
            && (maxTime (config b) <=? 2 * timeSinceLastChunk)
    then (true, Some ByHybrid)
    else (false, None)
  else (false, None).

Definition notAccepted : AddResult :=
  {| shouldFlush := false; flushReason := None; bufferedChunks := 0 |}.

(** The part shared by [addChunk] and [addChunks] after the chunks are
    pushed: the check, the [setImmediate] call, the return value. The call
    is synchronous: its processing time on the clock is 0. *)
Definition afterPush (now : Z) (b : t) : AddResult * t :=
  let flushCheck := checkFlush now b in
  let scheduled :=
    match flushCheck with
    | (true, Some reason) => immediates b ++ [reason]
    | _ => immediates b
    end in
  ({| shouldFlush := flushCheck.1;
      flushReason := flushCheck.2;
      bufferedChunks := Z.of_nat (length (chunks b)) |},
   {| id := id b; config := config b; chunks := chunks b;
      createdAt := createdAt b; lastChunkTime := lastChunkTime b;
      flushTimeout := flushTimeout b; isActive := isActive b;
      bufferEvent := bufferEvent b; onFlush := onFlush b;
      totalChunksAdded := totalChunksAdded b; totalFlushes := totalFlushes b;
      totalProcessingTime := totalProcessingTime b + 0;
      immediates := scheduled |}).

Definition push (now : Z) (cs : list Chunk) (b : t) : t :=
  {| id := id b; config := config b; chunks := chunks b ++ cs;
     createdAt := createdAt b; lastChunkTime := now;
     flushTimeout := flushTimeout b; isActive := isActive b;
     bufferEvent := bufferEvent b; onFlush := onFlush b;
     totalChunksAdded := totalChunksAdded b + Z.of_nat (length cs);
     totalFlushes := totalFlushes b;
     totalProcessingTime := totalProcessingTime b;
     immediates := immediates b |}.

(** [addChunk] and [addChunks] at [now]. The clock is read once for the
    call; in the source [lastChunkTime] and [shouldFlush] read it one after
    the other, and [checkFlush checked (push pushed cs b)] is the check
    when the two readings differ. *)
Definition addChunk (now : Z) (chunk : Chunk) (b : t) : AddResult * t :=
  if negb (isActive b) then (notAccepted, b)
  else afterPush now (push now [chunk] b).

Definition addChunks (now : Z) (cs : list Chunk) (b : t) : AddResult * t :=
  if negb (isActive b) then (notAccepted, b)
  else afterPush now (push now cs b).

(** State after the awaited flush processing: [this.chunks = []] in both
    branches, the counters in the successful one only. *)
Definition afterFlush (ok : bool) (elapsed : Z)
    (em : HookableEventEmitter.State) (b : t) : t :=
  {| id := id b; config := config b; chunks := [];
     createdAt := createdAt b; lastChunkTime := lastChunkTime b;
     flushTimeout := flushTimeout b; isActive := isActive b;
     bufferEvent := em; onFlush := onFlush b;
     totalChunksAdded := totalChunksAdded b;
     totalFlushes := if ok then totalFlushes b + 1 else totalFlushes b;
     totalProcessingTime :=
       if ok then totalProcessingTime b + elapsed else totalProcessingTime b;
     immediates := immediates b |}.

(** No integrator function can be registered on the private
    [bufferEvent] of a buffer; this is the environment of its hooks. *)
Definition noHooks (n : nat) (d : BufferFlushEventData)
  : HookRun BufferFlushEventData HookableEventEmitter.Op :=
  {| blocksFor := 0; settleAfter := 0; outcome := inr None; effects := [] |}.

(** [flush(reason)], called at [now] and run to completion. [inl]: the
    returned promise rejects. [None]: the fuel of the hook loop did not
    suffice. *)
Definition flush (fuel : nat) (reason : FlushReason) (now : Z) (b : t)
  : option ((JsError + list Chunk) * t) :=
  if negb (isActive b) || bool_decide (length (chunks b) = 0%nat)
  then Some (inr [], b)
  else
    let chunksToFlush := chunks b in
    let totalSize := totalSizeOf chunksToFlush in
    match onFlush b with
    | Some handler =>
        let flushData :=
          {| BufferFlushEvent.bufferId := id b;
             BufferFlushEvent.chunks := chunksToFlush;
             BufferFlushEvent.flushReason := reason;
             totalSize := totalSize; processingTime := 0 |} in
        match handler flushData with
        | (elapsed, inr processedChunks) =>
            Some (inr processedChunks, afterFlush true elapsed (bufferEvent b) b)
        | (elapsed, inl e) =>
            Some (inl e, afterFlush false elapsed (bufferEvent b) b)
        end
    | None =>
        match processBufferFlush noHooks fuel now (id b) chunksToFlush reason
                (bufferEvent b) with
        | None => None
        | Some (inr processedChunks, em) =>
            Some (inr processedChunks,
                  afterFlush true (HookableEventEmitter.clock em - now) em b)
        | Some (inl e, em) =>
            Some (inl e, afterFlush false (HookableEventEmitter.clock em - now) em b)
        end
    end.

Definition withTimer (timer : option Z) (active : bool) (b : t) : t :=
  {| id := id b; config := config b; chunks := chunks b;
     createdAt := createdAt b; lastChunkTime := lastChunkTime b;
     flushTimeout := timer; isActive := active;
     bufferEvent := bufferEvent b; onFlush := onFlush b;
     totalChunksAdded := totalChunksAdded b; totalFlushes := totalFlushes b;
     totalProcessingTime := totalProcessingTime b;
     immediates := immediates b |}.

(** [clear()] *)
Definition clear (b : t) : list Chunk * t :=
  (chunks b,
   {| id := id b; config := config b; chunks := [];
      createdAt := createdAt b; lastChunkTime := lastChunkTime b;
      flushTimeout := flushTimeout b; isActive := isActive b;
      bufferEvent := bufferEvent b; onFlush := onFlush b;
      totalChunksAdded := totalChunksAdded b; totalFlushes := totalFlushes b;
      totalProcessingTime := totalProcessingTime b;
      immediates := immediates b |}).

(** [pause()] *)
Definition pause (b : t) : t := withTimer None false b.

(** [resume()] *)
Definition resume (now : Z) (b : t) : t :=
  if isActive b then b
  else withTimer
         (if usesTimer (config b) then Some (timerDue now (config b))
          else flushTimeout b)
         true b.

(** [destroy()] *)
Definition destroy (b : t) : list Chunk * t := clear (pause b).

(** The event loop runs the oldest callback given to [setImmediate]. The
    promise of the [flush] it calls is dropped. *)
Definition runImmediate (fuel : nat) (now : Z) (b : t) : option t :=
  match immediates b with
  | [] => Some b
  | reason :: rest =>
      let b' :=
        {| id := id b; config := config b; chunks := chunks b;
           createdAt := createdAt b; lastChunkTime := lastChunkTime b;
           flushTimeout := flushTimeout b; isActive := isActive b;
           bufferEvent := bufferEvent b; onFlush := onFlush b;
           totalChunksAdded := totalChunksAdded b; totalFlushes := totalFlushes b;
           totalProcessingTime := totalProcessingTime b;
           immediates := rest |} in
      snd <$> flush fuel reason now b'
  end.

(** The timer set by [startFlushTimer] fires. *)
Definition fireFlushTimer (fuel : nat) (now : Z) (b : t) : option t :=
  match flushTimeout b with
  | Some due =>
      if due <=? now then
        let b' := withTimer None (isActive b) b in
        if isActive b' && negb (bool_decide (length (chunks b') = 0%nat))
        then snd <$> flush fuel ByTime now b'
        else Some b'
      else Some b
  | None => Some b
  end.

Definition withChunks (cs : list Chunk) (b : t) : t :=
  {| id := id b; config := config b; chunks := cs;
     createdAt := createdAt b; lastChunkTime := lastChunkTime b;
     flushTimeout := flushTimeout b; isActive := isActive b;
     bufferEvent := bufferEvent b; onFlush := onFlush b;
     totalChunksAdded := totalChunksAdded b; totalFlushes := totalFlushes b;
     totalProcessingTime := totalProcessingTime b;
     immediates := immediates b |}.

(** [getChunkAt(index)], for an integer index: [this.chunks[index]]. *)
Definition getChunkAt (index : Z) (b : t) : option Chunk :=
  if index <? 0 then None else chunks b !! Z.to_nat index.

(** [removeChunkAt(index)], for an integer index:
    [this.chunks.splice(index, 1)[0]]. [splice] counts a negative start
    from the end of the array and clamps the start to the array. *)
Definition removeChunkAt (index : Z) (b : t) : option Chunk * t :=
  let len := Z.of_nat (length (chunks b)) in
  let start := if index <? 0 then Z.max (len + index) 0 else Z.min index len in
  (chunks b !! Z.to_nat start,
   withChunks (delete (Z.to_nat start) (chunks b)) b).

(** [drain()] *)
Definition drain (fuel : nat) (now : Z) (b : t)
  : option ((JsError + list Chunk) * t) :=
  flush fuel Manual now b.

(** Calls of the public methods that add chunks or move them out in one
    piece, and the two callbacks that the buffer leaves with the event
    loop. A call that is awaited runs to its end before the next one
    starts. *)
Inductive Action :=
| AddChunk (now : Z) (chunk : Chunk)
| AddChunks (now : Z) (cs : list Chunk)
| Flush (reason : FlushReason) (now : Z)
| Drain (now : Z)
| RunImmediate (now : Z)
| FireFlushTimer (now : Z)
| Clear
| Pause
| Resume (now : Z)
| Destroy.

Definition act (fuel : nat) (a : Action) (b : t) : option t :=
  match a with
  | AddChunk now chunk => Some (addChunk now chunk b).2
  | AddChunks now cs => Some (addChunks now cs b).2
  | Flush reason now => snd <$> flush fuel reason now b
  | Drain now => snd <$> drain fuel now b
  | RunImmediate now => runImmediate fuel now b
  | FireFlushTimer now => fireFlushTimer fuel now b
  | Clear => Some (clear b).2
  | Pause => Some (pause b)
  | Resume now => Some (resume now b)
  | Destroy => Some (destroy b).2
  end.

(** [chunksToFlush]: the chunks that a call of [flush] hands to the flush
    handler or to the hooks; none when the guard returns early. *)
Definition chunksToFlush (b : t) : list Chunk :=
  if negb (isActive b) || bool_decide (length (chunks b) = 0%nat) then []
  else chunks b.

(** The chunks that a call puts into the buffer. *)
Definition entering (a : Action) (b : t) : list Chunk :=
  match a with
  | AddChunk _ chunk => if isActive b then [chunk] else []
  | AddChunks _ cs => if isActive b then cs else []
  | _ => []
  end.

(** The chunks that a call takes out of the buffer: those it hands to the
    flush processing, and those that [clear] and [destroy] return. *)
Definition leaving (a : Action) (b : t) : list Chunk :=
  match a with
  | Flush _ _ | Drain _ => chunksToFlush b
  | RunImmediate _ =>
      match immediates b with
      | [] => []
      | _ :: _ => chunksToFlush b
      end
  | FireFlushTimer now =>
      match flushTimeout b with
      | Some due => if due <=? now then chunksToFlush b else []
      | None => []
      end
  | Clear | Destroy => chunks b
  | _ => []
  end.

(** A sequence of calls, with the chunks that entered and left. *)
Record Run := {
  entered : list Chunk;
  left : list Chunk;
  buffer : t
}.

Fixpoint run (fuel : nat) (actions : list Action) (r : Run) : option Run :=
  match actions with
  | [] => Some r
  | a :: rest =>
      match act fuel a (buffer r) with
      | Some b' =>
          run fuel rest
            {| entered := entered r ++ entering a (buffer r);
               left := left r ++ leaving a (buffer r);
               buffer := b' |}
      | None => None
      end
  end.

Definition begin (b : t) : Run := {| entered := []; left := []; buffer := b |}.

Definition isResume (a : Action) : bool :=
  match a with
  | Resume _ => true
  | _ => false
  end.

Definition isClear (a : Action) : bool :=
  match a with
  | Clear | Destroy => true
  | _ => false
  end.

(** No hook is registered for the flush event on the emitter of the
    buffer. The field is private and the class registers none, so this
    holds of a new buffer and stays true. *)
Definition privateEmitter (b : t) : Prop :=
  HookableEventEmitter.get buffer_flush
    (HookableEventEmitter.hookRegistrations (bufferEvent b)) = None.

End StreamBuffer.

(* ================================================================== *)
(** ** src/streaming/BufferManager.ts                                  *)
(* ================================================================== *)

Module BufferManager.
Import Js.

Record BufferManagerConfig := {
  defaultBufferConfig : BufferFlushEvent.StreamBufferConfig;
  maxBuffers : Z;
  autoCleanup : bool;
  cleanupAge : Z;
  enableMetrics : bool
}.

Record BufferInfo := {
  id : string;
  buffer : StreamBuffer.t;
  createdAt : Z;
  lastActivity : Z;
  sequenceId : option string
}.

(** [buffers] is a [Map]: entries in insertion order, one per key. *)
Record State := {
  buffers : list (string * BufferInfo);
  config : BufferManagerConfig;
  totalChunksProcessed : Z;
  totalFlushes : Z
}.

(** The [options] argument of [createBuffer]. *)
Record CreateOptions := {
  opt_config : option BufferFlushEvent.StreamBufferConfig;
  opt_sequenceId : option string;
  opt_onFlush : option StreamBuffer.FlushHandler
}.

Definition noOptions : CreateOptions :=
  {| opt_config := None; opt_sequenceId := None; opt_onFlush := None |}.

(** The configuration the constructor ends with when it is given
    [maxBuffers] and [cleanupAge] (both optional in the source). *)
Definition defaultConfig (maxBuffers cleanupAge : option Z) : BufferManagerConfig :=
  {| defaultBufferConfig := BufferFlushEvent.createDefaultBufferConfig;
     maxBuffers := default 100 maxBuffers;
     autoCleanup := true;
     cleanupAge := default (5 * 60 * 1000) cleanupAge;
     enableMetrics := true |}.

Definition create (c : BufferManagerConfig) : State :=
  {| buffers := []; config := c; totalChunksProcessed := 0; totalFlushes := 0 |}.

(** [this.buffers.has(bufferId)] *)
Definition has (bufferId : string) (m : list (string * BufferInfo)) : bool :=
  bool_decide (bufferId ∈ m.*1).

(** [this.buffers.size] *)
Definition size (m : list (string * BufferInfo)) : Z := Z.of_nat (length m).

(** [this.buffers.set(bufferId, info)] for a key that may be present. *)
Fixpoint set (bufferId : string) (info : BufferInfo)
    (m : list (string * BufferInfo)) : list (string * BufferInfo) :=
  match m with
  | [] => [(bufferId, info)]
  | (k, v) :: m' =>
      if bool_decide (k = bufferId) then (k, info) :: m'
      else (k, v) :: set bufferId info m'
  end.

Definition withBuffers (m : list (string * BufferInfo)) (st : State) : State :=
  {| buffers := m; config := config st;
     totalChunksProcessed := totalChunksProcessed st;
     totalFlushes := totalFlushes st |}.

(** The test of [cleanup] on one entry: too old, or inactive for more than
    half the cleanup age ([inactiveTime > cleanupAge / 2], compared
    exactly). *)
Definition expired (now cleanupAge : Z) (info : BufferInfo) : bool :=
  let age := now - createdAt info in
  let inactiveTime := now - lastActivity info in
  (cleanupAge <? age) || (cleanupAge <? 2 * inactiveTime).

(** [cleanup()]: every entry that passes the test is destroyed and
    deleted. The result is [removedBuffers] and [remainingBuffers]. *)
Definition cleanup (now : Z) (st : State) : (list string * Z) * State :=
  let cleanupAge := cleanupAge (config st) in
  let removed := List.filter (λ e, expired now cleanupAge e.2) (buffers st) in
  let kept := List.filter (λ e, negb (expired now cleanupAge e.2)) (buffers st) in
  ((removed.*1, size kept), withBuffers kept st).

(** [setupBufferEventListeners] calls [buffer.on('flushed', ...)]. The
    class [StreamBuffer] has no member [on] (it does not extend the event
    emitter; its emitter is the private field [bufferEvent]), so the call
    throws. *)
Definition setupBufferEventListeners (bufferId : string) (b : StreamBuffer.t)
    (st : State) : JsError + State :=
  inl (TypeError "buffer.on").

(** [createBuffer(bufferId, options)] at time [now]: what it throws or
    returns, and the manager it leaves. *)
Definition createBuffer (now : Z) (bufferId : string) (options : CreateOptions)
    (st : State) : (JsError + StreamBuffer.t) * State :=
  if has bufferId (buffers st) then (inl (AlreadyExists bufferId), st)
  else
    let checked : JsError * State + State :=
      if maxBuffers (config st) <=? size (buffers st) then
        let st1 := (cleanup now st).2 in
        if maxBuffers (config st1) <=? size (buffers st1)
        then inl (LimitReached bufferId (maxBuffers (config st1)), st1)
        else inr st1
      else inr st in
    match checked with
    | inl (e, st1) => (inl e, st1)
    | inr st1 =>
        let bufferConfig :=
          default (defaultBufferConfig (config st1)) (opt_config options) in
        let buffer :=
          StreamBuffer.create now bufferId (Some bufferConfig)
            (opt_onFlush options) in
        let bufferInfo :=
          {| id := bufferId; buffer := buffer; createdAt := now;
             lastActivity := now; sequenceId := opt_sequenceId options |} in
        let st2 := withBuffers (set bufferId bufferInfo (buffers st1)) st1 in
        match setupBufferEventListeners bufferId buffer st2 with
        | inl e => (inl e, st2)
        | inr st3 => (inr buffer, st3)
        end
    end.

(** [getBuffer(bufferId)]: a found buffer has its [lastActivity] set. *)
Fixpoint touch (now : Z) (bufferId : string) (m : list (string * BufferInfo))
  : option StreamBuffer.t * list (string * BufferInfo) :=
  match m with
  | [] => (None, [])
  | (k, v) :: m' =>
      if bool_decide (k = bufferId)
      then (Some (buffer v),
            (k, {| id := id v; buffer := buffer v; createdAt := createdAt v;
                   lastActivity := now; sequenceId := sequenceId v |}) :: m')
      else let '(r, m'') := touch now bufferId m' in (r, (k, v) :: m'')
  end.

Definition getBuffer (now : Z) (bufferId : string) (st : State)
  : option StreamBuffer.t * State :=
  let '(r, m) := touch now bufferId (buffers st) in (r, withBuffers m st).

(** [this.buffers.get(bufferId)] *)
Fixpoint get (bufferId : string) (m : list (string * BufferInfo))
  : option BufferInfo :=
  match m with
  | [] => None
  | (k, v) :: m' => if bool_decide (k = bufferId) then Some v else get bufferId m'
  end.

(** The buffer object of an entry is changed in place by the methods
    called on it; [store] records its new state in the entry. *)
Fixpoint store (bufferId : string) (b : StreamBuffer.t)
    (m : list (string * BufferInfo)) : list (string * BufferInfo) :=
  match m with
  | [] => []
  | (k, v) :: m' =>
      if bool_decide (k = bufferId)
      then (k, {| id := id v; buffer := b; createdAt := createdAt v;
                  lastActivity := lastActivity v;
                  sequenceId := sequenceId v |}) :: m'
      else (k, v) :: store bufferId b m'
  end.

(** The [options] argument and the return value of [addChunk] and
    [addChunks]. *)
Record AddOptions := {
  createIfNotExists : bool;
  bufferConfig : option BufferFlushEvent.StreamBufferConfig
}.

Record AddOutcome := {
  success : bool;
  shouldFlush : option bool;
  flushReason : option BufferFlushEvent.FlushReason;
  bufferId : option string
}.

Definition failed : AddOutcome :=
  {| success := false; shouldFlush := None; flushReason := None;
     bufferId := None |}.

Definition withChunksProcessed (n : Z) (st : State) : State :=
  {| buffers := buffers st; config := config st;
     totalChunksProcessed := n; totalFlushes := totalFlushes st |}.

(** The start of [addChunk] and [addChunks]: the buffer to add to, if
    there is one ([getBuffer], and [createBuffer] when asked for; what
    [createBuffer] throws is caught). *)
Definition route (now : Z) (bufferId : string) (options : AddOptions)
    (st : State) : option StreamBuffer.t * State :=
  match getBuffer now bufferId st with
  | (Some b, st1) => (Some b, st1)
  | (None, st1) =>
      if createIfNotExists options then
        match createBuffer now bufferId
                {| opt_config := bufferConfig options; opt_sequenceId := None;
                   opt_onFlush := None |} st1 with
        | (inr b, st2) => (Some b, st2)
        | (inl _, st2) => (None, st2)
        end
      else (None, st1)
  end.

(** [addChunk(bufferId, chunk, options)] *)
Definition addChunk (now : Z) (bufferId : string)
    (chunk : BufferFlushEvent.Chunk) (options : AddOptions) (st : State)
  : AddOutcome * State :=
  match route now bufferId options st with
  | (None, st1) => (failed, st1)
  | (Some b, st1) =>
      let '(result, b') := StreamBuffer.addChunk now chunk b in
      ({| success := true;
          shouldFlush := Some (StreamBuffer.shouldFlush result);
          flushReason := StreamBuffer.flushReason result;
          bufferId := Some bufferId |},
       withChunksProcessed (totalChunksProcessed st1 + 1)
         (withBuffers (store bufferId b' (buffers st1)) st1))
  end.

(** An entry of the result of [flushAllBuffers]. *)
Record FlushEntry := {
  entry_bufferId : string;
  entry_chunks : list BufferFlushEvent.Chunk;
  entry_error : option JsError
}.

(** The loop of [flushAllBuffers] over the entries [todo]: each buffer is
    flushed, a failure is recorded in the result and the loop goes on.
    [None]: the fuel of a flush did not suffice. *)
Fixpoint flushEach (fuel : nat) (reason : BufferFlushEvent.FlushReason)
    (now : Z) (todo : list (string * BufferInfo)) (st : State)
    (results : list FlushEntry) : option (list FlushEntry * State) :=
  match todo with
  | [] => Some (results, st)
  | (k, info) :: todo' =>
      match StreamBuffer.flush fuel reason now (buffer info) with
      | None => None
      | Some (inr cs, b') =>
          flushEach fuel reason now todo'
            {| buffers := store k b' (buffers st); config := config st;
               totalChunksProcessed := totalChunksProcessed st;
               totalFlushes := totalFlushes st + 1 |}
            (results ++ [{| entry_bufferId := k; entry_chunks := cs;
                            entry_error := None |}])
      | Some (inl e, b') =>
          flushEach fuel reason now todo'
            (withBuffers (store k b' (buffers st)) st)
            (results ++ [{| entry_bufferId := k; entry_chunks := [];
                            entry_error := Some e |}])
      end
  end.

(** [flushAllBuffers(reason)] *)
Definition flushAllBuffers (fuel : nat) (reason : BufferFlushEvent.FlushReason)
    (now : Z) (st : State) : option (list FlushEntry * State) :=
  flushEach fuel reason now (buffers st) st [].

(** The entry that [flushAllBuffers] records for a buffer whose flush
    settled as [res]. *)
Definition entryOf (k : string) (res : JsError + list BufferFlushEvent.Chunk)
  : FlushEntry :=
  match res with
  | inr cs => {| entry_bufferId := k; entry_chunks := cs; entry_error := None |}
  | inl e => {| entry_bufferId := k; entry_chunks := []; entry_error := Some e |}
  end.

Definition succeeded (entry : FlushEntry) : bool :=
  match entry_error entry with
  | None => true
  | Some _ => false
  end.

(** The keys of the map are distinct. *)
Definition distinctKeys (st : State) : Prop := NoDup (buffers st).*1.

End BufferManager.

(* ================================================================== *)
(** ** Concrete registries, buffers and managers                       *)
(* ================================================================== *)

Module Scenario.
Import Js.

(** Functions of an integrator, on string payloads: 0 appends X,
    1 appends Y, 2 throws, 3 sleeps 50 ms and returns a new payload, 6
    computes for 50 ms without a pause and returns a new payload; the
    others return nothing. None of them touches the registry. *)
Definition hooks {Op} (n : nat) (d : string) : HookRun string Op :=
  match n with
  | 0%nat => {| blocksFor := 0; settleAfter := 0;
                outcome := inr (Some (d +:+ "X")); effects := [] |}
  | 1%nat => {| blocksFor := 0; settleAfter := 0;
                outcome := inr (Some (d +:+ "Y")); effects := [] |}
  | 2%nat => {| blocksFor := 0; settleAfter := 0;
                outcome := inl (Thrown "boom"); effects := [] |}
  | 3%nat => {| blocksFor := 0; settleAfter := 50;
                outcome := inr (Some "late"); effects := [] |}
  | 6%nat => {| blocksFor := 50; settleAfter := 50;
                outcome := inr (Some "busy"); effects := [] |}
  | _ => {| blocksFor := 0; settleAfter := 0; outcome := inr None; effects := [] |}
  end.

Definition options (priority : Z) (id : string) (timeout : option Z)
  : HookManager.Options :=
  {| HookManager.opt_priority := Some priority;
     HookManager.opt_id := Some id;
     HookManager.opt_timeout := timeout |}.

(** As [hooks], but function 4 registers function 1 on the message-before
    event, with priority 70, while it runs. *)
Definition managerHooks (n : nat) (d : string) : HookRun string HookManager.Op :=
  match n with
  | 4%nat =>
      {| blocksFor := 0; settleAfter := 0; outcome := inr None;
         effects := [(0, HookManager.RegisterHook message_before
                           (HookManager.UserFn 1) (options 70 "added" None) "g")] |}
  | _ => hooks n d
  end.

(** What a dispatch of the manager did: the ids of the hooks it called,
    in order, the ids it reports as failed, and the final payload. *)
Definition managerRun (user : nat → string → HookRun string HookManager.Op)
    (st : HookManager.State) (payload : string)
  : option (list string * list string * string) :=
  (λ l, ((λ inv, HookManager.id (HookManager.called inv)) <$> HookManager.invoked l,
         HookManager.failedIds (HookManager.result l),
         HookManager.modifiedData (HookManager.result l)))
  <$> HookManager.executeHooksWithMonitoring user 10 message_before payload st.

Definition registeredIds (st : HookManager.State) : list string :=
  HookManager.id <$> HookManager.registrationsOf message_before st.

(** Two plain hooks: h1 (priority 0) appends X, h2 (priority 50)
    appends Y. *)
Definition twoHooks : HookManager.State :=
  (HookManager.registerHook message_before (HookManager.UserFn 1)
     (options 50 "h2" None) "g"
     (HookManager.registerHook message_before (HookManager.UserFn 0)
        (options 0 "h1" None) "g" (HookManager.empty 0)).2).2.

(** A one-time hook (priority 0) followed by a plain hook h2
    (priority 50). *)
Definition onceThenPlain : HookManager.State :=
  (HookManager.registerHook message_before (HookManager.UserFn 1)
     (options 50 "h2" None) "g"
     (HookManager.registerOneTimeHook message_before (HookManager.UserFn 0)
        (options 0 "once" None) "g" (HookManager.empty 0)).2).2.

(** One hook, which registers another one while it runs. *)
Definition registersMore : HookManager.State :=
  (HookManager.registerHook message_before (HookManager.UserFn 4)
     (options 10 "h4" None) "g" (HookManager.empty 0)).2.


(** A hook that computes for 50 ms without a pause, registered with the
    given timeout, followed by h2. *)
Definition busyThenPlain (timeout : Z) : HookManager.State :=
  (HookManager.registerHook message_before (HookManager.UserFn 1)
     (options 50 "h2" None) "g"
     (HookManager.registerHook message_before (HookManager.UserFn 6)
        (options 0 "busy" (Some timeout)) "g" (HookManager.empty 0)).2).2.

(** A one-time hook that appends X, alone on its event. *)
Definition onceAlone : HookManager.State :=
  (HookManager.registerOneTimeHook message_before (HookManager.UserFn 0)
     (options 0 "once" None) "g" (HookManager.empty 0)).2.

(** What a dispatch of the emitter did: the ReferenceError it rejected
    with, or the final payload; and the hook numbers it called. *)
Definition emitterRun (st : HookableEventEmitter.State) (payload : string)
  : option (JsError + string) * list nat :=
  match HookableEventEmitter.executeHooks hooks 10 message_before payload st with
  | None => (None, [])
  | Some (inl (e, l)) =>
      (Some (inl e),
       (λ inv, HookableEventEmitter.id (HookableEventEmitter.called inv))
       <$> HookableEventEmitter.invoked l)
  | Some (inr l) =>
      (Some (inr (HookableEventEmitter.currentData l)),
       (λ inv, HookableEventEmitter.id (HookableEventEmitter.called inv))
       <$> HookableEventEmitter.invoked l)
  end.

(** [on] twice on a new emitter: hook-2 with priority [p1] runs function
    [f1], hook-3 with priority [p2] runs function [f2]. *)
Definition emitterWith (f1 : nat) (p1 : Z) (f2 : nat) (p2 : Z)
  : HookableEventEmitter.State :=
  HookableEventEmitter.on message_before (HookableEventEmitter.UserFn f2) (Some p2)
    (HookableEventEmitter.on message_before (HookableEventEmitter.UserFn f1)
       (Some p1) (HookableEventEmitter.create 0)).

(** [once] then [on] on a new emitter. *)
Definition emitterOnceThenPlain : HookableEventEmitter.State :=
  HookableEventEmitter.on message_before (HookableEventEmitter.UserFn 1) (Some 50)
    (HookableEventEmitter.once message_before (HookableEventEmitter.UserFn 0)
       (Some 10) (HookableEventEmitter.create 0)).

(** Buffers. *)

Definition chunk (content : string) (index : Z) : BufferFlushEvent.Chunk :=
  {| BufferFlushEvent.id := "chunk-" +:+ content;
     BufferFlushEvent.content := content;
     BufferFlushEvent.index := index;
     BufferFlushEvent.timestamp := 0;
     BufferFlushEvent.isComplete := false;
     BufferFlushEvent.sequenceId := None |}.

Definition bufferConfig (maxSize maxTime : Z)
    (strategy : BufferFlushEvent.Strategy) : BufferFlushEvent.StreamBufferConfig :=
  {| BufferFlushEvent.maxSize := maxSize;
     BufferFlushEvent.maxTime := maxTime;
     BufferFlushEvent.strategy := strategy;
     BufferFlushEvent.enableMetrics := true |}.

(** A buffer created at time 0, without a flush handler. *)
Definition newBuffer (maxSize maxTime : Z) (strategy : BufferFlushEvent.Strategy)
  : StreamBuffer.t :=
  StreamBuffer.create 0 "stream" (Some (bufferConfig maxSize maxTime strategy)) None.

(** The buffer after [addChunk] at [now], and the hint it returned. *)
Definition add (now : Z) (content : string) (index : Z) (b : StreamBuffer.t)
  : StreamBuffer.t :=
  (StreamBuffer.addChunk now (chunk content index) b).2.

Definition hint (now : Z) (content : string) (index : Z) (b : StreamBuffer.t)
  : bool * option BufferFlushEvent.FlushReason :=
  let r := (StreamBuffer.addChunk now (chunk content index) b).1 in
  (StreamBuffer.shouldFlush r, StreamBuffer.flushReason r).

Definition contents (b : StreamBuffer.t) : list string :=
  BufferFlushEvent.content <$> StreamBuffer.chunks b.

(** The buffer after a [flush] at [now] (the buffer itself if the flush
    does not complete). *)
Definition drained (now : Z) (b : StreamBuffer.t) : StreamBuffer.t :=
  default b (snd <$> StreamBuffer.flush 1 BufferFlushEvent.Manual now b).

(** What a [flush] at [now] returns, and the contents it leaves. *)
Definition flushed (reason : BufferFlushEvent.FlushReason) (now : Z)
    (b : StreamBuffer.t) : option ((JsError + list string) * list string) :=
  match StreamBuffer.flush 1 reason now b with
  | None => None
  | Some (inl e, b') => Some (inl e, contents b')
  | Some (inr cs, b') => Some (inr (BufferFlushEvent.content <$> cs), contents b')
  end.

(** A size buffer that holds the chunks a and b. *)
Definition twoChunks : StreamBuffer.t :=
  add 2 "b" 1 (add 1 "a" 0 (newBuffer 5 100 BufferFlushEvent.Size)).

(** A hybrid buffer with maxSize 1 that was paused right after its first
    chunk: the flush that the chunk asked for has not run yet. *)
Definition pausedBuffer : StreamBuffer.t :=
  StreamBuffer.pause (add 10 "a" 0 (newBuffer 1 100 BufferFlushEvent.Hybrid)).

(** A buffer whose flush handler fails after 5 ms. *)
Definition failingHandler : StreamBuffer.FlushHandler :=
  λ _, (5, inl (Thrown "sink down")).

Definition bufferWithFailingHandler : StreamBuffer.t :=
  StreamBuffer.create 0 "stream" (Some (bufferConfig 3 1000 BufferFlushEvent.Size))
    (Some failingHandler).

(** A manager that holds a paused buffer under the id p. *)
Definition holdsPaused : BufferManager.State :=
  BufferManager.withBuffers
    [("p"%string,
      {| BufferManager.id := "p";
         BufferManager.buffer := pausedBuffer;
         BufferManager.createdAt := 0;
         BufferManager.lastActivity := 10;
         BufferManager.sequenceId := None |})]
    (BufferManager.create (BufferManager.defaultConfig None None)).

(** A manager with two buffers that hold one chunk each; the flush
    handler of the first one fails. *)
Definition failingAndPlain : BufferManager.State :=
  BufferManager.withBuffers
    [("bad"%string,
      {| BufferManager.id := "bad";
         BufferManager.buffer :=
           (StreamBuffer.addChunk 1 (chunk "a" 0) bufferWithFailingHandler).2;
         BufferManager.createdAt := 0;
         BufferManager.lastActivity := 1;
         BufferManager.sequenceId := None |});
     ("good"%string,
      {| BufferManager.id := "good";
         BufferManager.buffer := add 2 "b" 0 (newBuffer 5 100 BufferFlushEvent.Size);
         BufferManager.createdAt := 0;
         BufferManager.lastActivity := 2;
         BufferManager.sequenceId := None |})]
    (BufferManager.create (BufferManager.defaultConfig None None)).

(** Managers: at most one buffer, cleanup age 300000 ms; the buffer
    first is created at time 0. *)
Definition oneSlot : BufferManager.State :=
  (BufferManager.createBuffer 0 "first" BufferManager.noOptions
     (BufferManager.create (BufferManager.defaultConfig (Some 1) (Some 300000)))).2.

(** What [createBuffer] for the id second, at [now], throws, and the ids
    the manager holds afterwards. *)
Definition secondCreate (now : Z) (st : BufferManager.State)
  : option JsError * list string :=
  let r := BufferManager.createBuffer now "second" BufferManager.noOptions st in
  (match r.1 with inl e => Some e | inr _ => None end,
   (BufferManager.buffers r.2).*1).

End Scenario.

(* ================================================================== *)
(** * Properties                                                       *)
(* ================================================================== *)

(** ** Loops and sorting *)

Section LoopFacts.

Context {S A E : Type}.
Variable arr : S → list A.
Variable body : A → S → E + S.

(** A property that every iteration keeps holds when the loop ends. *)
Lemma forOf_invariant (P : S → Prop) :
  (∀ x s s', P s → x ∈ arr s → body x s = inr s' → P s') →
  ∀ fuel i s s', P s → Js.forOf fuel arr body i s = Some (inr s') → P s'.
Proof.
  intros Hstep fuel.
  induction fuel as [|fuel IH]; intros i s s' Hs Hrun; simpl in Hrun; [done|].
  destruct (arr s !! i) as [x|] eqn:Hx; [|by simplify_eq].
  destruct (body x s) as [e|s1] eqn:Hb; [done|].
  eapply IH; [|exact Hrun].
  eapply Hstep; [exact Hs| |exact Hb]. by eapply list_elem_of_lookup_2.
Qed.

(** When no iteration changes the array, the loop is the loop over the
    array as it was at the start, and it ends. *)
Lemma forOf_fixed (P : S → Prop) (l : list A) :
  (∀ x s s', P s → x ∈ l → body x s = inr s' → P s') →
  (∀ s, P s → arr s = l) →
  ∀ fuel i s, P s → (length l - i < fuel)%nat →
    Js.forOf fuel arr body i s = Some (Js.forEach body (drop i l) s).
Proof.
  intros Hstep Harr fuel.
  induction fuel as [|fuel IH]; intros i s Hs Hfuel; [lia|].
  simpl. rewrite (Harr s Hs).
  destruct (l !! i) as [x|] eqn:Hx.
  - rewrite (drop_S _ _ _ Hx). simpl.
    destruct (body x s) as [e|s1] eqn:Hb; [done|].
    apply IH.
    + eapply Hstep; [exact Hs| |exact Hb]. by eapply list_elem_of_lookup_2.
    + apply lookup_lt_Some in Hx. lia.
  - apply lookup_ge_None in Hx. by rewrite drop_ge.
Qed.

(** A loop whose iterations do not throw ends normally. *)
Lemma forEach_inr (P : S → Prop) (l : list A) :
  (∀ x s, x ∈ l → P s → ∃ s', body x s = inr s' ∧ P s') →
  ∀ s, P s → ∃ s', Js.forEach body l s = inr s' ∧ P s'.
Proof.
  induction l as [|x l IH]; intros Hstep s Hs; simpl; [by eauto|].
  destruct (Hstep x s) as (s1 & -> & Hs1); [by left|done|].
  apply IH; [|done]. intros y s2 Hy. apply Hstep. by right.
Qed.

(** A trace that every iteration extends by its element ends up extended
    by the whole list. *)
Lemma forEach_trace {B} (P : S → Prop) (tr : S → list B) (f : A → B)
    (l : list A) :
  (∀ x s s', x ∈ l → P s → body x s = inr s' →
     P s' ∧ tr s' = tr s ++ [f x]) →
  ∀ s s', P s → Js.forEach body l s = inr s' → tr s' = tr s ++ (f <$> l).
Proof.
  induction l as [|x l IH]; intros Hstep s s' Hs Hrun; simpl in *.
  - simplify_eq. by rewrite app_nil_r.
  - destruct (body x s) as [e|s1] eqn:Hb; [done|].
    destruct (Hstep x s s1) as [Hs1 Htr]; [by left|done|done|].
    rewrite (IH (λ y s2 s3 Hy, Hstep y s2 s3 (list_elem_of_further _ _ _ Hy))
               _ _ Hs1 Hrun).
    by rewrite Htr, <- app_assoc.
Qed.

End LoopFacts.

Section SortFacts.

Context {A : Type}.
Variable key : A → Z.

Lemma insertSorted_Forall (P : A → Prop) x l :
  P x → Forall P l → Forall P (Js.insertSorted key x l).
Proof.
  intros Hx Hl. induction Hl as [|y l Hy Hl IH]; simpl.
  - by constructor.
  - destruct (key x <=? key y); repeat constructor; done.
Qed.

Lemma insertSorted_sorted x l :
  StronglySorted (λ a b, key a ≤ key b) l →
  StronglySorted (λ a b, key a ≤ key b) (Js.insertSorted key x l).
Proof.
  induction 1 as [|y l Hl IH Hy]; simpl.
  - repeat constructor.
  - destruct (key x <=? key y) eqn:Hxy.
    + apply Z.leb_le in Hxy. constructor; [by constructor|].
      constructor; [done|].
      eapply Forall_impl; [exact Hy|]. simpl. intros; lia.
    + apply Z.leb_gt in Hxy. constructor; [done|].
      apply insertSorted_Forall; [lia|done].
Qed.

(** The array is in non-decreasing order of the key after [sort]. *)
Lemma sortBy_sorted l : StronglySorted (λ a b, key a ≤ key b) (Js.sortBy key l).
Proof.
  induction l as [|x l IH]; simpl; [constructor|].
  by apply insertSorted_sorted.
Qed.

Lemma insertSorted_filter p x l :
  filter (λ a, key a = p) (Js.insertSorted key x l)
  = filter (λ a, key a = p) (x :: l).
Proof.
  induction l as [|y l IH]; simpl; [done|].
  destruct (key x <=? key y) eqn:Hxy; [done|].
  apply Z.leb_gt in Hxy.
  rewrite filter_cons, IH, !filter_cons.
  repeat case_decide; try done; lia.
Qed.

(** [sort] is stable: elements with the same key keep their order. *)
Lemma sortBy_stable p l :
  filter (λ a, key a = p) (Js.sortBy key l) = filter (λ a, key a = p) l.
Proof.
  induction l as [|x l IH]; simpl; [done|].
  unfold Js.sortBy in *. simpl.
  by rewrite insertSorted_filter, !filter_cons, IH.
Qed.

Lemma sortBy_length l : length (Js.sortBy key l) = length l.
Proof.
  induction l as [|x l IH]; simpl; [done|].
  rewrite <- IH. unfold Js.sortBy. simpl.
  generalize (foldr (Js.insertSorted key) [] l). intros m.
  induction m as [|y m IHm]; simpl; [done|].
  destruct (key x <=? key y); simpl; [done|]. by rewrite IHm.
Qed.

End SortFacts.

(** ** HookManager: one iteration of the dispatch loop *)

Section HookManagerFacts.

Import Js HookManager.

Context {Payload : Type}.
Variable user : nat → Payload → HookRun Payload Op.

Lemma advance_nothing_pending strict t st :
  pending st = [] →
  advance strict t st
  = {| hookRegistrations := hookRegistrations st; clock := t; pending := [] |}.
Proof. intros Hp. unfold advance. by rewrite Hp. Qed.

(** A call that performs no registry operation, made when none is
    pending, leaves the registrations alone. *)
Lemma invoke_undisturbed r d st :
  pending st = [] → effects (call user (hook r) d) = [] →
  hookRegistrations (invoke user r d st).2 = hookRegistrations st
  ∧ pending (invoke user r d st).2 = [].
Proof.
  intros Hp He. unfold invoke, executeWithTimeout, awaitCall.
  rewrite He. unfold schedule. cbn [foldl].
  repeat case_match; cbn [snd]; by rewrite advance_nothing_pending.
Qed.


(** A hook that settles without giving control back to the event loop is
    not timed out, however long it has kept the thread. *)
Lemma invoke_not_preempted r d st :
  settleAfter (call user (hook r) d) ≤ blocksFor (call user (hook r) d) →
  (invoke user r d st).1 = outcome (call user (hook r) d).
Proof.
  intros Hbusy. unfold invoke, executeWithTimeout, awaitCall.
  rewrite (proj2 (Z.leb_le _ _) Hbusy). by repeat case_match.
Qed.

(** What a call settles as is the outcome of the hook on the payload it
    is given, or the timeout error of its registration. *)
Lemma invoke_answers r d st :
  answered user
    {| called := r; input := d; settled := (invoke user r d st).1 |}.
Proof.
  unfold answered, invoke, executeWithTimeout, awaitCall. simpl.
  destruct (timeout r) as [t|]; [|done].
  case_bool_decide as Ht; [split; [by intros [? _]|done]|].
  destruct (settleAfter _ <=? blocksFor _) eqn:Hb; simpl.
  { apply Z.leb_le in Hb. split; [intros (_ & ? & _); lia|done]. }
  destruct (settleAfter _ <? timerDelay t) eqn:Hd; simpl.
  { apply Z.ltb_lt in Hd. split; [intros (_ & _ & ?); lia|done]. }
  apply Z.leb_gt in Hb. apply Z.ltb_ge in Hd.
  split; [done|]. intros Hn. by destruct Hn.
Qed.

(** The outcome of a call does not depend on the state of the manager. *)
Lemma invoke_outcome r d st st' :
  (invoke user r d st).1 = (invoke user r d st').1.
Proof.
  unfold invoke, executeWithTimeout, awaitCall. repeat case_match; done.
Qed.

(** An iteration never throws; this is what it does to the loop
    variables. *)
Lemma iteration_inr event r l :
  ∃ l', iteration user event r l = inr l'
    ∧ manager l' = (invoke user r (data l) (manager l)).2
    ∧ data l' = carried (data l) (invoke user r (data l) (manager l)).1
    ∧ invoked l' = invoked l ++
        [{| called := r; input := data l;
            settled := (invoke user r (data l) (manager l)).1 |}].
Proof.
  unfold iteration.
  destruct (invoke user r (data l) (manager l)) as [[e|v] st]; simpl;
    eexists; (split; [reflexivity|]); simpl; done.
Qed.

Lemma chained_snoc (p : Payload) tr inv :
  chained p (tr ++ [inv]) ↔ chained p tr ∧ input inv = replay p tr.
Proof.
  revert p. induction tr as [|x tr IH]; intros p; simpl.
  - tauto.
  - rewrite IH. unfold replay. simpl. tauto.
Qed.

Lemma replay_snoc (p : Payload) tr inv :
  replay p (tr ++ [inv]) = carried (replay p tr) (settled inv).
Proof. unfold replay. by rewrite foldl_app. Qed.



End HookManagerFacts.

(** ** HookManager: a whole dispatch *)

Section HookManagerDispatch.

Import Js HookManager.

Context {Payload : Type}.
Variable user : nat → Payload → HookRun Payload Op.

Lemma start_consistent event payload st :
  consistent user payload (start event payload st).
Proof. repeat split; simpl; constructor. Qed.

Lemma iteration_consistent event payload r l l' :
  consistent user payload l → iteration user event r l = inr l' →
  consistent user payload l'.
Proof.
  intros (Hchain & Hdata & Hmod & Herr & Hok & Hset) Hit.
  unfold iteration in Hit.
  destruct (invoke user r (data l) (manager l)) as [settled st] eqn:Hinv.
  assert (settled = (invoke user r (data l) (manager l)).1) as Hs
    by (by rewrite Hinv).
  unfold consistent.
  destruct settled as [e|v]; simplify_eq; simpl;
    rewrite chained_snoc, replay_snoc, !omap_app, Forall_app, Forall_singleton;
    simpl; unfold failureOf, successOf; simpl.
  - rewrite fmap_app, Herr, app_nil_r. simpl.
    repeat split; try done. by eexists.
  - rewrite fmap_app, Hok, app_nil_r. simpl.
    repeat split; try done; [by destruct v|by destruct v; simpl; congruence|by eexists].
Qed.

Lemma finish_consistent payload t l :
  consistent user payload l → consistent user payload (finish t l).
Proof. intros H. exact H. Qed.

(** Every dispatch that returns reports exactly the calls it made. *)
Lemma dispatch_consistent fuel event payload st l :
  executeHooksWithMonitoring user fuel event payload st = Some l →
  consistent user payload l.
Proof.
  unfold executeHooksWithMonitoring. intros Hrun.
  destruct (forOf _ _ _ _ _) as [[e|l0]|] eqn:Hloop; simplify_eq.
  apply finish_consistent.
  eapply (forOf_invariant _ _ (consistent user payload)); [| |exact Hloop].
  - intros x s s' Hs _ Hb. by eapply iteration_consistent.
  - apply start_consistent.
Qed.

(** What the dispatcher got back from each call is what the hook did. *)
Lemma dispatch_answered fuel event payload st l :
  executeHooksWithMonitoring user fuel event payload st = Some l →
  Forall (answered user) (invoked l).
Proof.
  intros Hrun.
  destruct (dispatch_consistent _ _ _ _ _ Hrun) as (_ & _ & _ & _ & _ & Hall).
  eapply Forall_impl; [exact Hall|]. intros [r d v] [st' Hs].
  simpl in Hs. subst v. apply invoke_answers.
Qed.



(** A dispatch during which nothing touches the registry ends, and calls
    the hooks registered at its start, each once, in the order of the
    array. *)
Lemma dispatch_undisturbed fuel event payload st :
  undisturbed user event st →
  (length (registrationsOf event st) < fuel)%nat →
  ∃ l, executeHooksWithMonitoring user fuel event payload st = Some l
    ∧ called <$> invoked l = registrationsOf event st
    ∧ hookRegistrations (manager l) = hookRegistrations st.
Proof.
  intros [Hpending Hquiet] Hfuel.
  set (P := λ l : @Loop Payload, hookRegistrations (manager l) = hookRegistrations st
                        ∧ pending (manager l) = []).
  assert (∀ x s, x ∈ registrationsOf event st → P s →
            ∃ s', iteration user event x s = inr s' ∧ P s') as Hstep.
  { intros x s Hx [Hregs Hp].
    destruct (iteration_inr user event x s) as (s' & Hit & Hm & _).
    exists s'. split; [done|]. unfold P. rewrite Hm.
    destruct (invoke_undisturbed user x (data s) (manager s)) as [H1 H2]; [done|by apply Hquiet|].
    by rewrite H1, H2. }
  assert (P (start event payload st)) as Hstart by done.
  unfold executeHooksWithMonitoring.
  rewrite (forOf_fixed _ _ P (registrationsOf event st)); try done; cycle 1.
  - intros x s s' Hs Hx Hb.
    destruct (Hstep x s Hx Hs) as (s1 & Hb1 & Hs1). congruence.
  - intros s [Hregs _]. unfold registrationsOf. by rewrite Hregs.
  - simpl. lia.
  - rewrite drop_0.
    destruct (forEach_inr (iteration user event) P _ Hstep _ Hstart)
      as (l & Hl & Hregs & _).
    rewrite Hl. eexists. split; [done|]. simpl. split; [|done].
    assert (∀ x s s', iteration user event x s = inr s' →
              called <$> invoked s' = (called <$> invoked s) ++ [x]) as Htrace.
    { intros x s s' Hb.
      destruct (iteration_inr user event x s) as (s1 & Hb1 & _ & _ & Hinv).
      assert (s1 = s') as -> by congruence.
      by rewrite Hinv, fmap_app. }
    rewrite (forEach_trace (iteration user event) (λ _, True)
               (λ l, called <$> invoked l) (λ x, x) (registrationsOf event st)
               (λ x s s' _ _ Hb, conj I (Htrace x s s' Hb)) _ _ I Hl).
    simpl. by rewrite list_fmap_id.
Qed.

End HookManagerDispatch.

(** ** HookableEventEmitter: a whole dispatch *)

Section EmitterDispatch.

Import Js HookableEventEmitter.

Context {Payload : Type}.
Variable user : nat → Payload → HookRun Payload Op.

Lemma emitter_awaitCall_undisturbed f d st :
  pending st = [] → effects (callWith user (fired st) f d) = [] →
  awaitCall user f d st
  = (outcome (callWith user (fired st) f d),
     {| hookRegistrations := hookRegistrations st;
        nextHookId := nextHookId st;
        fired := firing (fired st) f ++ fired st;
        clock := clock st + settleAfter (callWith user (fired st) f d);
        pending := [] |}).
Proof.
  intros Hp He. unfold awaitCall, advance. rewrite He. unfold schedule.
  cbn [foldl pending]. by rewrite Hp.
Qed.

(** An iteration whose hook fails leaves the loop with the ReferenceError
    of the [catch] block, whatever the hook threw. *)
Lemma emitter_iteration_failure r l e :
  outcome (callWith user (fired (emitter l)) (hook r) (currentData l)) = inl e →
  ∃ l', iteration user r l = inl (ReferenceError "hookStartTime", l').
Proof.
  intros Hout. unfold iteration, awaitCall. rewrite Hout. by eexists.
Qed.

(** A failure of a call is a failure of the function that the wrappers
    are around. *)
Lemma callWith_failure fired f d e :
  outcome (callWith user fired f d) = inl e → outcome (call user f d) = inl e.
Proof.
  unfold call. induction f as [n|n ev f IH|n ev f IH|]; simpl; try done.
  destruct (bool_decide (n ∈ fired)); [done|].
  destruct (bool_decide (n ∈ [])) eqn:Hin; [|done].
  apply bool_decide_eq_true_1 in Hin. by apply not_elem_of_nil in Hin.
Qed.

Lemma emitter_replay_snoc (p : Payload) tr inv :
  replay p (tr ++ [inv])
  = match settled inv with
    | inr (Some v) => v
    | _ => replay p tr
    end.
Proof. unfold replay. by rewrite foldl_app. Qed.

Lemma emitter_chained_snoc (p : Payload) tr inv :
  chained p (tr ++ [inv]) ↔ chained p tr ∧ input inv = replay p tr.
Proof.
  revert p. induction tr as [|x tr IH]; intros p; simpl.
  - tauto.
  - rewrite IH. unfold replay. simpl. tauto.
Qed.

(** A dispatch during which nothing touches the registry and no hook
    fails ends, and calls the hooks registered at its start, each once, in
    the order of the array, each with the payload that the hooks before it
    left. *)
Lemma emitter_dispatch_undisturbed fuel event payload st :
  undisturbed user event st → unfailing user event st →
  (length (registrationsOf event st) < fuel)%nat →
  ∃ l, executeHooks user fuel event payload st = Some (inr l)
    ∧ called <$> invoked l = registrationsOf event st
    ∧ hookRegistrations (emitter l) = hookRegistrations st
    ∧ Forall (answered user) (invoked l)
    ∧ chained payload (invoked l).
Proof.
  intros [Hpending Hquiet] Hok Hfuel.
  set (begin := {| emitter := st; currentData := payload; invoked := [] |}).
  set (P := λ l : @Loop Payload,
              hookRegistrations (emitter l) = hookRegistrations st
              ∧ pending (emitter l) = []
              ∧ fired st ⊆ fired (emitter l)
              ∧ Forall (answered user) (invoked l)
              ∧ chained payload (invoked l)
              ∧ currentData l = replay payload (invoked l)).
  assert (∀ x s, x ∈ registrationsOf event st → P s →
            ∃ s', iteration user x s = inr s' ∧ P s'
              ∧ called <$> invoked s' = (called <$> invoked s) ++ [x]) as Hstep.
  { intros x s Hx (Hregs & Hp & Hfired & Hans & Hchain & Hdata).
    unfold iteration.
    rewrite emitter_awaitCall_undisturbed by (done || by apply Hquiet).
    destruct (Hok (fired (emitter s)) x (currentData s) Hfired Hx) as [v Hv].
    rewrite Hv.
    eexists. split; [done|]. simpl. split; [|by rewrite fmap_app].
    split; [done|]. split; [done|]. split; [|split; [|split]].
    - intros n Hn. apply elem_of_app. right. by apply Hfired.
    - apply Forall_app. split; [done|]. constructor; [|constructor].
      exists (fired (emitter s)). simpl. by rewrite Hv.
    - by apply emitter_chained_snoc.
    - cbn [currentData invoked]. rewrite emitter_replay_snoc. simpl.
      rewrite <- Hdata. by destruct v. }
  assert (P begin) as Hstart by (repeat split; try done; constructor).
  assert (∃ l, forOf fuel
                 (λ l, default [] (get event (hookRegistrations (emitter l))))
                 (iteration user) 0%nat begin = Some (inr l)
               ∧ called <$> invoked l = registrationsOf event st
               ∧ hookRegistrations (emitter l) = hookRegistrations st
               ∧ Forall (answered user) (invoked l)
               ∧ chained payload (invoked l)) as Hloop.
  { rewrite (forOf_fixed _ _ P (registrationsOf event st)); try done; cycle 1.
    - intros x s s' Hs Hx Hb.
      destruct (Hstep x s Hx Hs) as (s1 & Hb1 & Hs1 & _). congruence.
    - intros s [Hregs _]. unfold registrationsOf. by rewrite Hregs.
    - lia.
    - rewrite drop_0.
      destruct (forEach_inr (iteration user) P (registrationsOf event st))
        with (s := begin) as (l & Hl & Hregs & _ & _ & Hans & Hchain & _);
        [|done|].
      { intros x s Hx Hs. destruct (Hstep x s Hx Hs) as (s' & ? & ? & _). eauto. }
      rewrite Hl. eexists. split; [done|]. split; [|done].
      rewrite (forEach_trace (iteration user) P
                 (λ l, called <$> invoked l) (λ x, x) (registrationsOf event st))
        with (s := begin) (s' := l); [by rewrite list_fmap_id| |done|done].
      intros x s s' Hx Hs Hb.
      destruct (Hstep x s Hx Hs) as (s1 & Hb1 & Hs1 & Hinv).
      assert (s1 = s') as <- by congruence. done. }
  unfold executeHooks. fold begin.
  destruct (get event (hookRegistrations st)) as [[|r rs]|] eqn:Hget;
    [| exact Hloop |].
  - exists begin. unfold registrationsOf. rewrite Hget.
    repeat split; first [done | constructor].
  - exists begin. unfold registrationsOf. rewrite Hget.
    repeat split; first [done | constructor].
Qed.

End EmitterDispatch.

(** ** Claims about the hook engines *)

Section HookClaims.

Import Js.

(** C1, as the code has it. When nothing touches the registry during a
    dispatch, the dispatch ends and has called exactly the hooks that were
    registered at its start, each once, in the order of the array: what
    it got back from each call is what that hook did with the payload it
    was passed (or, with the manager, the timeout error of the
    registration), each hook was passed the payload that the hooks before
    it left, and the array is as before. This holds for
    [HookManager.executeHooksWithMonitoring], and for
    [HookableEventEmitter.executeHooks] when no hook fails. *)
Theorem dispatch_calls_registered_hooks_when_registry_untouched :
  (∀ (Payload : Type) (user : nat → Payload → HookRun Payload HookManager.Op)
     fuel event payload st,
     HookManager.undisturbed user event st →
     (length (HookManager.registrationsOf event st) < fuel)%nat →
     ∃ l, HookManager.executeHooksWithMonitoring user fuel event payload st = Some l
       ∧ HookManager.called <$> HookManager.invoked l
         = HookManager.registrationsOf event st
       ∧ Forall (HookManager.answered user) (HookManager.invoked l)
       ∧ HookManager.chained payload (HookManager.invoked l)
       ∧ HookManager.registrationsOf event (HookManager.manager l)
         = HookManager.registrationsOf event st)
  ∧
  (∀ (Payload : Type)
     (user : nat → Payload → HookRun Payload HookableEventEmitter.Op)
     fuel event payload st,
     HookableEventEmitter.undisturbed user event st →
     HookableEventEmitter.unfailing user event st →
     (length (HookableEventEmitter.registrationsOf event st) < fuel)%nat →
     ∃ l, HookableEventEmitter.executeHooks user fuel event payload st
          = Some (inr l)
       ∧ HookableEventEmitter.called <$> HookableEventEmitter.invoked l
         = HookableEventEmitter.registrationsOf event st
       ∧ Forall (HookableEventEmitter.answered user)
           (HookableEventEmitter.invoked l)
       ∧ HookableEventEmitter.chained payload (HookableEventEmitter.invoked l)
       ∧ HookableEventEmitter.registrationsOf event (HookableEventEmitter.emitter l)
         = HookableEventEmitter.registrationsOf event st).
Proof.
  split.
  - intros Payload user fuel event payload st Hu Hfuel.
    destruct (dispatch_undisturbed user fuel event payload st Hu Hfuel)
      as (l & Hrun & Hcalled & Hregs).
    exists l. split; [done|]. split; [done|].
    split; [by eapply dispatch_answered|].
    split; [by destruct (dispatch_consistent user _ _ _ _ _ Hrun)|].
    unfold HookManager.registrationsOf. by rewrite Hregs.
  - intros Payload user fuel event payload st Hu Hok Hfuel.
    destruct (emitter_dispatch_undisturbed user fuel event payload st Hu Hok Hfuel)
      as (l & Hrun & Hcalled & Hregs & Hans & Hchain).
    exists l. repeat split; try done.
    unfold HookableEventEmitter.registrationsOf. by rewrite Hregs.
Qed.

Lemma twoHooks_undisturbed :
  HookManager.undisturbed Scenario.hooks message_before Scenario.twoHooks.
Proof.
  split; [done|]. intros r d Hr.
  vm_compute in Hr.
  apply list_elem_of_In in Hr. simpl in Hr.
  destruct Hr as [<-|[<-|[]]]; reflexivity.
Qed.

Lemma emitterWith_undisturbed :
  HookableEventEmitter.undisturbed Scenario.hooks message_before
    (Scenario.emitterWith 0 10 1 50)
  ∧ HookableEventEmitter.unfailing Scenario.hooks message_before
      (Scenario.emitterWith 0 10 1 50).
Proof.
  split; [split; [done|]|]; intros fired' r d _ Hr; vm_compute in Hr;
    apply list_elem_of_In in Hr; simpl in Hr;
    destruct Hr as [<-|[<-|[]]]; simpl; eauto.
Qed.

Lemma dispatch_calls_registered_hooks_when_registry_untouched_witness :
  (∃ l, HookManager.executeHooksWithMonitoring Scenario.hooks 3 message_before
          ""%string Scenario.twoHooks = Some l
     ∧ HookManager.called <$> HookManager.invoked l
       = HookManager.registrationsOf message_before Scenario.twoHooks
     ∧ Forall (HookManager.answered Scenario.hooks) (HookManager.invoked l)
     ∧ HookManager.chained ""%string (HookManager.invoked l)
     ∧ HookManager.registrationsOf message_before (HookManager.manager l)
       = HookManager.registrationsOf message_before Scenario.twoHooks)
  ∧
  (∃ l, HookableEventEmitter.executeHooks Scenario.hooks 3 message_before
          ""%string (Scenario.emitterWith 0 10 1 50) = Some (inr l)
     ∧ HookableEventEmitter.called <$> HookableEventEmitter.invoked l
       = HookableEventEmitter.registrationsOf message_before
           (Scenario.emitterWith 0 10 1 50)
     ∧ Forall (HookableEventEmitter.answered Scenario.hooks)
         (HookableEventEmitter.invoked l)
     ∧ HookableEventEmitter.chained ""%string (HookableEventEmitter.invoked l)
     ∧ HookableEventEmitter.registrationsOf message_before
         (HookableEventEmitter.emitter l)
       = HookableEventEmitter.registrationsOf message_before
           (Scenario.emitterWith 0 10 1 50)).
Proof.
  split.
  - apply (proj1 dispatch_calls_registered_hooks_when_registry_untouched).
    + exact twoHooks_undisturbed.
    + vm_compute. lia.
  - apply (proj2 dispatch_calls_registered_hooks_when_registry_untouched).
    + exact (proj1 emitterWith_undisturbed).
    + exact (proj2 emitterWith_undisturbed).
    + vm_compute. lia.
Defined.

(** C1 as stated fails. With the manager, a one-time hook unregisters
    itself while the dispatch is in flight, and the hook registered after
    it is not called by that dispatch; and a hook registered during a
    dispatch is called by that same dispatch. *)
Lemma dispatch_is_not_over_a_snapshot :
  Scenario.registeredIds Scenario.onceThenPlain = ["once"; "h2"]%string
  ∧ Scenario.managerRun Scenario.hooks Scenario.onceThenPlain ""
    = Some (["once"]%string, [], "X"%string)
  ∧ Scenario.registeredIds Scenario.registersMore = ["h4"]%string
  ∧ Scenario.managerRun Scenario.managerHooks Scenario.registersMore ""
    = Some (["h4"; "added"]%string, [], "Y"%string).
Proof. vm_compute. repeat split. Qed.

(** The emitter does not take a snapshot either. [once] with priority 10,
    then [on] with priority 50: [once] has filed hook-2 and, through the
    base class, hook-3 with priority 100. In the dispatch, hook-2 takes
    itself out of the array, hook-4 is passed over, and hook-3 calls the
    function of the one-time hook a second time. *)
Lemma emitter_dispatch_is_not_over_a_snapshot :
  HookableEventEmitter.getHookInfo message_before Scenario.emitterOnceThenPlain
  = [(2%nat, 10); (4%nat, 50); (3%nat, 100)]
  ∧ Scenario.emitterRun Scenario.emitterOnceThenPlain ""
    = (Some (inr "XX"%string), [2%nat; 3%nat]).
Proof. vm_compute. done. Qed.

(** C4 fails in [HookableEventEmitter.executeHooks]. On a new emitter,
    hook-2 (priority 10) throws and hook-3 (priority 50) appends Y: the
    dispatch rejects with the ReferenceError of the [catch] block, and
    hook-3 is not called. *)
Theorem emitter_hook_failure_rejects_dispatch :
  HookableEventEmitter.getHookInfo message_before (Scenario.emitterWith 2 10 1 50)
  = [(2%nat, 10); (3%nat, 50)]
  ∧ Scenario.emitterRun (Scenario.emitterWith 2 10 1 50) ""
    = (Some (inl (ReferenceError "hookStartTime")), [2%nat]).
Proof. vm_compute. done. Qed.

(** C5 fails in [HookableEventEmitter.registerHook]. [on] with priority 0
    for a hook that appends X, then [on] with priority 50 for a hook that
    appends Y: the first registration is stored with priority 100, and the
    dispatch calls the second hook first. *)
Theorem emitter_priority_zero_runs_last :
  HookableEventEmitter.getHookInfo message_before (Scenario.emitterWith 0 0 1 50)
  = [(3%nat, 50); (2%nat, 100)]
  ∧ Scenario.emitterRun (Scenario.emitterWith 0 0 1 50) ""
    = (Some (inr "YX"%string), [3%nat; 2%nat]).
Proof. vm_compute. done. Qed.

End HookClaims.

(** ** HookManager: failures, timeouts, order *)

Section HookManagerClaims.

Import Js HookManager.

Context {Payload : Type}.
Variable user : nat → Payload → HookRun Payload Op.

(** [HookManager.executeHooksWithMonitoring] isolates failures. When
    nothing touches the registry during a dispatch, the dispatch returns,
    every registered hook has been called, whether or not a hook before it
    failed, and the errors of the report are exactly the failures of the
    calls, in order. *)
Theorem manager_isolates_hook_failures fuel event payload st :
  undisturbed user event st →
  (length (registrationsOf event st) < fuel)%nat →
  ∃ l, executeHooksWithMonitoring user fuel event payload st = Some l
    ∧ called <$> invoked l = registrationsOf event st
    ∧ (λ e, (error_hookId e, error e)) <$> errors (result l)
      = omap failureOf (invoked l)
    ∧ executed_hookId <$> executedHooks (result l) = omap successOf (invoked l)
    ∧ (success (result l) = true ↔ omap failureOf (invoked l) = []).
Proof.
  intros Hu Hfuel.
  destruct (dispatch_undisturbed user fuel event payload st Hu Hfuel)
    as (l & Hrun & Hcalled & _).
  exists l. split; [done|]. split; [done|].
  destruct (dispatch_consistent user _ _ _ _ _ Hrun) as (_ & _ & _ & Herr & Hok & _).
  split; [done|]. split; [done|].
  rewrite <- Herr.
  unfold executeHooksWithMonitoring in Hrun.
  destruct (forOf _ _ _ _ _) as [[e|l0]|]; simplify_eq. simpl.
  rewrite bool_decide_eq_true.
  destruct (errors (result l0)); simpl; split; done.
Qed.

Lemma get_set event regs m : get event (set event regs m) = Some regs.
Proof.
  induction m as [|[e old] m IH]; simpl.
  - by rewrite bool_decide_eq_true_2.
  - destruct (bool_decide (e = event)) eqn:He; simpl; by rewrite He.
Qed.

Lemma registrationsOf_addRegistration event r st :
  registrationsOf event (addRegistration event r st)
  = sortBy priority (registrationsOf event st ++ [r]).
Proof. unfold registrationsOf at 1, addRegistration. simpl. by rewrite get_set. Qed.

Lemma registerAll_snoc event calls c st :
  registerAll event (calls ++ [c]) st
  = addRegistration event (registrationFor c) (registerAll event calls st).
Proof. unfold registerAll. by rewrite foldl_app. Qed.

(** After any sequence of [registerHook] calls on one event of a new
    manager, the array of the event is in non-decreasing order of
    priority, and the registrations of each priority are in the order of
    the calls. *)
Lemma registerAll_sorted_stable event calls now :
  StronglySorted (λ a b, priority a ≤ priority b)
    (registrationsOf event (registerAll event calls (empty now)))
  ∧ ∀ p, filter (λ r, priority r = p)
           (registrationsOf event (registerAll event calls (empty now)))
         = filter (λ r, priority r = p) (registrationFor <$> calls).
Proof.
  induction calls as [|c calls [IHs IHf]] using rev_ind.
  - split; [constructor|done].
  - rewrite registerAll_snoc, registrationsOf_addRegistration. split.
    + apply sortBy_sorted.
    + intros p. by rewrite sortBy_stable, fmap_app, !filter_app, IHf.
Qed.

(** The part of C5 that holds: with [HookManager], a dispatch that
    follows a sequence of [registerHook] calls, and during which nothing
    touches the registry, calls the hooks in non-decreasing order of
    priority, those of equal priority in the order of their registration. *)
Theorem manager_dispatch_in_priority_order fuel event calls now payload :
  let st := registerAll event calls (empty now) in
  undisturbed user event st →
  (length calls < fuel)%nat →
  ∃ l, executeHooksWithMonitoring user fuel event payload st = Some l
    ∧ StronglySorted (λ a b, priority a ≤ priority b) (called <$> invoked l)
    ∧ ∀ p, filter (λ r, priority r = p) (called <$> invoked l)
           = filter (λ r, priority r = p) (registrationFor <$> calls).
Proof.
  intros st Hu Hfuel.
  destruct (registerAll_sorted_stable event calls now) as [Hs Hf].
  assert (length (registrationsOf event st) = length calls) as Hlen.
  { subst st. clear. induction calls as [|c calls IH] using rev_ind; [done|].
    rewrite registerAll_snoc, registrationsOf_addRegistration.
    rewrite sortBy_length, !length_app, IH. done. }
  destruct (dispatch_undisturbed user fuel event payload st Hu) as (l & Hrun & Hc & _);
    [lia|].
  exists l. by rewrite Hc.
Qed.


End HookManagerClaims.




(** Nor is a hook timed out that keeps the thread past its deadline and
    then settles without a pause. The hook busy is registered with
    timeoutMs 10 and computes for 50 ms: it is not reported as failed, and
    what it returns replaces the payload that the next hook gets. *)
Lemma busy_hook_is_not_timed_out :
  HookManager.timeout
    <$> HookManager.registrationsOf Js.message_before (Scenario.busyThenPlain 10)
  = [Some 10; None]
  ∧ Js.blocksFor (Scenario.hooks (Op:=HookManager.Op) 6 "orig") = 50
  ∧ Js.settleAfter (Scenario.hooks (Op:=HookManager.Op) 6 "orig") = 50
  ∧ Scenario.managerRun Scenario.hooks (Scenario.busyThenPlain 10) "orig"
    = Some (["busy"; "h2"]%string, [], "busyY"%string).
Proof. vm_compute. done. Qed.

(** ** StreamBuffer *)

Section StreamBufferClaims.

Import Js BufferFlushEvent StreamBuffer.

Lemma checkFlush_time now b :
  strategy (config b) = Time →
  checkFlush now b
  = if maxSize (config b) <=? Z.of_nat (length (chunks b)) then (true, Some BySize)
    else if maxTime (config b) <=? now - createdAt b then (true, Some ByTime)
    else (false, None).
Proof. intros Hs. unfold checkFlush. rewrite Hs. simpl. by repeat case_match. Qed.

Lemma checkFlush_size now b :
  strategy (config b) = Size →
  checkFlush now b
  = if maxSize (config b) <=? Z.of_nat (length (chunks b)) then (true, Some BySize)
    else (false, None).
Proof. intros Hs. unfold checkFlush. rewrite Hs. simpl. by repeat case_match. Qed.

Lemma addChunk_active now chunk b :
  isActive b = true →
  addChunk now chunk b = afterPush now (push now [chunk] b).
Proof. intros Ha. unfold addChunk. by rewrite Ha. Qed.

(** [flush] never changes [createdAt]. *)
Lemma flush_createdAt fuel reason now b r b' :
  flush fuel reason now b = Some (r, b') → createdAt b' = createdAt b.
Proof.
  unfold flush. intros H. repeat case_match; by simplify_eq.
Qed.

(** C2, as the code has it. Under the strategy time, the hint of
    [addChunk] is to flush exactly when the count after the append has
    reached maxSize (reason: size) or [now - createdAt] has reached maxTime
    (reason: time); [createdAt] is the time the buffer was constructed, and
    neither [addChunk] nor [flush] resets it. *)
Theorem time_strategy_hint now chunk b :
  isActive b = true → strategy (config b) = Time →
  let r := (addChunk now chunk b).1 in
  let n := Z.of_nat (length (chunks b)) + 1 in
  (shouldFlush r = true
   ↔ maxSize (config b) ≤ n ∨ maxTime (config b) ≤ now - createdAt b)
  ∧ flushReason r
    = (if maxSize (config b) <=? n then Some BySize
       else if maxTime (config b) <=? now - createdAt b then Some ByTime
       else None)
  ∧ createdAt (addChunk now chunk b).2 = createdAt b
  ∧ ∀ fuel reason t res b',
      flush fuel reason t b = Some (res, b') → createdAt b' = createdAt b.
Proof.
  intros Ha Hs r n. subst r n.
  rewrite addChunk_active by done. unfold afterPush.
  rewrite checkFlush_time by done. simpl.
  rewrite length_app. simpl.
  replace (Z.of_nat (length (chunks b) + 1)) with (Z.of_nat (length (chunks b)) + 1)
    by lia.
  split; [|split; [|split]].
  - destruct (maxSize (config b) <=? _) eqn:H1;
      [|destruct (maxTime (config b) <=? _) eqn:H2]; simpl;
      rewrite ?Z.leb_le, ?Z.leb_gt in *;
      (split; [intros Ht; first [discriminate Ht | lia]
              |intros [?|?]; first [done | lia]]).
  - by repeat case_match.
  - by repeat case_match.
  - intros fuel reason t res b'. apply flush_createdAt.
Qed.

Lemma time_strategy_hint_witness :
  isActive (Scenario.newBuffer 10 1000 Time) = true
  ∧ strategy (config (Scenario.newBuffer 10 1000 Time)) = Time
  ∧ (shouldFlush (addChunk 1500 (Scenario.chunk "a" 0)
                    (Scenario.newBuffer 10 1000 Time)).1 = true
     ↔ 10 ≤ 0 + 1 ∨ 1000 ≤ 1500 - 0).
Proof.
  split; [reflexivity|]. split; [reflexivity|].
  exact (proj1 (time_strategy_hint 1500 (Scenario.chunk "a" 0)
                  (Scenario.newBuffer 10 1000 Time) eq_refl eq_refl)).
Defined.

(** C2 as stated fails. A time-strategy buffer with maxSize 1 and maxTime
    1000, created at 0, signals a flush for a chunk added at 5, for the
    reason size. And a time-strategy buffer (maxSize 10, maxTime 1000)
    that is flushed empty at 1500 signals a flush for the chunk added at
    1501, whose batch is 0 ms old: its [createdAt] is still 0. *)
Lemma time_strategy_also_flushes_on_size_and_age_is_not_reset :
  Scenario.hint 5 "a" 0 (Scenario.newBuffer 1 1000 Time) = (true, Some BySize)
  ∧ Scenario.contents
      (Scenario.drained 1500 (Scenario.add 1500 "a" 0 (Scenario.newBuffer 10 1000 Time)))
    = []
  ∧ createdAt
      (Scenario.drained 1500 (Scenario.add 1500 "a" 0 (Scenario.newBuffer 10 1000 Time)))
    = 0
  ∧ Scenario.hint 1501 "b" 1
      (Scenario.drained 1500 (Scenario.add 1500 "a" 0 (Scenario.newBuffer 10 1000 Time)))
    = (true, Some ByTime).
Proof. vm_compute. done. Qed.

(** C3, as the code has it. On an active buffer, [addChunk] appends the
    chunk, counts it, sets [lastChunkTime], evaluates the flush check on
    the result, and returns the hint with the new count. It does not empty
    the chunk list itself: every chunk is still there when it returns.
    When the hint is to flush, it also hands a call of [flush], with the
    reason of the hint, to [setImmediate]; all other fields are as
    before. *)
Theorem addChunk_appends_and_schedules_flush now chunk b :
  isActive b = true →
  let r := (addChunk now chunk b).1 in
  let b' := (addChunk now chunk b).2 in
  chunks b' = chunks b ++ [chunk]
  ∧ lastChunkTime b' = now
  ∧ totalChunksAdded b' = totalChunksAdded b + 1
  ∧ (shouldFlush r, flushReason r) = checkFlush now b'
  ∧ bufferedChunks r = Z.of_nat (length (chunks b)) + 1
  ∧ immediates b'
    = immediates b ++ (if shouldFlush r
                       then match flushReason r with
                            | Some reason => [reason]
                            | None => []
                            end
                       else [])
  ∧ totalFlushes b' = totalFlushes b
  ∧ createdAt b' = createdAt b ∧ isActive b' = true
  ∧ config b' = config b ∧ flushTimeout b' = flushTimeout b
  ∧ bufferEvent b' = bufferEvent b.
Proof.
  intros Ha r b'. subst r b'.
  rewrite addChunk_active by done. unfold afterPush.
  set (pushed := push now [chunk] b).
  assert (∀ q, checkFlush now
            {| id := id pushed; config := config pushed; chunks := chunks pushed;
               createdAt := createdAt pushed; lastChunkTime := lastChunkTime pushed;
               flushTimeout := flushTimeout pushed; isActive := isActive pushed;
               bufferEvent := bufferEvent pushed; onFlush := onFlush pushed;
               totalChunksAdded := totalChunksAdded pushed;
               totalFlushes := totalFlushes pushed;
               totalProcessingTime := totalProcessingTime pushed + 0;
               immediates := q |}
          = checkFlush now pushed) as Hcheck by done.
  cbn [fst snd chunks lastChunkTime totalChunksAdded shouldFlush flushReason
       bufferedChunks immediates totalFlushes createdAt isActive config
       flushTimeout bufferEvent].
  rewrite Hcheck.
  destruct (checkFlush now pushed) as [[|] [reason|]] eqn:Hc; subst pushed; simpl;
    rewrite ?app_nil_r, ?length_app; simpl;
    repeat split; try done; lia.
Qed.

Lemma addChunk_appends_and_schedules_flush_witness :
  isActive (Scenario.newBuffer 1 1000 Size) = true
  ∧ chunks (addChunk 0 (Scenario.chunk "a" 0) (Scenario.newBuffer 1 1000 Size)).2
    = chunks (Scenario.newBuffer 1 1000 Size) ++ [Scenario.chunk "a" 0].
Proof.
  split; [reflexivity|].
  exact (proj1 (addChunk_appends_and_schedules_flush 0 (Scenario.chunk "a" 0)
                  (Scenario.newBuffer 1 1000 Size) eq_refl)).
Defined.

(** C3 as stated fails. After [addChunk] on a size-strategy buffer with
    maxSize 1, a flush is waiting in the [setImmediate] queue; when the
    event loop runs it, the chunk list is emptied, and the caller has
    called no [flush]. *)
Lemma addChunk_triggers_a_flush_on_its_own :
  immediates (Scenario.add 0 "a" 0 (Scenario.newBuffer 1 1000 Size)) = [BySize]
  ∧ Scenario.contents (Scenario.add 0 "a" 0 (Scenario.newBuffer 1 1000 Size))
    = ["a"%string]
  ∧ Scenario.contents
    <$> runImmediate 1 0 (Scenario.add 0 "a" 0 (Scenario.newBuffer 1 1000 Size))
    = Some [].
Proof. vm_compute. done. Qed.

End StreamBufferClaims.

Section StreamBufferFlush.

Import Js BufferFlushEvent StreamBuffer.

Lemma create_privateEmitter now bufferId config handler :
  privateEmitter (create now bufferId config handler).
Proof. reflexivity. Qed.

Lemma addChunk_privateEmitter now chunk b :
  privateEmitter b → privateEmitter (addChunk now chunk b).2.
Proof. unfold addChunk, afterPush. by case_match. Qed.

(** The flush processing of a buffer without handler returns the chunks
    it is given: no hook is registered on the private emitter. *)
Lemma processBufferFlush_private fuel now bufferId cs reason em :
  HookableEventEmitter.get buffer_flush
    (HookableEventEmitter.hookRegistrations em) = None →
  processBufferFlush noHooks fuel now bufferId cs reason em
  = Some (inr cs, withClock now em).
Proof.
  intros Hget. unfold processBufferFlush, HookableEventEmitter.executeHooks.
  simpl. by rewrite Hget.
Qed.

(** [flush] on an empty or inactive buffer returns the empty list and
    changes nothing. *)
Lemma flush_noop fuel reason now b :
  isActive b = false ∨ chunks b = [] →
  flush fuel reason now b = Some (inr [], b).
Proof.
  intros [Ha|Hc]; unfold flush.
  - by rewrite Ha.
  - rewrite Hc. simpl. by rewrite orb_true_r.
Qed.

(** C7, as the code has it: the buffer must be active. A call of [flush]
    on an active buffer that holds chunks completes; the chunk list is
    empty afterwards, whether the flush processing succeeded or failed; a
    next [flush] returns the empty list and changes nothing; after a
    failure nothing is scheduled to run the flush again and the flush is
    not counted. *)
Theorem flush_empties_active_buffer fuel reason now b :
  isActive b = true → chunks b ≠ [] → privateEmitter b →
  ∃ res b', flush fuel reason now b = Some (res, b')
    ∧ chunks b' = []
    ∧ (∀ fuel' reason' now', flush fuel' reason' now' b' = Some (inr [], b'))
    ∧ immediates b' = immediates b
    ∧ flushTimeout b' = flushTimeout b
    ∧ totalFlushes b'
      = (if res is inl _ then totalFlushes b else totalFlushes b + 1)
    ∧ privateEmitter b'.
Proof.
  intros Ha Hc Hp. unfold flush. rewrite Ha. simpl.
  rewrite bool_decide_eq_false_2 by (by destruct (chunks b)).
  destruct (onFlush b) as [handler|].
  - destruct (handler _) as [elapsed [e|cs]]; eexists _, _;
      (split; [reflexivity|]); repeat split; try done;
      intros; by apply flush_noop; right.
  - rewrite processBufferFlush_private by done.
    eexists _, _. split; [reflexivity|]. repeat split; try done.
    intros; by apply flush_noop; right.
Qed.

Lemma flush_empties_active_buffer_witness :
  ∃ res b',
    flush 1 Manual 4 (Scenario.add 1 "a" 0 Scenario.bufferWithFailingHandler)
    = Some (res, b')
    ∧ chunks b' = []
    ∧ (∀ fuel' reason' now', flush fuel' reason' now' b' = Some (inr [], b'))
    ∧ immediates b'
      = immediates (Scenario.add 1 "a" 0 Scenario.bufferWithFailingHandler)
    ∧ flushTimeout b'
      = flushTimeout (Scenario.add 1 "a" 0 Scenario.bufferWithFailingHandler)
    ∧ totalFlushes b'
      = (if res is inl _
         then totalFlushes (Scenario.add 1 "a" 0 Scenario.bufferWithFailingHandler)
         else totalFlushes (Scenario.add 1 "a" 0 Scenario.bufferWithFailingHandler) + 1)
    ∧ privateEmitter b'.
Proof.
  apply (flush_empties_active_buffer 1 Manual 4
           (Scenario.add 1 "a" 0 Scenario.bufferWithFailingHandler)).
  - reflexivity.
  - vm_compute. discriminate.
  - reflexivity.
Defined.

(** C7 as stated fails for a paused buffer. A buffer that holds the chunk
    a and is paused keeps it through a completed [flush], which returns the
    empty list. *)
Lemma flush_on_paused_buffer_keeps_chunks :
  Scenario.contents (pause (Scenario.add 0 "a" 0 (Scenario.newBuffer 3 1000 Size)))
  = ["a"%string]
  ∧ Scenario.flushed Manual 1
      (pause (Scenario.add 0 "a" 0 (Scenario.newBuffer 3 1000 Size)))
    = Some (inr [], ["a"%string]).
Proof. vm_compute. done. Qed.

(** C8. Under the strategy size, [addChunk] on an active buffer signals a
    flush exactly when the count after the append has reached maxSize,
    and then with the reason size. With maxSize 3, of three chunks added
    to a new buffer the third is the first to signal, and a [flush] called
    next returns the three chunks in the order they were added and leaves
    the buffer empty (the flush that the third [addChunk] handed to
    [setImmediate] then finds nothing to flush). *)
Theorem size_strategy_signals_exactly_at_maxSize :
  (∀ now chunk b,
     isActive b = true → strategy (config b) = Size →
     let r := (addChunk now chunk b).1 in
     bufferedChunks r = Z.of_nat (length (chunks (addChunk now chunk b).2))
     ∧ (shouldFlush r = true ↔ maxSize (config b) ≤ bufferedChunks r)
     ∧ flushReason r = (if shouldFlush r then Some BySize else None))
  ∧
  (∀ t0 bufferId metrics c1 c2 c3 t1 t2 t3 t4 fuel,
     let b0 := create t0 bufferId
                 (Some {| maxSize := 3; maxTime := 1000; strategy := Size;
                          enableMetrics := metrics |}) None in
     let r1 := addChunk t1 c1 b0 in
     let r2 := addChunk t2 c2 r1.2 in
     let r3 := addChunk t3 c3 r2.2 in
     shouldFlush r1.1 = false ∧ shouldFlush r2.1 = false
     ∧ shouldFlush r3.1 = true ∧ flushReason r3.1 = Some BySize
     ∧ ∃ b', flush fuel BySize t4 r3.2 = Some (inr [c1; c2; c3], b')
          ∧ chunks b' = []
          ∧ ∀ t5, chunks <$> runImmediate fuel t5 b' = Some []).
Proof.
  split.
  - intros now chunk b Ha Hs r. subst r.
    rewrite addChunk_active by done. unfold afterPush.
    rewrite checkFlush_size by done. simpl.
    rewrite length_app. simpl.
    destruct (maxSize (config b) <=? _) eqn:H1; simpl;
      rewrite ?Z.leb_le, ?Z.leb_gt in H1; repeat split; try done; lia.
  - intros. repeat split. eexists. repeat split.
Qed.

Lemma size_strategy_signals_exactly_at_maxSize_witness :
  isActive (Scenario.add 2 "b" 1 (Scenario.add 1 "a" 0 (Scenario.newBuffer 3 1000 Size)))
  = true
  ∧ strategy (config (Scenario.add 2 "b" 1
                        (Scenario.add 1 "a" 0 (Scenario.newBuffer 3 1000 Size))))
    = Size
  ∧ (shouldFlush
       (addChunk 3 (Scenario.chunk "c" 2)
          (Scenario.add 2 "b" 1
             (Scenario.add 1 "a" 0 (Scenario.newBuffer 3 1000 Size)))).1 = true
     ↔ 3 ≤ 3).
Proof.
  split; [reflexivity|]. split; [reflexivity|].
  exact (proj1 (proj2 (proj1 size_strategy_signals_exactly_at_maxSize 3
                         (Scenario.chunk "c" 2)
                         (Scenario.add 2 "b" 1
                            (Scenario.add 1 "a" 0 (Scenario.newBuffer 3 1000 Size)))
                         eq_refl eq_refl))).
Defined.

(** C10. [addChunk] and [addChunks] on a buffer that has been paused or
    destroyed, and on any inactive buffer, return
    { shouldFlush: false, bufferedChunks: 0 } and leave the buffer as it
    was, its chunk list, its counter of added chunks and its last-chunk
    time included: the chunks are dropped. *)
Theorem inactive_buffer_drops_chunks now chunk cs b b0 :
  b = pause b0 ∨ b = (destroy b0).2 ∨ isActive b = false →
  addChunk now chunk b
  = ({| shouldFlush := false; flushReason := None; bufferedChunks := 0 |}, b)
  ∧ addChunks now cs b
    = ({| shouldFlush := false; flushReason := None; bufferedChunks := 0 |}, b)
  ∧ chunks (addChunk now chunk b).2 = chunks b
  ∧ totalChunksAdded (addChunk now chunk b).2 = totalChunksAdded b
  ∧ lastChunkTime (addChunk now chunk b).2 = lastChunkTime b
  ∧ immediates (addChunk now chunk b).2 = immediates b.
Proof.
  intros H.
  assert (isActive b = false) as Ha by (by destruct H as [->|[->|?]]).
  unfold addChunk, addChunks, notAccepted. by rewrite Ha.
Qed.

Lemma inactive_buffer_drops_chunks_witness :
  addChunk 7 (Scenario.chunk "b" 1)
    (pause (Scenario.add 0 "a" 0 (Scenario.newBuffer 3 1000 Size)))
  = ({| shouldFlush := false; flushReason := None; bufferedChunks := 0 |},
     pause (Scenario.add 0 "a" 0 (Scenario.newBuffer 3 1000 Size)))
  ∧ chunks (addChunk 7 (Scenario.chunk "b" 1)
              (destroy (Scenario.add 0 "a" 0 (Scenario.newBuffer 3 1000 Size))).2).2
    = [].
Proof.
  split.
  - exact (proj1 (inactive_buffer_drops_chunks 7 (Scenario.chunk "b" 1) []
                    (pause (Scenario.add 0 "a" 0 (Scenario.newBuffer 3 1000 Size)))
                    (Scenario.add 0 "a" 0 (Scenario.newBuffer 3 1000 Size))
                    (or_introl eq_refl))).
  - exact (proj1 (proj2 (proj2
             (inactive_buffer_drops_chunks 7 (Scenario.chunk "b" 1) []
                (destroy (Scenario.add 0 "a" 0 (Scenario.newBuffer 3 1000 Size))).2
                (Scenario.add 0 "a" 0 (Scenario.newBuffer 3 1000 Size))
                (or_intror (or_introl eq_refl)))))).
Defined.

End StreamBufferFlush.

(** ** BufferManager *)

Section BufferManagerClaims.

Import Js BufferManager.

(** The eviction pass keeps exactly the entries that are neither older
    than the cleanup age nor inactive for more than half of it. *)
Lemma cleanup_keeps now st e :
  e ∈ buffers (cleanup now st).2
  ↔ e ∈ buffers st
    ∧ now - createdAt e.2 ≤ cleanupAge (config st)
    ∧ 2 * (now - lastActivity e.2) ≤ cleanupAge (config st).
Proof.
  unfold cleanup. simpl. rewrite !list_elem_of_In, filter_In.
  unfold expired. rewrite negb_true_iff, orb_false_iff, !Z.ltb_ge. done.
Qed.

Lemma withBuffers_same st : withBuffers (buffers st) st = st.
Proof. by destruct st. Qed.

Lemma has_set bufferId info m : bufferId ∈ (set bufferId info m).*1.
Proof.
  induction m as [|[k v] m IH]; simpl.
  - by left.
  - case_bool_decide; simpl; [subst; by left|by right].
Qed.

(** C9, as the code has it. [createBuffer] with an id that exists throws
    the duplicate error and changes nothing. With a new id, when the
    manager holds maxBuffers buffers or more, one eviction pass runs first;
    the pass removes the buffers created more than the cleanup age ago and
    those inactive for more than half the cleanup age, and no others; the
    capacity error is thrown exactly when the manager still holds
    maxBuffers buffers or more after the pass, and the manager is then as
    the pass left it; otherwise the new buffer is registered under the id.
    With maxBuffers 1 and one buffer held: when that buffer has been
    inactive for more than the cleanup age there is no capacity error, the
    buffer is evicted and the new one registered; when it is neither older
    than the cleanup age nor inactive for more than half of it, the
    capacity error is thrown and nothing changes. *)
Theorem createBuffer_duplicate_eviction_capacity now bufferId options st :
  (has bufferId (buffers st) = true →
     createBuffer now bufferId options st = (inl (AlreadyExists bufferId), st))
  ∧ (∀ e, e ∈ buffers (cleanup now st).2
          ↔ e ∈ buffers st
            ∧ now - createdAt e.2 ≤ cleanupAge (config st)
            ∧ 2 * (now - lastActivity e.2) ≤ cleanupAge (config st))
  ∧ (has bufferId (buffers st) = false →
       ((createBuffer now bufferId options st).1
          = inl (LimitReached bufferId (maxBuffers (config st)))
        ↔ maxBuffers (config st) ≤ size (buffers st)
          ∧ maxBuffers (config st) ≤ size (buffers (cleanup now st).2))
       ∧ ((createBuffer now bufferId options st).1
            = inl (LimitReached bufferId (maxBuffers (config st))) →
          (createBuffer now bufferId options st).2 = (cleanup now st).2)
       ∧ ((createBuffer now bufferId options st).1
            ≠ inl (LimitReached bufferId (maxBuffers (config st))) →
          bufferId ∈ (buffers (createBuffer now bufferId options st).2).*1))
  ∧ (∀ k info,
       buffers st = [(k, info)] → k ≠ bufferId →
       maxBuffers (config st) = 1 → 0 ≤ cleanupAge (config st) →
       (cleanupAge (config st) < now - lastActivity info →
          (createBuffer now bufferId options st).1 ≠ inl (LimitReached bufferId 1)
          ∧ (buffers (createBuffer now bufferId options st).2).*1 = [bufferId])
       ∧ (now - createdAt info ≤ cleanupAge (config st) →
          2 * (now - lastActivity info) ≤ cleanupAge (config st) →
          createBuffer now bufferId options st
          = (inl (LimitReached bufferId 1), st))).
Proof.
  split; [|split; [|split]].
  - intros Hdup. unfold createBuffer. by rewrite Hdup.
  - intros e. apply cleanup_keeps.
  - intros Hnew. unfold createBuffer. rewrite Hnew.
    destruct (maxBuffers (config st) <=? size (buffers st)) eqn:Hfull.
    + change (config (cleanup now st).2) with (config st).
      destruct (maxBuffers (config st) <=? size (buffers (cleanup now st).2))
        eqn:Hstill; simpl in *;
        rewrite ?Z.leb_le, ?Z.leb_gt in *.
      * split; [|split]; [split; [done|by intros _]|done|by intros []].
      * split; [|split]; [split; [done|intros [_ ?]; lia]|done|].
        intros _. apply has_set.
    + simpl. rewrite Z.leb_gt in Hfull.
      split; [|split]; [split; [done|intros [? _]; lia]|done|].
      intros _. apply has_set.
  - intros k info Hone Hk Hmax Hage.
    assert (has bufferId (buffers st) = false) as Hnew.
    { unfold has. rewrite Hone. simpl. apply bool_decide_eq_false_2.
      rewrite list_elem_of_singleton. congruence. }
    unfold createBuffer. rewrite Hnew, Hmax, Hone. simpl.
    unfold cleanup. rewrite Hone. simpl.
    split.
    + intros Hidle.
      assert (expired now (cleanupAge (config st)) info = true) as ->.
      { unfold expired. rewrite orb_true_iff, !Z.ltb_lt. lia. }
      simpl. rewrite Hmax. simpl. done.
    + intros Hyoung Hactive.
      assert (expired now (cleanupAge (config st)) info = false) as ->.
      { unfold expired. rewrite orb_false_iff, !Z.ltb_ge. lia. }
      simpl. rewrite Hmax. simpl.
      rewrite <- Hone. by rewrite withBuffers_same.
Qed.

End BufferManagerClaims.

Lemma createBuffer_duplicate_eviction_capacity_witness :
  BufferManager.createBuffer 5 "first" BufferManager.noOptions Scenario.oneSlot
  = (inl (Js.AlreadyExists "first"), Scenario.oneSlot)
  ∧ ((BufferManager.createBuffer 400000 "second" BufferManager.noOptions
        Scenario.oneSlot).1 ≠ inl (Js.LimitReached "second" 1)
     ∧ (BufferManager.buffers
          (BufferManager.createBuffer 400000 "second" BufferManager.noOptions
             Scenario.oneSlot).2).*1 = ["second"%string])
  ∧ BufferManager.createBuffer 100000 "second" BufferManager.noOptions
      Scenario.oneSlot
    = (inl (Js.LimitReached "second" 1), Scenario.oneSlot).
Proof.
  split; [|split].
  - apply (proj1 (createBuffer_duplicate_eviction_capacity 5 "first"
                    BufferManager.noOptions Scenario.oneSlot)).
    reflexivity.
  - eapply (proj1 (proj2 (proj2 (proj2
              (createBuffer_duplicate_eviction_capacity 400000 "second"
                 BufferManager.noOptions Scenario.oneSlot))) "first"%string _
              eq_refl _ eq_refl _)).
    simpl. lia.
  - eapply (proj2 (proj2 (proj2 (proj2
              (createBuffer_duplicate_eviction_capacity 100000 "second"
                 BufferManager.noOptions Scenario.oneSlot))) "first"%string _
              eq_refl _ eq_refl _)); simpl; lia.
  Unshelve.
  all: first [discriminate | simpl; lia].
Defined.

(** C9 as stated fails. With a cleanup age of 300000 ms, the eviction
    pass at time 200000 removes the buffer first, created and last used at
    time 0: it has been idle for less than the cleanup age. And a buffer
    used at time 399999 is removed by the pass at time 400000, being older
    than the cleanup age, so that the second create at that time does not
    fail with the capacity error although the buffer held is active. *)
Lemma eviction_is_by_age_or_half_the_idle_time :
  BufferManager.cleanupAge (BufferManager.config Scenario.oneSlot) = 300000
  ∧ (λ e, (e.1, BufferManager.createdAt e.2, BufferManager.lastActivity e.2))
    <$> BufferManager.buffers Scenario.oneSlot = [("first"%string, 0, 0)]
  ∧ (BufferManager.cleanup 200000 Scenario.oneSlot).1 = (["first"%string], 0)
  ∧ Scenario.secondCreate 200000 Scenario.oneSlot
    = (Some (Js.TypeError "buffer.on"), ["second"%string])
  ∧ (BufferManager.cleanup 400000
       (BufferManager.getBuffer 399999 "first" Scenario.oneSlot).2).1
    = (["first"%string], 0)
  ∧ Scenario.secondCreate 400000
      (BufferManager.getBuffer 399999 "first" Scenario.oneSlot).2
    = (Some (Js.TypeError "buffer.on"), ["second"%string]).
Proof. vm_compute. done. Qed.

(* ================================================================== *)
(** * Further properties of the modelled code                          *)
(* ================================================================== *)

(** ** Searching and sorting arrays *)

Section ArrayFacts.

Context {A : Type}.
Variable key : A → Z.
Variable p : A → bool.

Lemma findIndex_None l :
  Js.findIndex p l = None ↔ Forall (λ x, p x = false) l.
Proof.
  induction l as [|x l IH]; simpl.
  - split; [constructor|done].
  - destruct (p x) eqn:Hx.
    + split; [done|]. intros H. inversion H; congruence.
    + rewrite Forall_cons, <- IH. split.
      * intros Hnone. split; [done|]. by destruct (Js.findIndex p l).
      * intros [_ ->]. done.
Qed.

Lemma findIndex_Some l i :
  Js.findIndex p l = Some i → ∃ x, l !! i = Some x ∧ p x = true.
Proof.
  revert i. induction l as [|x l IH]; intros i; simpl; [done|].
  destruct (p x) eqn:Hx.
  - intros [= <-]. eauto.
  - destruct (Js.findIndex p l) as [j|]; simpl; [|done].
    intros [= <-]. simpl. by apply IH.
Qed.

Lemma findIndex_middle l1 r l2 :
  Forall (λ x, p x = false) l1 → p r = true →
  Js.findIndex p (l1 ++ r :: l2) = Some (length l1).
Proof.
  intros Hl1 Hr. induction Hl1 as [|x l1 Hx Hl1 IH]; simpl.
  - by rewrite Hr.
  - by rewrite Hx, IH.
Qed.

Lemma insertSorted_perm x l : Js.insertSorted key x l ≡ₚ x :: l.
Proof.
  induction l as [|y l IH]; simpl; [done|].
  destruct (key x <=? key y); [done|].
  rewrite IH. apply Permutation_swap.
Qed.

Lemma sortBy_perm l : Js.sortBy key l ≡ₚ l.
Proof.
  induction l as [|x l IH]; [done|].
  unfold Js.sortBy in *. simpl. by rewrite insertSorted_perm, IH.
Qed.

Lemma insertSorted_least x l :
  Forall (λ y, key x ≤ key y) l → Js.insertSorted key x l = x :: l.
Proof.
  destruct 1 as [|y l Hy _]; simpl; [done|].
  by rewrite (proj2 (Z.leb_le _ _) Hy).
Qed.

(** Pushing an element on a sorted array and sorting puts the element
    somewhere in the array and moves nothing else. *)
Lemma sortBy_snoc_split r l :
  StronglySorted (λ a b, key a ≤ key b) l →
  ∃ l1 l2, l = l1 ++ l2 ∧ Js.sortBy key (l ++ [r]) = l1 ++ r :: l2.
Proof.
  induction 1 as [|x l Hl (l1 & l2 & Heq & IH) Hx].
  - by exists [], [].
  - change (Js.sortBy key ((x :: l) ++ [r]))
      with (Js.insertSorted key x (Js.sortBy key (l ++ [r]))).
    rewrite IH. destruct l1 as [|y l1]; simpl in *.
    + subst l2. destruct (key x <=? key r) eqn:Hxr.
      * by exists [x], l.
      * exists [], (x :: l). split; [done|].
        by rewrite insertSorted_least.
    + exists (x :: y :: l1), l2. split; [by rewrite Heq|].
      subst l. inversion Hx as [|? ? Hy _]; subst.
      by rewrite (proj2 (Z.leb_le _ _) Hy).
Qed.

(** Removing, by a search, the element just pushed and sorted into a
    sorted array gives the array back. *)
Lemma sortBy_snoc_delete r l :
  StronglySorted (λ a b, key a ≤ key b) l →
  Forall (λ x, p x = false) l → p r = true →
  ∃ i, Js.findIndex p (Js.sortBy key (l ++ [r])) = Some i
     ∧ delete i (Js.sortBy key (l ++ [r])) = l.
Proof.
  intros Hs Hl Hr.
  destruct (sortBy_snoc_split r l Hs) as (l1 & l2 & -> & ->).
  apply Forall_app in Hl as [Hl1 _].
  exists (length l1). split.
  - by apply findIndex_middle.
  - apply delete_middle.
Qed.

Lemma StronglySorted_delete i l :
  StronglySorted (λ a b, key a ≤ key b) l →
  StronglySorted (λ a b, key a ≤ key b) (delete i l).
Proof.
  intros Hs. revert i. induction Hs as [|x l Hl IH Hx]; intros i.
  - destruct i; constructor.
  - destruct i; simpl; [exact Hl|].
    constructor; [apply IH|by apply Forall_delete].
Qed.

End ArrayFacts.

(** ** HookManager: the registry *)

Section HookManagerRegistry.

Import Js HookManager.

Lemma manager_get_set event regs m : get event (set event regs m) = Some regs.
Proof.
  induction m as [|[e old] m IH]; simpl.
  - by rewrite bool_decide_eq_true_2.
  - destruct (bool_decide (e = event)) eqn:He; simpl; by rewrite He.
Qed.

Lemma manager_get_set_ne event e regs m :
  e ≠ event → get e (set event regs m) = get e m.
Proof.
  intros Hne. induction m as [|[e0 old] m IH]; simpl.
  - rewrite bool_decide_eq_false_2; [done|congruence].
  - destruct (bool_decide (e0 = event)) eqn:He0; simpl.
    + apply bool_decide_eq_true_1 in He0. subst e0.
      by rewrite !bool_decide_eq_false_2 by congruence.
    + by rewrite IH.
Qed.

Lemma registrationsOf_addRegistration_ne event e r st :
  e ≠ event →
  registrationsOf e (addRegistration event r st) = registrationsOf e st.
Proof.
  intros Hne. unfold registrationsOf, addRegistration. simpl.
  by rewrite manager_get_set_ne.
Qed.

Lemma removeById_None hookId m :
  removeById hookId m = None
  ↔ Forall (λ entry, Forall (λ reg, id reg ≠ hookId) entry.2) m.
Proof.
  induction m as [|[e regs] m IH]; simpl.
  - split; [constructor|done].
  - rewrite Forall_cons. simpl.
    destruct (findIndex _ regs) as [i|] eqn:Hfind.
    + split; [done|]. intros [Hfree _].
      apply findIndex_Some in Hfind as (x & Hx & Hid).
      apply bool_decide_eq_true_1 in Hid.
      rewrite Forall_lookup in Hfree. by destruct (Hfree i x Hx).
    + apply findIndex_None in Hfind. rewrite <- IH.
      assert (Forall (λ reg, id reg ≠ hookId) regs) as Hfree.
      { eapply Forall_impl; [exact Hfind|]. simpl. intros x Hx.
        by apply bool_decide_eq_false_1 in Hx. }
      destruct (removeById hookId m); simpl; split; try done; by intros [_ ?].
Qed.

(** What a successful removal does to the map: one array loses one
    element, nothing else changes. *)
Lemma removeById_Some hookId m m' :
  removeById hookId m = Some m' →
  S (length (concat m'.*2)) = length (concat m.*2)
  ∧ ∀ e, default [] (get e m') = default [] (get e m)
         ∨ ∃ i, default [] (get e m') = delete i (default [] (get e m)).
Proof.
  revert m'. induction m as [|[e0 regs] m IH]; intros m'; simpl; [done|].
  destruct (findIndex _ regs) as [i|] eqn:Hfind.
  - intros [= <-]. split.
    + apply findIndex_Some in Hfind as (x & Hx & _).
      rewrite !fmap_cons. cbn [concat snd].
      rewrite !length_app, length_delete by eauto.
      apply lookup_lt_Some in Hx. unfold fmap. lia.
    + intros e. simpl. destruct (bool_decide (e0 = e)); simpl; eauto.
  - destruct (removeById hookId m) as [m1|]; simpl; [|done].
    intros [= <-]. destruct (IH m1 eq_refl) as [Hcount Hget]. split.
    + rewrite !fmap_cons. cbn [concat snd]. rewrite !length_app.
      unfold fmap in *. lia.
    + intros e. simpl. destruct (bool_decide (e0 = e)); simpl; eauto.
Qed.

(** X1. [unregisterHookById] finds an id in whatever event holds it. It
    returns [false], and changes nothing, exactly when no registration of
    any event has the id; when it returns [true] the registry has one
    registration less. *)
Theorem unregisterHookById_searches_all_events hookId st :
  (idFree hookId st ↔ unregisterHookById hookId st = (false, st))
  ∧ ((unregisterHookById hookId st).1 = false ↔ idFree hookId st)
  ∧ (registrationCount (unregisterHookById hookId st).2
     + (if (unregisterHookById hookId st).1 then 1 else 0)
     = registrationCount st)%nat.
Proof.
  unfold unregisterHookById, idFree, registrationCount.
  destruct (removeById hookId (hookRegistrations st)) as [m|] eqn:Hrem; simpl.
  - destruct (removeById_Some _ _ _ Hrem) as [Hcount _].
    rewrite <- removeById_None, Hrem. repeat split; first [done | lia].
  - rewrite <- removeById_None, Hrem. repeat split; first [done | lia].
Qed.

(** Removing the registration that was just added: the search finds it
    when no other registration has the id. *)
Lemma removeById_after_add event r regs m :
  StronglySorted (λ a b, priority a ≤ priority b) regs →
  default [] (get event m) = regs →
  Forall (λ entry, Forall (λ reg, id reg ≠ id r) entry.2) m →
  removeById (id r) (set event (sortBy priority (regs ++ [r])) m)
  = Some (set event regs m).
Proof.
  intros Hsorted Hget Hfree.
  assert (Forall (λ x, bool_decide (id x = id r) = false) regs) as Hregs.
  { subst regs.
    induction m as [|[e old] m IH]; simpl; [constructor|].
    inversion Hfree as [|? ? Hhead Hrest]; subst. simpl in *.
    destruct (bool_decide (e = event)); simpl; [|by apply IH].
    eapply Forall_impl; [exact Hhead|]. simpl. intros x Hx.
    by apply bool_decide_eq_false_2. }
  destruct (sortBy_snoc_delete priority (λ x, bool_decide (id x = id r)) r
              regs Hsorted Hregs)
    as (i & Hfind & Hdel); [by apply bool_decide_eq_true_2|].
  set (regs' := sortBy priority (regs ++ [r])) in *.
  rewrite <- Hdel. clear Hregs Hsorted Hdel Hget.
  induction m as [|[e old] m IH]; simpl.
  - by rewrite Hfind.
  - inversion Hfree as [|? ? Hhead Hrest]; subst. simpl in *.
    destruct (bool_decide (e = event)) eqn:He; simpl.
    + by rewrite Hfind.
    + assert (findIndex (λ reg, bool_decide (id reg = id r)) old = None) as ->.
      { apply findIndex_None. eapply Forall_impl; [exact Hhead|].
        simpl. intros x Hx. by apply bool_decide_eq_false_2. }
      by rewrite IH.
Qed.

Lemma unregister_after_add event r st :
  StronglySorted (λ a b, priority a ≤ priority b) (registrationsOf event st) →
  idFree (id r) st →
  unregisterHookById (id r) (addRegistration event r st)
  = (true, withRegistrations
             (set event (registrationsOf event st) (hookRegistrations st)) st).
Proof.
  intros Hsorted Hfree.
  unfold unregisterHookById, addRegistration. simpl.
  by rewrite (removeById_after_add event r (registrationsOf event st)).
Qed.

(** X2. Registering a hook and unregistering it by the id that [registerHook]
    returned leaves every event with the registrations it had, provided
    the array of the event was sorted and the id was not in use. *)
Theorem registerHook_then_unregister_restores event f options generated st :
  StronglySorted (λ a b, priority a ≤ priority b) (registrationsOf event st) →
  idFree (default generated (opt_id options)) st →
  let registered := registerHook event f options generated st in
  (unregisterHookById registered.1 registered.2).1 = true
  ∧ ∀ e, registrationsOf e (unregisterHookById registered.1 registered.2).2
         = registrationsOf e st.
Proof.
  intros Hsorted Hfree registered. subst registered. unfold registerHook. simpl.
  set (r := {| hook := f; priority := default 100 (opt_priority options);
               id := default generated (opt_id options); oneTime := false;
               timeout := opt_timeout options |}).
  change (default generated (opt_id options)) with (id r).
  rewrite unregister_after_add by done. split; [done|].
  intros e. unfold registrationsOf at 1. simpl.
  destruct (decide (e = event)) as [->|Hne].
  - by rewrite manager_get_set.
  - by rewrite manager_get_set_ne.
Qed.

Lemma applyOp_sorted st op :
  sortedByPriority st → sortedByPriority (applyOp st op).
Proof.
  intros Hs.
  assert (∀ event r, sortedByPriority (addRegistration event r st)) as Hadd.
  { intros event r e. destruct (decide (e = event)) as [->|Hne].
    - rewrite registrationsOf_addRegistration. apply sortBy_sorted.
    - rewrite registrationsOf_addRegistration_ne by done. apply Hs. }
  destruct op as [event f o g|event f o g|hookId|event f]; simpl.
  - apply Hadd.
  - apply Hadd.
  - unfold unregisterHookById.
    destruct (removeById hookId (hookRegistrations st)) as [m|] eqn:Hrem;
      simpl; [|done].
    intros e. destruct (removeById_Some _ _ _ Hrem) as [_ Hget].
    unfold registrationsOf. simpl.
    destruct (Hget e) as [->|[i ->]]; [apply Hs|].
    apply StronglySorted_delete, Hs.
  - unfold unregisterHook.
    destruct (get event (hookRegistrations st)) as [regs|] eqn:Hget; [|done].
    destruct (findIndex _ regs) as [i|]; simpl; [|done].
    intros e. unfold registrationsOf. simpl.
    destruct (decide (e = event)) as [->|Hne].
    + rewrite manager_get_set. simpl. apply StronglySorted_delete.
      specialize (Hs event). unfold registrationsOf in Hs. by rewrite Hget in Hs.
    + rewrite manager_get_set_ne by done. apply Hs.
Qed.

(** X3. Whatever is registered and unregistered on a new manager, in any
    order, the array of every event stays in non-decreasing order of
    priority. *)
Theorem manager_registry_stays_sorted now ops :
  sortedByPriority (foldl applyOp (empty now) ops).
Proof.
  induction ops as [|op ops IH] using rev_ind.
  - intros e. constructor.
  - rewrite foldl_app. simpl. by apply applyOp_sorted.
Qed.

Lemma OnceWrapper_not_its_hook i f : FnRef_eqb (OnceWrapper i f) f = false.
Proof.
  revert i. induction f as [n|j f IH]; intros i; [done|].
  change (FnRef_eqb (OnceWrapper i (OnceWrapper j f)) (OnceWrapper j f))
    with (bool_decide (i = j) && FnRef_eqb (OnceWrapper j f) f).
  rewrite IH. apply andb_false_r.
Qed.

(** X4. A hook registered with [registerOneTimeHook] cannot be unregistered
    with [unregisterHook] and the function that was passed: the function
    registered is the wrapper. The call returns [false] and changes
    nothing, unless the function is also registered for the event in its
    own right. *)
Theorem one_time_hook_is_not_found_by_its_function event f options generated st :
  (∀ r, r ∈ registrationsOf event st → FnRef_eqb (hook r) f = false) →
  unregisterHook event f (registerOneTimeHook event f options generated st).2
  = (false, (registerOneTimeHook event f options generated st).2).
Proof.
  intros Hnot. unfold registerOneTimeHook, addRegistration, unregisterHook. simpl.
  rewrite manager_get_set.
  set (r := {| hook := OnceWrapper _ f |}).
  assert (findIndex (λ reg, FnRef_eqb (hook reg) f)
            (sortBy priority (registrationsOf event st ++ [r])) = None) as ->;
    [|done].
  apply findIndex_None.
  rewrite (sortBy_perm priority). apply Forall_app. split.
  - apply Forall_forall. intros x Hx. by apply Hnot.
  - repeat constructor. apply OnceWrapper_not_its_hook.
Qed.

End HookManagerRegistry.

Lemma registerHook_then_unregister_restores_witness :
  (HookManager.unregisterHookById "h3"
     (HookManager.registerHook Js.message_before (HookManager.UserFn 2)
        (Scenario.options 25 "h3" None) "g" Scenario.twoHooks).2).1 = true
  ∧ ∀ e, HookManager.registrationsOf e
           (HookManager.unregisterHookById "h3"
              (HookManager.registerHook Js.message_before (HookManager.UserFn 2)
                 (Scenario.options 25 "h3" None) "g" Scenario.twoHooks).2).2
         = HookManager.registrationsOf e Scenario.twoHooks.
Proof.
  apply (registerHook_then_unregister_restores Js.message_before
           (HookManager.UserFn 2) (Scenario.options 25 "h3" None) "g"
           Scenario.twoHooks).
  - vm_compute. repeat constructor; discriminate.
  - vm_compute. repeat constructor; discriminate.
Defined.

Lemma one_time_hook_is_not_found_by_its_function_witness :
  HookManager.unregisterHook Js.message_before (HookManager.UserFn 5)
    (HookManager.registerOneTimeHook Js.message_before (HookManager.UserFn 5)
       (Scenario.options 25 "h3" None) "g" Scenario.twoHooks).2
  = (false,
     (HookManager.registerOneTimeHook Js.message_before (HookManager.UserFn 5)
        (Scenario.options 25 "h3" None) "g" Scenario.twoHooks).2).
Proof.
  apply (one_time_hook_is_not_found_by_its_function Js.message_before
           (HookManager.UserFn 5) (Scenario.options 25 "h3" None) "g"
           Scenario.twoHooks).
  intros r Hr. vm_compute in Hr. apply list_elem_of_In in Hr. simpl in Hr.
  destruct Hr as [<-|[<-|[]]]; reflexivity.
Defined.

(** ** HookManager: more on the dispatch *)

Section HookManagerDispatchMore.

Import Js HookManager.

Context {Payload : Type}.
Variable user : nat → Payload → HookRun Payload Op.



Lemma invoke_once_in_time event r regs payload st :
  pending st = [] →
  get event (hookRegistrations st) = Some (sortBy priority (regs ++ [r])) →
  removeById (id r) (hookRegistrations st)
  = Some (set event regs (hookRegistrations st)) →
  hook r = OnceWrapper (id r) (match hook r with
                               | OnceWrapper _ f => f
                               | f => f
                               end) →
  effects (call user (match hook r with OnceWrapper _ f => f | f => f end)
             payload) = [] →
  match timeout r with
  | Some t => t = 0
              ∨ settleAfter (call user (hook r) payload) < timerDelay t
  | None => True
  end →
  hookRegistrations (invoke user r payload st).2
  = set event regs (hookRegistrations st)
  ∧ pending (invoke user r payload st).2 = [].
Proof.
  intros Hp Hget Hrem Hhook Hquiet Htime.
  assert (awaitCall user (hook r) payload st
          = (outcome (call user (hook r) payload),
             {| hookRegistrations := set event regs (hookRegistrations st);
                clock := clock st + settleAfter (call user (hook r) payload);
                pending := [] |})) as Hawait.
  { unfold awaitCall. rewrite Hhook. simpl. rewrite Hquiet. simpl.
    unfold advance, dueOps, laterOps, schedule. simpl. rewrite Hp. simpl.
    rewrite (proj2 (Z.leb_le _ _) (Z.le_refl _)). simpl.
    unfold unregisterHookById. simpl. by rewrite Hrem. }
  unfold invoke. destruct (timeout r) as [t|].
  - destruct (bool_decide (t = 0)) eqn:Ht.
    + by rewrite Hawait.
    + apply bool_decide_eq_false_1 in Ht. destruct Htime as [?|Hrace]; [done|].
      unfold executeWithTimeout.
      rewrite (proj2 (Z.ltb_lt _ _) Hrace), orb_true_r.
      fold (awaitCall user (hook r) payload st). by rewrite Hawait.
  - by rewrite Hawait.
Qed.

(** X7. A one-time hook that is alone on its event runs once. Its dispatch
    calls it, unregisters it after the hook has settled, and leaves the
    event without hooks; any later dispatch of the event calls nothing and
    returns its payload as it is. (The hook must settle before its
    timeout, if it has one, and its id must not be in use.) *)
Theorem one_time_hook_alone_runs_once
    fuel event f options generated payload st :
  pending st = [] →
  registrationsOf event st = [] →
  idFree (default generated (opt_id options)) st →
  effects (call user f payload) = [] →
  match opt_timeout options with
  | Some t => t = 0 ∨ settleAfter (call user f payload) < timerDelay t
  | None => True
  end →
  (2 ≤ fuel)%nat →
  let st1 := (registerOneTimeHook event f options generated st).2 in
  ∃ l, executeHooksWithMonitoring user fuel event payload st1 = Some l
    ∧ hook <$> (called <$> invoked l)
      = [OnceWrapper (default generated (opt_id options)) f]
    ∧ getHookInfo event (manager l) = []
    ∧ ∀ fuel' payload', (0 < fuel')%nat →
        ∃ l', executeHooksWithMonitoring user fuel' event payload' (manager l)
              = Some l'
          ∧ invoked l' = []
          ∧ modifiedData (result l') = payload'.
Proof.
  intros Hp Hempty Hfree Hquiet Htime Hfuel st1.
  set (hookId := default generated (opt_id options)) in *.
  set (r := {| hook := OnceWrapper hookId f;
               priority := default 100 (opt_priority options);
               id := hookId; oneTime := true;
               timeout := opt_timeout options |}).
  assert (st1 = addRegistration event r st) as Hst1 by done.
  assert (registrationsOf event st1 = [r]) as Hregs.
  { rewrite Hst1, registrationsOf_addRegistration, Hempty. done. }
  assert (get event (hookRegistrations st1)
          = Some (sortBy priority ([] ++ [r]))) as Hget.
  { rewrite Hst1. unfold addRegistration. simpl.
    by rewrite manager_get_set, Hempty. }
  assert (set event [] (hookRegistrations st1)
          = set event [] (hookRegistrations st)) as Hset.
  { rewrite Hst1. unfold addRegistration. simpl. rewrite Hempty. simpl.
    clear. induction (hookRegistrations st) as [|[e old] m IH]; simpl.
    - by rewrite bool_decide_eq_true_2.
    - destruct (bool_decide (e = event)) eqn:He; simpl; rewrite He; [done|].
      by rewrite IH. }
  destruct (invoke_once_in_time event r [] payload st1) as [Hm Hpend];
    try done.
  { rewrite Hset, Hst1. unfold addRegistration. simpl. rewrite Hempty.
    apply (removeById_after_add event r []); [constructor|exact Hempty|exact Hfree]. }
  destruct fuel as [|[|fuel]]; [lia|lia|].
  unfold executeHooksWithMonitoring. cbn [forOf].
  change (registrationsOf event (manager (start event payload st1)))
    with (registrationsOf event st1).
  rewrite Hregs. cbn [lookup list_lookup].
  destruct (iteration_inr user event r (start event payload st1))
    as (l1 & Hit & Hman & _ & Hinv).
  rewrite Hit.
  assert (registrationsOf event (manager l1) = []) as Hafter.
  { rewrite Hman. unfold registrationsOf. simpl.
    change (manager (start event payload st1)) with st1.
    by rewrite Hm, manager_get_set. }
  rewrite Hafter. cbn [lookup list_lookup].
  eexists. split; [reflexivity|]. simpl. split; [|split].
  - by rewrite Hinv.
  - unfold getHookInfo. by rewrite Hafter.
  - intros fuel' payload' Hfuel'. destruct fuel' as [|fuel']; [lia|].
    cbn [forOf].
    change (registrationsOf event
              (manager (start event payload' (manager l1))))
      with (registrationsOf event (manager l1)).
    rewrite Hafter. cbn [lookup list_lookup].
    eexists. split; [reflexivity|]. done.
Qed.

End HookManagerDispatchMore.


Lemma one_time_hook_alone_runs_once_witness :
  ∃ l, HookManager.executeHooksWithMonitoring Scenario.hooks 2
         Js.message_before "o"%string Scenario.onceAlone = Some l
    ∧ HookManager.hook <$> (HookManager.called <$> HookManager.invoked l)
      = [HookManager.OnceWrapper "once" (HookManager.UserFn 0)]
    ∧ HookManager.getHookInfo Js.message_before (HookManager.manager l) = []
    ∧ ∀ fuel' payload', (0 < fuel')%nat →
        ∃ l', HookManager.executeHooksWithMonitoring Scenario.hooks fuel'
                Js.message_before payload' (HookManager.manager l) = Some l'
          ∧ HookManager.invoked l' = []
          ∧ HookManager.modifiedData (HookManager.result l') = payload'.
Proof.
  apply (one_time_hook_alone_runs_once Scenario.hooks 2 Js.message_before
           (HookManager.UserFn 0) (Scenario.options 0 "once" None) "g"
           "o"%string (HookManager.empty 0)).
  - reflexivity.
  - reflexivity.
  - constructor.
  - reflexivity.
  - exact I.
  - lia.
Defined.

(** ** HookableEventEmitter: the registry *)

Section EmitterRegistry.

Import Js HookableEventEmitter.

Lemma emitter_get_set event regs m : get event (set event regs m) = Some regs.
Proof.
  induction m as [|[e old] m IH]; simpl.
  - by rewrite bool_decide_eq_true_2.
  - destruct (bool_decide (e = event)) eqn:He; simpl; by rewrite He.
Qed.

Lemma emitter_get_set_ne event e regs m :
  e ≠ event → get e (set event regs m) = get e m.
Proof.
  intros Hne. induction m as [|[e' old] m IH]; simpl.
  - by rewrite bool_decide_eq_false_2.
  - destruct (bool_decide (e' = event)) eqn:He; simpl.
    + apply bool_decide_eq_true_1 in He. subst e'.
      by rewrite !bool_decide_eq_false_2.
    + by rewrite IH.
Qed.

Lemma emitter_set_set event regs regs' m :
  set event regs (set event regs' m) = set event regs m.
Proof.
  induction m as [|[e old] m IH]; simpl.
  - by rewrite bool_decide_eq_true_2.
  - destruct (bool_decide (e = event)) eqn:He; simpl; rewrite He; [done|].
    by rewrite IH.
Qed.

Lemma emitter_set_entries (Q : list PriorityHookRegistration → Prop)
    event regs m :
  Forall (λ entry, Q entry.2) m → Q regs →
  Forall (λ entry, Q entry.2) (set event regs m).
Proof.
  intros Hm Hregs. induction Hm as [|[e old] m Hold Hm IH]; simpl.
  - by repeat constructor.
  - destruct (bool_decide (e = event)); by constructor.
Qed.

Lemma emitter_remove_entries (Q : list PriorityHookRegistration → Prop)
    event m :
  Forall (λ entry, Q entry.2) m → Forall (λ entry, Q entry.2) (remove event m).
Proof.
  induction 1 as [|[e old] m Hold Hm IH]; simpl; [constructor|].
  destruct (bool_decide (e = event)); [done|by constructor].
Qed.

Lemma emitter_get_entries (Q : list PriorityHookRegistration → Prop)
    event regs m :
  Forall (λ entry, Q entry.2) m → get event m = Some regs → Q regs.
Proof.
  induction 1 as [|[e old] m Hold Hm IH]; simpl; [done|].
  destruct (bool_decide (e = event)); [by intros [= <-]|done].
Qed.

Lemma ordered_delete i regs : ordered regs → ordered (delete i regs).
Proof.
  intros [Hs Hp]. split; [by apply StronglySorted_delete|].
  apply Forall_forall. intros x Hx.
  apply (proj1 (Forall_forall _ _) Hp).
  eapply elem_of_sublist; [exact Hx|apply sublist_delete].
Qed.

Lemma emitter_set_all event regs m :
  concat (snd <$> set event regs m) ≡ₚ regs ++ concat (snd <$> remove event m).
Proof.
  induction m as [|[e old] m IH]; simpl; [done|].
  destruct (bool_decide (e = event)); simpl; [done|].
  rewrite IH. by rewrite !(assoc_L (++)), (Permutation_app_comm old regs).
Qed.

Lemma emitter_get_all event m :
  concat (snd <$> m)
  ≡ₚ default [] (get event m) ++ concat (snd <$> remove event m).
Proof.
  induction m as [|[e old] m IH]; simpl; [done|].
  destruct (bool_decide (e = event)); simpl; [done|].
  rewrite IH.
  by rewrite !(assoc_L (++)), (Permutation_app_comm old (default [] _)).
Qed.

Lemma emitter_remove_all event m :
  concat (snd <$> remove event m) `sublist_of` concat (snd <$> m).
Proof.
  induction m as [|[e old] m IH]; simpl; [done|].
  destruct (bool_decide (e = event)); simpl.
  - by apply sublist_inserts_l.
  - by apply sublist_app.
Qed.

(** Taking registrations away keeps the numbering. *)
Lemma wellNumbered_fewer st st' k k' :
  allRegistrations st ≡ₚ k → allRegistrations st' ≡ₚ k' →
  k' `sublist_of` k → nextHookId st' = nextHookId st →
  wellNumbered st → wellNumbered st'.
Proof.
  unfold wellNumbered. intros Hk Hk' Hsub Hnext [Hnodup Hbelow].
  rewrite Hk in Hnodup, Hbelow. rewrite Hk', Hnext. split.
  - eapply sublist_NoDup; [exact Hnodup|]. by apply fmap_sublist.
  - apply Forall_forall. intros x Hx.
    apply (proj1 (Forall_forall _ _) Hbelow). by eapply elem_of_sublist.
Qed.

Lemma registerHook_wellNumbered event f p st :
  wellNumbered st → wellNumbered (registerHook event f p st).
Proof.
  unfold wellNumbered, allRegistrations, registerHook. simpl.
  intros [Hnodup Hbelow].
  set (r := {| event := event; hook := f;
               priority := if bool_decide (p = 0) then 100 else p;
               id := nextHookId st |}).
  assert (concat (snd <$> set event
                    (sortBy priority
                       (default [] (get event (hookRegistrations st)) ++ [r]))
                    (hookRegistrations st))
          ≡ₚ r :: concat (snd <$> hookRegistrations st)) as ->.
  { rewrite emitter_set_all, sortBy_perm.
    rewrite (emitter_get_all event (hookRegistrations st)) at 1.
    rewrite <- (assoc_L (++)).
    rewrite (Permutation_app_comm _ ([r] ++ _)). simpl.
    by rewrite Permutation_app_comm. }
  split.
  - rewrite fmap_cons. apply NoDup_cons_2; [|done].
    intros Hin. apply list_elem_of_fmap in Hin as (x & Hid & Hx).
    apply (proj1 (Forall_forall _ _) Hbelow) in Hx. simpl in Hid. lia.
  - constructor; [simpl; lia|].
    eapply Forall_impl; [exact Hbelow|]. simpl. intros; lia.
Qed.

Lemma unregisterHook_wellNumbered event f st :
  wellNumbered st → wellNumbered (unregisterHook event f st).
Proof.
  intros Hw. unfold unregisterHook.
  destruct (get event (hookRegistrations st)) as [regs|] eqn:Hget; [|done].
  destruct (findIndex _ regs) as [i|]; [|done].
  eapply (wellNumbered_fewer st _
            (regs ++ concat (snd <$> remove event (hookRegistrations st)))
            (delete i regs
               ++ concat (snd <$> remove event (hookRegistrations st))));
    [| | |done|done].
  - unfold allRegistrations.
    rewrite (emitter_get_all event (hookRegistrations st)). by rewrite Hget.
  - unfold allRegistrations. simpl. apply emitter_set_all.
  - apply sublist_app; [apply sublist_delete|done].
Qed.

Lemma once_wellNumbered event f p st :
  wellNumbered st → wellNumbered (once event f p st).
Proof.
  intros Hw. unfold once, on. by do 2 apply registerHook_wellNumbered.
Qed.

Lemma perform_wellNumbered st c : wellNumbered st → wellNumbered (perform st c).
Proof.
  intros Hw. destruct c as [[e f p|e f p|e f|e f]|e].
  - by apply registerHook_wellNumbered.
  - by apply once_wellNumbered.
  - by apply unregisterHook_wellNumbered.
  - by apply unregisterHook_wellNumbered.
  - eapply (wellNumbered_fewer st _ _ _ (reflexivity _) (reflexivity _));
      [|done|done].
    apply emitter_remove_all.
Qed.

Lemma create_wellNumbered now : wellNumbered (create now).
Proof.
  split; simpl.
  - apply NoDup_singleton.
  - repeat constructor.
Qed.

(** X8. Whatever is registered and removed, through [on], [once], [off] and
    [removeAllListeners], no two registrations of the emitter ever have
    the same hook id, in one event or in two, and the ids in use are below
    the counter: an id is not handed out twice, and removing hooks does
    not make an id free again. *)
Theorem emitter_hook_ids_are_unique now calls :
  wellNumbered (foldl perform (create now) calls).
Proof.
  induction calls as [|c calls IH] using rev_ind.
  - apply create_wellNumbered.
  - rewrite foldl_app. simpl. by apply perform_wellNumbered.
Qed.

Lemma registerHook_ordered event f p st :
  Forall (λ entry, ordered entry.2) (hookRegistrations st) →
  Forall (λ entry, ordered entry.2) (hookRegistrations (registerHook event f p st)).
Proof.
  intros Hm. unfold registerHook. simpl.
  apply emitter_set_entries; [done|]. split; [apply sortBy_sorted|].
  rewrite sortBy_perm. apply Forall_app. split.
  - destruct (get event (hookRegistrations st)) as [regs|] eqn:Hget; simpl;
      [|constructor].
    by destruct (emitter_get_entries ordered _ _ _ Hm Hget).
  - constructor; [|constructor]. simpl. case_bool_decide; lia.
Qed.

Lemma unregisterHook_ordered event f st :
  Forall (λ entry, ordered entry.2) (hookRegistrations st) →
  Forall (λ entry, ordered entry.2) (hookRegistrations (unregisterHook event f st)).
Proof.
  intros Hm. unfold unregisterHook.
  destruct (get event (hookRegistrations st)) as [regs|] eqn:Hget; [|done].
  destruct (findIndex _ regs) as [i|]; [|done]. simpl.
  apply emitter_set_entries; [done|]. apply ordered_delete.
  by apply (emitter_get_entries ordered _ _ _ Hm Hget).
Qed.

Lemma once_ordered event f p st :
  Forall (λ entry, ordered entry.2) (hookRegistrations st) →
  Forall (λ entry, ordered entry.2) (hookRegistrations (once event f p st)).
Proof.
  intros Hm. unfold once, on. by do 2 apply registerHook_ordered.
Qed.

Lemma perform_ordered st c :
  Forall (λ entry, ordered entry.2) (hookRegistrations st) →
  Forall (λ entry, ordered entry.2) (hookRegistrations (perform st c)).
Proof.
  intros Hm. destruct c as [[e f p|e f p|e f|e f]|e].
  - by apply registerHook_ordered.
  - by apply once_ordered.
  - by apply unregisterHook_ordered.
  - by apply unregisterHook_ordered.
  - by apply emitter_remove_entries.
Qed.

Lemma reachable_ordered now calls :
  Forall (λ entry, ordered entry.2)
    (hookRegistrations (foldl perform (create now) calls)).
Proof.
  induction calls as [|c calls IH] using rev_ind.
  - repeat constructor. simpl. lia.
  - rewrite foldl_app. simpl. by apply perform_ordered.
Qed.

Lemma reachable_registrations_ordered now calls event :
  ordered (registrationsOf event (foldl perform (create now) calls)).
Proof.
  unfold registrationsOf.
  destruct (get event _) as [regs|] eqn:Hget; simpl.
  - exact (emitter_get_entries ordered _ _ _ (reachable_ordered now calls) Hget).
  - split; constructor.
Qed.

(** X9. Whatever is registered and removed, the array of every event is in
    non-decreasing order of the stored priority, and no stored priority is
    0: a hook registered with priority 0 is filed with 100. *)
Theorem emitter_registry_stays_ordered now calls event :
  ordered (registrationsOf event (foldl perform (create now) calls)).
Proof. apply reachable_registrations_ordered. Qed.

Lemma emitter_FnRef_eqb_refl f : FnRef_eqb f f = true.
Proof.
  induction f as [n|n e f IH|n e f IH|]; simpl;
    [by apply bool_decide_eq_true_2| | |done];
    by rewrite !bool_decide_eq_true_2, IH.
Qed.

(** Functions that are the same have the same number of wrappers. *)
Lemma emitter_FnRef_eqb_depth g f :
  FnRef_eqb g f = true → depth g = depth f.
Proof.
  revert f. induction g as [n|n e g IH|n e g IH|]; intros [m|m e' f|m e' f|];
    simpl; try done.
  - intros H. apply andb_true_iff in H as [_ H]. by rewrite (IH f H).
  - intros H. apply andb_true_iff in H as [_ H]. by rewrite (IH f H).
Qed.

Lemma emitter_wrapped_is_another g f :
  (depth f < depth g)%nat → FnRef_eqb g f = false.
Proof.
  intros Hlt. destruct (FnRef_eqb g f) eqn:Heq; [|done].
  apply emitter_FnRef_eqb_depth in Heq. lia.
Qed.

Lemma emitter_unregister_after_register event f p st :
  StronglySorted (λ a b, priority a ≤ priority b) (registrationsOf event st) →
  Forall (λ r, FnRef_eqb (hook r) f = false) (registrationsOf event st) →
  unregisterHook event f (registerHook event f p st)
  = withRegistrations
      (set event (registrationsOf event st) (hookRegistrations st))
      (S (nextHookId st)) st.
Proof.
  intros Hsorted Hfresh.
  set (r := {| event := event; hook := f;
               priority := if bool_decide (p = 0) then 100 else p;
               id := nextHookId st |}).
  destruct (sortBy_snoc_delete priority (λ reg, FnRef_eqb (hook reg) f) r
              (registrationsOf event st) Hsorted Hfresh)
    as (i & Hfind & Hdel); [apply emitter_FnRef_eqb_refl|].
  unfold unregisterHook, registerHook. simpl. rewrite emitter_get_set.
  fold r. unfold registrationsOf in Hfind, Hdel. rewrite Hfind.
  unfold withRegistrations. simpl. f_equal. rewrite Hdel.
  apply emitter_set_set.
Qed.

(** X10. [on] followed by [off] with the same function gives back the
    registrations of every event as they were, when the function was not
    registered for the event before; the id that [on] handed out is not
    handed out again. *)
Theorem emitter_on_then_off_restores now calls event f p :
  let st := foldl perform (create now) calls in
  Forall (λ r, FnRef_eqb (hook r) f = false) (registrationsOf event st) →
  (∀ e, registrationsOf e (off event f (on event f p st))
        = registrationsOf e st)
  ∧ nextHookId (off event f (on event f p st)) = S (nextHookId st).
Proof.
  intros st Hfresh. unfold off, on.
  rewrite emitter_unregister_after_register;
    [|apply (reachable_registrations_ordered now calls event)|done].
  split; [|done]. intros e. unfold registrationsOf. simpl.
  destruct (decide (e = event)) as [->|Hne].
  - by rewrite emitter_get_set.
  - by rewrite emitter_get_set_ne.
Qed.

Lemma registrationsOf_registerHook event f p st :
  registrationsOf event (registerHook event f p st)
  = sortBy priority
      (registrationsOf event st
       ++ [{| event := event; hook := f;
              priority := if bool_decide (p = 0) then 100 else p;
              id := nextHookId st |}]).
Proof.
  unfold registrationsOf, registerHook. simpl. by rewrite emitter_get_set.
Qed.

(** X11. [off] with the function that was given to [once] removes neither of
    the two registrations that [once] has made: the registry holds the
    wrapper that [once] built and the wrapper that the base class built
    around it, and [off] compares with the function it is given. The
    emitter is left as it was (when the function is not also registered
    through [on]). *)
Theorem emitter_once_is_not_removed_by_off event f p st :
  Forall (λ r, FnRef_eqb (hook r) f = false) (registrationsOf event st) →
  off event f (once event f p st) = once event f p st
  ∧ hook <$> registrationsOf event (once event f p st)
    ≡ₚ OnceWrapper (nextHookId st) event f
       :: ListenerOnce (S (nextHookId st)) event
            (OnceWrapper (nextHookId st) event f)
       :: (hook <$> registrationsOf event st).
Proof.
  intros Hfresh. split.
  - unfold off, once, on, unregisterHook.
    set (st1 := registerHook event (OnceWrapper (nextHookId st) event f)
                  (default 100 p) st).
    set (st2 := registerHook event _ _ st1).
    assert (Forall (λ r, FnRef_eqb (hook r) f = false)
              (registrationsOf event st1)) as Hfresh1.
    { unfold st1. rewrite registrationsOf_registerHook, sortBy_perm.
      apply Forall_app. split; [done|]. constructor; [|constructor].
      cbn [hook]. apply emitter_wrapped_is_another. simpl. lia. }
    assert (Forall (λ r, FnRef_eqb (hook r) f = false)
              (registrationsOf event st2)) as Hfresh2.
    { unfold st2. rewrite registrationsOf_registerHook, sortBy_perm.
      apply Forall_app. split; [done|]. constructor; [|constructor].
      cbn [hook]. apply emitter_wrapped_is_another. simpl. lia. }
    unfold registrationsOf in Hfresh2.
    destruct (get event (hookRegistrations st2)) as [regs|]; [|done].
    simpl in Hfresh2. apply findIndex_None in Hfresh2. by rewrite Hfresh2.
  - unfold once, on.
    rewrite registrationsOf_registerHook, sortBy_perm.
    rewrite registrationsOf_registerHook, sortBy_perm.
    rewrite !fmap_app. simpl.
    rewrite <- (assoc_L (++)). simpl.
    rewrite <- Permutation_middle. apply perm_skip.
    by rewrite Permutation_app_comm.
Qed.

End EmitterRegistry.

Lemma emitter_on_then_off_restores_witness :
  (∀ e, HookableEventEmitter.registrationsOf e
          (HookableEventEmitter.off Js.message_before
             (HookableEventEmitter.UserFn 7)
             (HookableEventEmitter.on Js.message_before
                (HookableEventEmitter.UserFn 7) (Some 25)
                (Scenario.emitterWith 0 10 1 50)))
        = HookableEventEmitter.registrationsOf e (Scenario.emitterWith 0 10 1 50))
  ∧ HookableEventEmitter.nextHookId
      (HookableEventEmitter.off Js.message_before
         (HookableEventEmitter.UserFn 7)
         (HookableEventEmitter.on Js.message_before
            (HookableEventEmitter.UserFn 7) (Some 25)
            (Scenario.emitterWith 0 10 1 50)))
    = 5%nat.
Proof.
  apply (emitter_on_then_off_restores 0
           [HookableEventEmitter.Do
              (HookableEventEmitter.On Js.message_before
                 (HookableEventEmitter.UserFn 0) (Some 10));
            HookableEventEmitter.Do
              (HookableEventEmitter.On Js.message_before
                 (HookableEventEmitter.UserFn 1) (Some 50))]
           Js.message_before (HookableEventEmitter.UserFn 7) (Some 25)).
  vm_compute. repeat constructor.
Defined.

Lemma emitter_once_is_not_removed_by_off_witness :
  HookableEventEmitter.off Js.message_before (HookableEventEmitter.UserFn 7)
    (HookableEventEmitter.once Js.message_before
       (HookableEventEmitter.UserFn 7) (Some 25)
       (Scenario.emitterWith 0 10 1 50))
  = HookableEventEmitter.once Js.message_before
      (HookableEventEmitter.UserFn 7) (Some 25)
      (Scenario.emitterWith 0 10 1 50)
  ∧ HookableEventEmitter.hook
      <$> HookableEventEmitter.registrationsOf Js.message_before
            (HookableEventEmitter.once Js.message_before
               (HookableEventEmitter.UserFn 7) (Some 25)
               (Scenario.emitterWith 0 10 1 50))
    ≡ₚ HookableEventEmitter.OnceWrapper 4 Js.message_before
         (HookableEventEmitter.UserFn 7)
       :: HookableEventEmitter.ListenerOnce 5 Js.message_before
            (HookableEventEmitter.OnceWrapper 4 Js.message_before
               (HookableEventEmitter.UserFn 7))
       :: (HookableEventEmitter.hook
             <$> HookableEventEmitter.registrationsOf Js.message_before
                   (Scenario.emitterWith 0 10 1 50)).
Proof.
  apply (emitter_once_is_not_removed_by_off Js.message_before
           (HookableEventEmitter.UserFn 7) (Some 25)
           (Scenario.emitterWith 0 10 1 50)).
  vm_compute. repeat constructor.
Defined.

(** ** HookableEventEmitter: the dispatch *)

Section EmitterDispatchMore.

Import Js HookableEventEmitter.

Context {Payload : Type}.
Variable user : nat → Payload → HookRun Payload Op.

Lemma emitter_loop_outcome data arr fuel :
  ∀ i l res,
    Forall (λ inv, ∃ v, settled inv = inr v) (invoked l) →
    currentData l = replay data (invoked l) →
    forOf fuel arr (iteration user) i l = Some res →
    match res with
    | inr l' =>
        Forall (λ inv, ∃ v, settled inv = inr v) (invoked l')
        ∧ currentData l' = replay data (invoked l')
    | inl (e, l') =>
        e = ReferenceError "hookStartTime"
        ∧ ∃ tr inv err,
            invoked l' = tr ++ [inv]
            ∧ settled inv = inl err
            ∧ outcome (call user (hook (called inv)) (input inv)) = inl err
            ∧ Forall (λ inv, ∃ v, settled inv = inr v) tr
            ∧ input inv = replay data tr
            ∧ currentData l' = replay data tr
    end.
Proof.
  induction fuel as [|fuel IH]; intros i l res Hok Hdata Hrun; [done|].
  simpl in Hrun.
  destruct (arr l !! i) as [x|]; [|by simplify_eq].
  unfold iteration in Hrun at 1. unfold awaitCall in Hrun at 1.
  destruct (outcome (callWith user (fired (emitter l)) (hook x) (currentData l)))
    as [err|v] eqn:Hout.
  - simplify_eq. split; [done|]. simpl.
    eexists _, _, err. repeat split; try done. simpl.
    by eapply callWith_failure.
  - eapply IH; [| |exact Hrun]; simpl.
    + apply Forall_app. split; [done|]. repeat constructor. by eexists.
    + rewrite emitter_replay_snoc. simpl. by destruct v.
Qed.

(** X12. What the caller of [executeHooks] gets. When the promise resolves, no
    hook that was called failed, and the value is the payload threaded
    through the calls. When it rejects, the error is the ReferenceError of
    the [catch] block, never the error of the hook; the hook that failed is
    the last one that was called, and the hooks before it did not fail. So
    a failing hook always ends the dispatch. *)
Theorem emitter_dispatch_ends_at_first_failure fuel event data st res :
  executeHooks user fuel event data st = Some res →
  match res with
  | inr l =>
      Forall (λ inv, ∃ v, settled inv = inr v) (invoked l)
      ∧ currentData l = replay data (invoked l)
  | inl (e, l) =>
      e = ReferenceError "hookStartTime"
      ∧ ∃ tr inv err,
          invoked l = tr ++ [inv]
          ∧ settled inv = inl err
          ∧ outcome (call user (hook (called inv)) (input inv)) = inl err
          ∧ Forall (λ inv, ∃ v, settled inv = inr v) tr
          ∧ input inv = replay data tr
          ∧ currentData l = replay data tr
  end.
Proof.
  unfold executeHooks. intros Hrun.
  destruct (get event (hookRegistrations st)) as [[|r regs]|].
  - simplify_eq. simpl. by split.
  - eapply emitter_loop_outcome; [| |exact Hrun]; simpl; [constructor|done].
  - simplify_eq. simpl. by split.
Qed.

End EmitterDispatchMore.

Lemma emitter_dispatch_ends_at_first_failure_witness :
  ∃ l, HookableEventEmitter.executeHooks Scenario.hooks 3 Js.message_before
         "o"%string (Scenario.emitterWith 2 10 1 50)
       = Some (inl (Js.ReferenceError "hookStartTime", l))
    ∧ ∃ tr inv err,
        HookableEventEmitter.invoked l = tr ++ [inv]
        ∧ HookableEventEmitter.settled inv = inl err
        ∧ Js.outcome (HookableEventEmitter.call Scenario.hooks
                        (HookableEventEmitter.hook
                           (HookableEventEmitter.called inv))
                        (HookableEventEmitter.input inv)) = inl err
        ∧ Forall (λ inv, ∃ v, HookableEventEmitter.settled inv = inr v) tr
        ∧ HookableEventEmitter.input inv
          = HookableEventEmitter.replay "o"%string tr
        ∧ HookableEventEmitter.currentData l
          = HookableEventEmitter.replay "o"%string tr.
Proof.
  eexists. split; [vm_compute; reflexivity|].
  refine (proj2 (emitter_dispatch_ends_at_first_failure Scenario.hooks 3
                   Js.message_before "o"%string (Scenario.emitterWith 2 10 1 50)
                   (inl (_, _)) _)).
  vm_compute. reflexivity.
Defined.

(** ** HookableEventEmitter: hooks registered with once *)

Section EmitterOnce.

Import Js HookableEventEmitter.

Context {Payload : Type}.
Variable user : nat → Payload → HookRun Payload Op.

(** The two registrations that [once] files for an event without hooks. *)
Lemma once_alone event f p st :
  registrationsOf event st = [] →
  let r1 := {| event := event; hook := OnceWrapper (nextHookId st) event f;
               priority := if bool_decide (default 100 p = 0) then 100
                           else default 100 p;
               id := nextHookId st |} in
  let r2 := {| event := event;
               hook := ListenerOnce (S (nextHookId st)) event
                         (OnceWrapper (nextHookId st) event f);
               priority := 100; id := S (nextHookId st) |} in
  once event f p st
  = {| hookRegistrations :=
         set event (if default 100 p <=? 100 then [r1; r2] else [r2; r1])
           (hookRegistrations st);
       nextHookId := S (S (nextHookId st));
       fired := fired st; clock := clock st; pending := pending st |}.
Proof.
  intros Hempty. unfold once, on, registerHook, withRegistrations. simpl.
  rewrite emitter_get_set. unfold registrationsOf in Hempty. rewrite Hempty.
  simpl. rewrite emitter_set_set. f_equal. f_equal.
  case_bool_decide as H0; simpl; [by rewrite H0|done].
Qed.

Lemma emitter_awaitCall_onceWrapper n event k d st :
  pending st = [] →
  effects (user k d) = [] →
  0 ≤ settleAfter (user k d) →
  awaitCall user (OnceWrapper n event (UserFn k)) d st
  = (outcome (user k d),
     let st' := unregisterHook event (OnceWrapper n event (UserFn k)) st in
     {| hookRegistrations := hookRegistrations st';
        nextHookId := nextHookId st';
        fired := fired st';
        clock := clock st + settleAfter (user k d);
        pending := [] |}).
Proof.
  intros Hp He Hs. unfold awaitCall. simpl. rewrite He, Hp.
  unfold advance, dueOps, laterOps, schedule. simpl.
  rewrite (proj2 (Z.leb_le (clock st + 0) (clock st + settleAfter (user k d)))
             ltac:(lia)).
  simpl. f_equal.
  unfold unregisterHook. simpl.
  destruct (get event (hookRegistrations st)) as [regs|]; [|done].
  by destruct (findIndex _ regs).
Qed.

Lemma emitter_awaitCall_listenerOnce m n event k d st :
  pending st = [] →
  m ∉ fired st →
  effects (user k d) = [] →
  0 ≤ settleAfter (user k d) →
  awaitCall user (ListenerOnce m event (OnceWrapper n event (UserFn k))) d st
  = (outcome (user k d),
     let st' := unregisterHook event (OnceWrapper n event (UserFn k)) st in
     {| hookRegistrations := hookRegistrations st';
        nextHookId := nextHookId st';
        fired := m :: fired st';
        clock := clock st + settleAfter (user k d);
        pending := [] |}).
Proof.
  intros Hp Hm He Hs. unfold awaitCall. simpl.
  rewrite (bool_decide_eq_false_2 _ Hm). simpl. rewrite He, Hp.
  unfold advance, dueOps, laterOps, schedule. simpl.
  rewrite (proj2 (Z.leb_le (clock st + 0) (clock st + settleAfter (user k d)))
             ltac:(lia)).
  simpl. f_equal.
  unfold unregisterHook. simpl.
  destruct (get event (hookRegistrations st)) as [regs|]; [|done].
  by destruct (findIndex _ regs).
Qed.

Lemma emitter_awaitCall_spent m event f d st :
  pending st = [] →
  m ∈ fired st →
  awaitCall user (ListenerOnce m event f) d st
  = (inr None,
     {| hookRegistrations := hookRegistrations st;
        nextHookId := nextHookId st;
        fired := fired st;
        clock := clock st + 0;
        pending := [] |}).
Proof.
  intros Hp Hm. unfold awaitCall. simpl.
  rewrite (bool_decide_eq_true_2 _ Hm). simpl. rewrite Hp.
  done.
Qed.

Lemma emitter_iteration_settled r l v st' :
  awaitCall user (hook r) (currentData l) (emitter l) = (inr v, st') →
  iteration user r l
  = inr {| emitter := st'; currentData := default (currentData l) v;
           invoked := invoked l ++ [{| called := r; input := currentData l;
                                       settled := inr v |}] |}.
Proof. intros Hcall. unfold iteration. by rewrite Hcall. Qed.

(** A dispatch that finds one hook left to call. *)
Lemma executeHooks_one_call fuel event d st r rs l :
  (2 ≤ fuel)%nat →
  get event (hookRegistrations st) = Some (r :: rs) →
  iteration user r {| emitter := st; currentData := d; invoked := [] |} = inr l →
  length (registrationsOf event (emitter l)) = 1%nat →
  executeHooks user fuel event d st = Some (inr l).
Proof.
  intros Hfuel Hget Hit Hlen. destruct fuel as [|[|fuel]]; [lia|lia|].
  unfold executeHooks. rewrite Hget. cbn [forOf emitter]. rewrite Hget.
  cbn [default lookup list_lookup Datatypes.id]. rewrite Hit.
  fold (registrationsOf event (emitter l)).
  destruct (registrationsOf event (emitter l)) as [|r' [|r'' rs']]; done.
Qed.

(** X23. A hook registered with [once] on an event that has no other hook.
    [once] files two registrations: hook-n for its own wrapper, and
    hook-(n+1), with priority 100, for the wrapper of the base class.
    With a priority of at most 100, hook-n comes first: the first dispatch
    calls it, the function of the hook runs, and the wrapper takes itself
    out of the array, so that hook-(n+1) is not reached; the second dispatch
    calls hook-(n+1), which runs the function of the hook a second time;
    the third dispatch calls hook-(n+1), which does nothing any more. With a
    priority above 100, hook-(n+1) comes first: the first dispatch calls
    it, the function runs, and the wrapper of [once] takes hook-n out of
    the array; the second dispatch calls hook-(n+1), which does nothing.
    In both cases hook-(n+1) stays registered. (The function of the hook
    performs no operation on the emitter and does not fail.) *)
Theorem emitter_once_hook_alone fuel event k p d1 d2 d3 st :
  pending st = [] →
  registrationsOf event st = [] →
  S (nextHookId st) ∉ fired st →
  (∀ d, effects (user k d) = [] ∧ 0 ≤ settleAfter (user k d)
        ∧ ∃ v, outcome (user k d) = inr v) →
  (2 ≤ fuel)%nat →
  let trace (l : Loop) :=
    (λ inv, (id (called inv), input inv, settled inv)) <$> invoked l in
  (default 100 p ≤ 100 →
   ∃ l1 l2 l3,
     executeHooks user fuel event d1 (once event (UserFn k) p st)
     = Some (inr l1)
     ∧ executeHooks user fuel event d2 (emitter l1) = Some (inr l2)
     ∧ executeHooks user fuel event d3 (emitter l2) = Some (inr l3)
     ∧ trace l1 = [(nextHookId st, d1, outcome (user k d1))]
     ∧ trace l2 = [(S (nextHookId st), d2, outcome (user k d2))]
     ∧ trace l3 = [(S (nextHookId st), d3, inr None)]
     ∧ currentData l3 = d3
     ∧ getHookInfo event (emitter l3) = [(S (nextHookId st), 100)])
  ∧ (100 < default 100 p →
     ∃ l1 l2,
       executeHooks user fuel event d1 (once event (UserFn k) p st)
       = Some (inr l1)
       ∧ executeHooks user fuel event d2 (emitter l1) = Some (inr l2)
       ∧ trace l1 = [(S (nextHookId st), d1, outcome (user k d1))]
       ∧ trace l2 = [(S (nextHookId st), d2, inr None)]
       ∧ currentData l2 = d2
       ∧ getHookInfo event (emitter l2) = [(S (nextHookId st), 100)]).
Proof.
  intros Hp Hempty Hfresh Huser Hfuel trace. unfold trace.
  rewrite (once_alone event (UserFn k) p st Hempty).
  set (n := nextHookId st) in *.
  set (w := OnceWrapper n event (UserFn k)).
  set (r1 := {| event := event; hook := w;
                priority := if bool_decide (default 100 p = 0) then 100
                            else default 100 p;
                id := n |}).
  set (r2 := {| event := event; hook := ListenerOnce (S n) event w;
                priority := 100; id := S n |}).
  set (m := hookRegistrations st).
  destruct (Huser d1) as (He1 & Hs1 & v1 & Ho1).
  destruct (Huser d2) as (He2 & Hs2 & v2 & Ho2).
  assert (FnRef_eqb w w = true) as Hww by apply emitter_FnRef_eqb_refl.
  assert (FnRef_eqb (ListenerOnce (S n) event w) w = false) as Hlw.
  { apply emitter_wrapped_is_another. simpl. lia. }
  split; intros Hprio.
  - rewrite (proj2 (Z.leb_le _ _) Hprio).
    set (st1 := {| hookRegistrations := set event [r2] m;
                   nextHookId := S (S n); fired := fired st;
                   clock := clock st + settleAfter (user k d1);
                   pending := [] |}).
    set (st2 := {| hookRegistrations := set event [r2] m;
                   nextHookId := S (S n); fired := S n :: fired st;
                   clock := clock st1 + settleAfter (user k d2);
                   pending := [] |}).
    set (st3 := {| hookRegistrations := set event [r2] m;
                   nextHookId := S (S n); fired := S n :: fired st;
                   clock := clock st2 + 0;
                   pending := [] |}).
    exists {| emitter := st1; currentData := default d1 v1;
              invoked := [{| called := r1; input := d1; settled := inr v1 |}] |},
           {| emitter := st2; currentData := default d2 v2;
              invoked := [{| called := r2; input := d2; settled := inr v2 |}] |},
           {| emitter := st3; currentData := d3;
              invoked := [{| called := r2; input := d3; settled := inr None |}] |}.
    rewrite Ho1, Ho2. cbn [emitter].
    split; [|split; [|split]].
    + apply (executeHooks_one_call _ _ _ _ r1 [r2]); [done| | |].
      * apply emitter_get_set.
      * apply emitter_iteration_settled. cbn [hook r1 emitter currentData].
        unfold w. rewrite emitter_awaitCall_onceWrapper by done. rewrite Ho1.
        f_equal. unfold unregisterHook. cbn [hookRegistrations].
        rewrite emitter_get_set. cbn [findIndex hook r1]. fold w. rewrite Hww.
        cbn. by rewrite emitter_set_set.
      * cbn. unfold registrationsOf. cbn. by rewrite emitter_get_set.
    + apply (executeHooks_one_call _ _ _ _ r2 []); [done| | |].
      * apply emitter_get_set.
      * apply emitter_iteration_settled. cbn [hook r2 emitter currentData].
        unfold w. rewrite emitter_awaitCall_listenerOnce by done. rewrite Ho2.
        f_equal. unfold unregisterHook. cbn [hookRegistrations st1].
        rewrite emitter_get_set. cbn [findIndex hook r2]. fold w.
        by rewrite Hlw.
      * cbn. unfold registrationsOf. cbn. by rewrite emitter_get_set.
    + apply (executeHooks_one_call _ _ _ _ r2 []); [done| | |].
      * apply emitter_get_set.
      * apply (emitter_iteration_settled r2
                 {| emitter := st2; currentData := d3; invoked := [] |} None st3).
        cbn [hook r2 emitter currentData].
        rewrite emitter_awaitCall_spent; [done|done|]. cbn. apply list_elem_of_here.
      * cbn. unfold registrationsOf. cbn. by rewrite emitter_get_set.
    + cbn. repeat split; try done.
      unfold getHookInfo. cbn. by rewrite emitter_get_set.
  - rewrite (proj2 (Z.leb_gt _ _) Hprio).
    set (st1 := {| hookRegistrations := set event [r2] m;
                   nextHookId := S (S n); fired := S n :: fired st;
                   clock := clock st + settleAfter (user k d1);
                   pending := [] |}).
    set (st2 := {| hookRegistrations := set event [r2] m;
                   nextHookId := S (S n); fired := S n :: fired st;
                   clock := clock st1 + 0;
                   pending := [] |}).
    exists {| emitter := st1; currentData := default d1 v1;
              invoked := [{| called := r2; input := d1; settled := inr v1 |}] |},
           {| emitter := st2; currentData := d2;
              invoked := [{| called := r2; input := d2; settled := inr None |}] |}.
    rewrite Ho1. cbn [emitter].
    split; [|split].
    + apply (executeHooks_one_call _ _ _ _ r2 [r1]); [done| | |].
      * apply emitter_get_set.
      * apply emitter_iteration_settled. cbn [hook r2 emitter currentData].
        unfold w. rewrite emitter_awaitCall_listenerOnce by done. rewrite Ho1.
        f_equal. unfold unregisterHook. cbn [hookRegistrations].
        rewrite emitter_get_set. cbn [findIndex hook r1 r2]. fold w.
        rewrite Hlw, Hww. cbn. by rewrite emitter_set_set.
      * cbn. unfold registrationsOf. cbn. by rewrite emitter_get_set.
    + apply (executeHooks_one_call _ _ _ _ r2 []); [done| | |].
      * apply emitter_get_set.
      * apply (emitter_iteration_settled r2
                 {| emitter := st1; currentData := d2; invoked := [] |} None st2).
        cbn [hook r2 emitter currentData].
        rewrite emitter_awaitCall_spent; [done|done|]. cbn. apply list_elem_of_here.
      * cbn. unfold registrationsOf. cbn. by rewrite emitter_get_set.
    + cbn. repeat split; try done.
      unfold getHookInfo. cbn. by rewrite emitter_get_set.
Qed.

End EmitterOnce.

Lemma emitter_once_hook_alone_witness :
  (∃ l1 l2 l3,
     HookableEventEmitter.executeHooks Scenario.hooks 2 Js.message_before
       "a"%string
       (HookableEventEmitter.once Js.message_before
          (HookableEventEmitter.UserFn 0) (Some 10)
          (HookableEventEmitter.create 0))
     = Some (inr l1)
     ∧ HookableEventEmitter.executeHooks Scenario.hooks 2 Js.message_before
         "b"%string (HookableEventEmitter.emitter l1) = Some (inr l2)
     ∧ HookableEventEmitter.executeHooks Scenario.hooks 2 Js.message_before
         "c"%string (HookableEventEmitter.emitter l2) = Some (inr l3)
     ∧ (λ inv, (HookableEventEmitter.id (HookableEventEmitter.called inv),
                HookableEventEmitter.input inv,
                HookableEventEmitter.settled inv))
         <$> HookableEventEmitter.invoked l1
       = [(2%nat, "a"%string, inr (Some "aX"%string))]
     ∧ (λ inv, (HookableEventEmitter.id (HookableEventEmitter.called inv),
                HookableEventEmitter.input inv,
                HookableEventEmitter.settled inv))
         <$> HookableEventEmitter.invoked l2
       = [(3%nat, "b"%string, inr (Some "bX"%string))]
     ∧ (λ inv, (HookableEventEmitter.id (HookableEventEmitter.called inv),
                HookableEventEmitter.input inv,
                HookableEventEmitter.settled inv))
         <$> HookableEventEmitter.invoked l3
       = [(3%nat, "c"%string, inr None)]
     ∧ HookableEventEmitter.currentData l3 = "c"%string
     ∧ HookableEventEmitter.getHookInfo Js.message_before
         (HookableEventEmitter.emitter l3) = [(3%nat, 100)])
  ∧ (∃ l1 l2,
       HookableEventEmitter.executeHooks Scenario.hooks 2 Js.message_before
         "a"%string
         (HookableEventEmitter.once Js.message_before
            (HookableEventEmitter.UserFn 0) (Some 200)
            (HookableEventEmitter.create 0))
       = Some (inr l1)
       ∧ HookableEventEmitter.executeHooks Scenario.hooks 2 Js.message_before
           "b"%string (HookableEventEmitter.emitter l1) = Some (inr l2)
       ∧ (λ inv, (HookableEventEmitter.id (HookableEventEmitter.called inv),
                  HookableEventEmitter.input inv,
                  HookableEventEmitter.settled inv))
           <$> HookableEventEmitter.invoked l1
         = [(3%nat, "a"%string, inr (Some "aX"%string))]
       ∧ (λ inv, (HookableEventEmitter.id (HookableEventEmitter.called inv),
                  HookableEventEmitter.input inv,
                  HookableEventEmitter.settled inv))
           <$> HookableEventEmitter.invoked l2
         = [(3%nat, "b"%string, inr None)]
       ∧ HookableEventEmitter.currentData l2 = "b"%string
       ∧ HookableEventEmitter.getHookInfo Js.message_before
           (HookableEventEmitter.emitter l2) = [(3%nat, 100)]).
Proof.
  split.
  - apply (proj1 (emitter_once_hook_alone Scenario.hooks 2 Js.message_before
                    0 (Some 10) "a"%string "b"%string "c"%string
                    (HookableEventEmitter.create 0)
                    eq_refl eq_refl (not_elem_of_nil _)
                    (λ d, conj eq_refl
                            (conj (Z.le_refl 0) (ex_intro _ _ eq_refl)))
                    (le_n 2))).
    simpl. lia.
  - apply (proj2 (emitter_once_hook_alone Scenario.hooks 2 Js.message_before
                    0 (Some 200) "a"%string "b"%string "c"%string
                    (HookableEventEmitter.create 0)
                    eq_refl eq_refl (not_elem_of_nil _)
                    (λ d, conj eq_refl
                            (conj (Z.le_refl 0) (ex_intro _ _ eq_refl)))
                    (le_n 2))).
    simpl. lia.
Defined.

(** ** StreamBuffer: the hint of the hybrid strategy, batches, the timer *)

Section StreamBufferMore.

Import Js BufferFlushEvent StreamBuffer.

Lemma checkFlush_fields now b b' :
  config b = config b' → chunks b = chunks b' → createdAt b = createdAt b' →
  lastChunkTime b = lastChunkTime b' → checkFlush now b = checkFlush now b'.
Proof. intros H1 H2 H3 H4. unfold checkFlush. by rewrite H1, H2, H3, H4. Qed.

(** X13. The check of the strategy hybrid in [addChunks] and [addChunk],
    which push the chunks, store the time of the last chunk ([pushed]) and
    then read the clock again in [shouldFlush] ([checked]).
    When less than half of maxTime has passed between the two readings,
    the decision is to flush exactly when the count after the append has
    reached maxSize (reason: size) or the age of the buffer has reached
    maxTime (reason: hybrid): the third test of the strategy, a buffer
    that is 70 % full and has been quiet for half of maxTime, does not
    decide. It decides, with the reason hybrid, when the first two tests
    fail, the buffer is 70 % full and the clock has moved on by half of
    maxTime or more between the readings. *)
Theorem hybrid_strategy_hint pushed checked cs b :
  strategy (config b) = Hybrid →
  let n := Z.of_nat (length (chunks b)) + Z.of_nat (length cs) in
  let plain :=
    if maxSize (config b) <=? n then (true, Some BySize)
    else if maxTime (config b) <=? checked - createdAt b
         then (true, Some ByHybrid)
         else (false, None) in
  (2 * (checked - pushed) < maxTime (config b) →
   checkFlush checked (push pushed cs b) = plain)
  ∧ (n < maxSize (config b) → checked - createdAt b < maxTime (config b) →
     7 * maxSize (config b) ≤ 10 * n →
     maxTime (config b) ≤ 2 * (checked - pushed) →
     checkFlush checked (push pushed cs b) = (true, Some ByHybrid)).
Proof.
  intros Hs. simpl. unfold checkFlush. simpl. rewrite Hs. simpl.
  rewrite length_app, Nat2Z.inj_add. split.
  - intros Hquick.
    destruct (maxSize (config b) <=? _); [done|].
    destruct (maxTime (config b) <=? checked - createdAt b); [done|].
    replace (maxTime (config b) <=? 2 * (checked - pushed)) with false;
      [by rewrite andb_false_r|].
    symmetry. apply Z.leb_gt. lia.
  - intros Hsize Hage Hfull Hquiet.
    rewrite (proj2 (Z.leb_gt _ _) Hsize), (proj2 (Z.leb_gt _ _) Hage).
    by rewrite (proj2 (Z.leb_le _ _) Hfull), (proj2 (Z.leb_le _ _) Hquiet).
Qed.

Lemma addChunk_once now x b :
  isActive b = true →
  let b' := (addChunk now x b).2 in
  isActive b' = true ∧ config b' = config b ∧ chunks b' = chunks b ++ [x]
  ∧ createdAt b' = createdAt b
  ∧ totalChunksAdded b' = totalChunksAdded b + 1
  ∧ (length (immediates b) ≤ length (immediates b'))%nat.
Proof.
  intros Ha. unfold addChunk. rewrite Ha. simpl. repeat split; try done.
  destruct (checkFlush now (push now [x] b)) as [[|] [reason|]];
    rewrite ?length_app; simpl; lia.
Qed.

Lemma addChunk_repeated now cs b :
  isActive b = true →
  let b' := foldl (λ b x, (addChunk now x b).2) b cs in
  isActive b' = true ∧ config b' = config b ∧ chunks b' = chunks b ++ cs
  ∧ createdAt b' = createdAt b
  ∧ totalChunksAdded b' = totalChunksAdded b + Z.of_nat (length cs)
  ∧ (length (immediates b) ≤ length (immediates b'))%nat.
Proof.
  revert b. induction cs as [|x cs IH]; intros b Ha; cbn [foldl].
  - rewrite app_nil_r. cbn [length]. repeat split; first [done | lia].
  - destruct (addChunk_once now x b Ha) as (S1 & S2 & S3 & S4 & S5 & S6).
    set (b1 := (addChunk now x b).2) in *. clearbody b1.
    destruct (IH b1 S1) as (H1 & H2 & H3 & H4 & H5 & H6).
    rewrite H1, H2, H3, H4, H5, S2, S3, S4, S5, <- (assoc_L (++)).
    cbn [length]. repeat split; try done; lia.
Qed.

(** X14. [addChunks] with a batch that is not empty leaves the chunk list, the
    counter, the time of the last chunk and the returned hint as adding
    the chunks one by one with [addChunk] (at the same time) does. It asks
    for at most one flush, where the single calls may each ask for one. *)
Theorem addChunks_agrees_with_repeated_addChunk now cs c b :
  let one := addChunk now c (foldl (λ b x, (addChunk now x b).2) b cs) in
  let all := addChunks now (cs ++ [c]) b in
  all.1 = one.1
  ∧ chunks all.2 = chunks one.2
  ∧ totalChunksAdded all.2 = totalChunksAdded one.2
  ∧ lastChunkTime all.2 = lastChunkTime one.2
  ∧ (length (immediates all.2) ≤ length (immediates b) + 1)%nat
  ∧ (length (immediates all.2) ≤ length (immediates one.2))%nat.
Proof.
  simpl. destruct (isActive b) eqn:Ha.
  - destruct (addChunk_repeated now cs b Ha) as (H1 & H2 & H3 & H4 & H5 & H6).
    simpl in *.
    set (b' := foldl (λ b x, (addChunk now x b).2) b cs) in *.
    unfold addChunks, addChunk. rewrite Ha, H1. simpl.
    assert (checkFlush now (push now (cs ++ [c]) b)
            = checkFlush now (push now [c] b')) as Hcheck.
    { apply checkFlush_fields; simpl; try done.
      by rewrite H3, (assoc_L (++)). }
    rewrite Hcheck, H3, H5, !length_app, (assoc_L (++)). simpl.
    repeat split; try done.
    + f_equal. lia.
    + lia.
    + destruct (checkFlush now (push now [c] b')) as [[|] [reason|]];
        rewrite ?length_app; simpl; lia.
    + destruct (checkFlush now (push now [c] b')) as [[|] [reason|]];
        rewrite ?length_app; simpl; lia.
  - assert (foldl (λ b x, (addChunk now x b).2) b cs = b) as ->.
    { induction cs as [|x cs IH]; simpl; [done|].
      unfold addChunk at 2. rewrite Ha. simpl. exact IH. }
    unfold addChunks, addChunk. rewrite Ha. simpl. repeat split; try done; lia.
Qed.

Lemma flush_private fuel reason now b :
  privateEmitter b →
  ∃ res b', flush fuel reason now b = Some (res, b')
    ∧ chunks b = chunksToFlush b ++ chunks b'
    ∧ privateEmitter b'
    ∧ flushTimeout b' = flushTimeout b
    ∧ isActive b' = isActive b.
Proof.
  intros Hpriv. unfold flush, chunksToFlush.
  destruct (negb (isActive b) || bool_decide (length (chunks b) = 0%nat));
    [by eexists _, _|].
  destruct (onFlush b) as [handler|].
  - destruct (handler _) as [elapsed [e|cs]]; eexists _, _;
      (split; [reflexivity|]); simpl; by rewrite app_nil_r.
  - rewrite processBufferFlush_private by exact Hpriv.
    eexists _, _. split; [reflexivity|]. simpl. by rewrite app_nil_r.
Qed.

Lemma flush_keeps_timer fuel reason now b res b' :
  flush fuel reason now b = Some (res, b') →
  flushTimeout b' = flushTimeout b ∧ isActive b' = isActive b.
Proof. unfold flush. intros H. repeat case_match; by simplify_eq. Qed.

Lemma act_keeps_timer_off fuel a b b' :
  isResume a = false → flushTimeout b = None → act fuel a b = Some b' →
  flushTimeout b' = None.
Proof.
  intros Hres Hoff.
  destruct a as [now c|now cs|reason now|now|now|now| | |now|]; simpl;
    try done.
  - intros [= <-]. unfold addChunk. by case_match.
  - intros [= <-]. unfold addChunks. by case_match.
  - destruct (flush fuel reason now b) as [[res b1]|] eqn:Hf; [|done].
    intros [= <-]. apply flush_keeps_timer in Hf as [-> _]. done.
  - unfold drain. destruct (flush fuel Manual now b) as [[res b1]|] eqn:Hf; [|done].
    intros [= <-]. apply flush_keeps_timer in Hf as [-> _]. done.
  - unfold runImmediate. destruct (immediates b) as [|reason rest].
    + by intros [= <-].
    + match goal with
      | |- context [flush fuel reason now ?x] =>
          destruct (flush fuel reason now x) as [[res b1]|] eqn:Hf; [|done]
      end.
      intros [= <-]. apply flush_keeps_timer in Hf as [-> _]. done.
  - unfold fireFlushTimer. rewrite Hoff. by intros [= <-].
  - by intros [= <-].
  - by intros [= <-].
  - by intros [= <-].
Qed.

Lemma run_keeps_timer_off fuel actions r r' :
  forallb (λ a, negb (isResume a)) actions = true →
  flushTimeout (buffer r) = None → run fuel actions r = Some r' →
  flushTimeout (buffer r') = None.
Proof.
  revert r. induction actions as [|a actions IH]; intros r Hall Hoff; simpl.
  - by intros [= <-].
  - simpl in Hall. apply andb_true_iff in Hall as [Ha Hall].
    apply negb_true_iff in Ha.
    destruct (act fuel a (buffer r)) as [b'|] eqn:Hact; [|done].
    apply IH; [done|]. simpl. by eapply act_keeps_timer_off.
Qed.

(** X16. The flush timer is armed by the constructor and by [resume] only, and
    it is a one-shot timer: once it has fired, no call other than [resume]
    arms it again, so no timer is pending afterwards and adding chunks to
    the buffer later never leads to another flush by the timer. *)
Theorem flush_timer_fires_once fuel now due actions b b1 r :
  flushTimeout b = Some due → due ≤ now →
  fireFlushTimer fuel now b = Some b1 →
  forallb (λ a, negb (isResume a)) actions = true →
  run fuel actions (begin b1) = Some r →
  flushTimeout (buffer r) = None
  ∧ ∀ fuel' t, fireFlushTimer fuel' t (buffer r) = Some (buffer r).
Proof.
  intros Hdue Hnow Hfire Hall Hrun.
  assert (flushTimeout b1 = None) as Hoff.
  { unfold fireFlushTimer in Hfire. rewrite Hdue in Hfire.
    rewrite (proj2 (Z.leb_le _ _) Hnow) in Hfire.
    destruct (isActive _ && _).
    - destruct (flush fuel ByTime now _) as [[res b']|] eqn:Hf; [|done].
      simpl in Hfire. simplify_eq.
      by apply flush_keeps_timer in Hf as [-> _].
    - by simplify_eq. }
  assert (flushTimeout (buffer r) = None) as Hend
    by exact (run_keeps_timer_off fuel actions (begin b1) r Hall Hoff Hrun).
  split; [done|]. intros fuel' t. unfold fireFlushTimer. by rewrite Hend.
Qed.

Lemma act_inactive fuel a b :
  isActive b = false → isResume a = false → isClear a = false →
  ∃ b', act fuel a b = Some b' ∧ chunks b' = chunks b ∧ isActive b' = false
    ∧ entering a b = [] ∧ leaving a b = [].
Proof.
  intros Ha Hres Hclear.
  destruct a as [now c|now cs|reason now|now|now|now| | |now|]; simpl;
    try done; unfold chunksToFlush; rewrite ?Ha; simpl.
  - unfold addChunk. rewrite Ha. by eexists.
  - unfold addChunks. rewrite Ha. by eexists.
  - rewrite flush_noop by (by left). by eexists.
  - unfold drain. rewrite flush_noop by (by left). by eexists.
  - unfold runImmediate. destruct (immediates b) as [|reason rest].
    + by eexists.
    + rewrite flush_noop by (by left). simpl. by eexists.
  - unfold fireFlushTimer. destruct (flushTimeout b) as [due|]; [|by eexists].
    destruct (due <=? now); [|by eexists].
    simpl. rewrite Ha. simpl. by eexists.
  - by eexists.
Qed.

(** X17. A paused buffer ignores additions and flushes. Whatever sequence
    of [addChunk], [addChunks], [flush], [drain] and [pause] calls is made
    on it, and whenever a flush that was scheduled before the pause or the
    timer runs, every call returns, the buffer accepts no chunk, hands
    none to the flush processing and holds the chunks it held before.
    [resume] then makes the buffer active again with these chunks, and
    under the strategies time and hybrid sets the timer with the delay
    maxTime, which [setTimeout] replaces by 1 ms when it is below 1 or
    above 2^31-1. *)
Theorem paused_buffer_is_inert fuel actions now b :
  isActive b = false →
  forallb (λ a, negb (isResume a) && negb (isClear a)) actions = true →
  ∃ r, run fuel actions (begin b) = Some r
    ∧ chunks (buffer r) = chunks b
    ∧ isActive (buffer r) = false
    ∧ entered r = [] ∧ left r = []
    ∧ chunks (resume now (buffer r)) = chunks b
    ∧ isActive (resume now (buffer r)) = true
    ∧ (usesTimer (config (buffer r)) = true →
       flushTimeout (resume now (buffer r))
       = Some (now + timerDelay (maxTime (config (buffer r))))).
Proof.
  intros Ha Hall.
  assert (∀ r0, isActive (buffer r0) = false →
            ∃ r, run fuel actions r0 = Some r
              ∧ chunks (buffer r) = chunks (buffer r0)
              ∧ isActive (buffer r) = false
              ∧ entered r = entered r0 ∧ left r = left r0) as Hgen.
  { induction actions as [|a actions IH]; intros r0 Ha0; simpl.
    - by eexists.
    - simpl in Hall. apply andb_true_iff in Hall as [Hhead Hall].
      apply andb_true_iff in Hhead as [Hres Hclear].
      apply negb_true_iff in Hres, Hclear.
      destruct (act_inactive fuel a (buffer r0) Ha0 Hres Hclear)
        as (b' & -> & Hc & Ha' & -> & ->).
      destruct (IH Hall {| entered := entered r0 ++ []; left := left r0 ++ [];
                           buffer := b' |} Ha')
        as (r & Hrun & H1 & H2 & H3 & H4).
      exists r. simpl in *. rewrite !app_nil_r in *.
      repeat split; try done. congruence. }
  destruct (Hgen (begin b) Ha) as (r & Hrun & H1 & H2 & H3 & H4).
  exists r. unfold resume. rewrite H2. simpl.
  repeat split; try done. intros Ht. by rewrite Ht.
Qed.

Lemma withChunks_same b : withChunks (chunks b) b = b.
Proof. by destruct b. Qed.

(** X18. [getChunkAt] and [removeChunkAt] agree on the indices of the array:
    the chunk that is returned is the chunk that is removed. They differ
    below 0: [getChunkAt] returns nothing, while [removeChunkAt] follows
    [splice], counts the index from the end and removes a chunk of a
    buffer that is not empty. From the length on, both return nothing and
    the buffer is left as it is. *)
Theorem removeChunkAt_follows_splice index b :
  let len := Z.of_nat (length (chunks b)) in
  (0 ≤ index < len →
   (removeChunkAt index b).1 = getChunkAt index b
   ∧ is_Some (getChunkAt index b)
   ∧ chunks (removeChunkAt index b).2 = delete (Z.to_nat index) (chunks b))
  ∧ (len ≤ index →
     getChunkAt index b = None ∧ removeChunkAt index b = (None, b))
  ∧ (index < 0 → 0 < len →
     getChunkAt index b = None
     ∧ (removeChunkAt index b).1
       = chunks b !! Z.to_nat (Z.max (len + index) 0)
     ∧ is_Some (removeChunkAt index b).1
     ∧ Z.of_nat (length (chunks (removeChunkAt index b).2)) = len - 1).
Proof.
  simpl. unfold removeChunkAt, getChunkAt. split; [|split].
  - intros [H0 Hlen].
    rewrite (proj2 (Z.ltb_ge _ _) H0), Z.min_l by lia. simpl.
    repeat split; try done. apply lookup_lt_is_Some_2. lia.
  - intros Hlen.
    assert ((index <? 0) = false) as -> by (apply Z.ltb_ge; lia).
    rewrite Z.min_r by lia. rewrite Nat2Z.id.
    assert (chunks b !! Z.to_nat index = None) as ->
      by (apply lookup_ge_None; lia).
    assert (chunks b !! length (chunks b) = None) as ->
      by (apply lookup_ge_None; lia).
    split; [done|]. f_equal.
    rewrite delete_take_drop, take_ge, drop_ge, app_nil_r by lia.
    apply withChunks_same.
  - intros Hneg Hlen.
    rewrite (proj2 (Z.ltb_lt _ _) Hneg). simpl.
    assert (Z.to_nat (Z.max (Z.of_nat (length (chunks b)) + index) 0)
            < length (chunks b))%nat as Hin by lia.
    repeat split; try done.
    + by apply lookup_lt_is_Some_2.
    + rewrite length_delete by (by apply lookup_lt_is_Some_2). lia.
Qed.

End StreamBufferMore.

Lemma hybrid_strategy_hint_witness :
  StreamBuffer.checkFlush 151
    (StreamBuffer.push 150 [Scenario.chunk "h" 7]
       (Scenario.newBuffer 10 100 BufferFlushEvent.Hybrid))
  = (true, Some BufferFlushEvent.ByHybrid)
  ∧ StreamBuffer.checkFlush 1
      (StreamBuffer.push 0
         [Scenario.chunk "a" 0; Scenario.chunk "b" 1; Scenario.chunk "c" 2;
          Scenario.chunk "d" 3; Scenario.chunk "e" 4; Scenario.chunk "f" 5;
          Scenario.chunk "g" 6]
         (Scenario.newBuffer 10 2 BufferFlushEvent.Hybrid))
    = (true, Some BufferFlushEvent.ByHybrid).
Proof.
  split.
  - apply (proj1 (hybrid_strategy_hint 150 151 [Scenario.chunk "h" 7]
                    (Scenario.newBuffer 10 100 BufferFlushEvent.Hybrid)
                    eq_refl)).
    vm_compute. reflexivity.
  - apply (proj2 (hybrid_strategy_hint 0 1
                    [Scenario.chunk "a" 0; Scenario.chunk "b" 1;
                     Scenario.chunk "c" 2; Scenario.chunk "d" 3;
                     Scenario.chunk "e" 4; Scenario.chunk "f" 5;
                     Scenario.chunk "g" 6]
                    (Scenario.newBuffer 10 2 BufferFlushEvent.Hybrid)
                    eq_refl));
      vm_compute; first [reflexivity | discriminate].
Defined.

Lemma flush_timer_fires_once_witness :
  ∃ b1 r,
    StreamBuffer.fireFlushTimer 1 100
      (Scenario.add 10 "a" 0 (Scenario.newBuffer 5 100 BufferFlushEvent.Time))
    = Some b1
    ∧ StreamBuffer.run 1 [StreamBuffer.AddChunk 150 (Scenario.chunk "b" 1)]
        (StreamBuffer.begin b1) = Some r
    ∧ StreamBuffer.chunks (StreamBuffer.buffer r) = [Scenario.chunk "b" 1]
    ∧ StreamBuffer.flushTimeout (StreamBuffer.buffer r) = None
    ∧ ∀ fuel' t, StreamBuffer.fireFlushTimer fuel' t (StreamBuffer.buffer r)
                 = Some (StreamBuffer.buffer r).
Proof.
  eexists _, _. split; [vm_compute; reflexivity|].
  split; [vm_compute; reflexivity|]. split; [reflexivity|].
  eapply (flush_timer_fires_once 1 100 100
            [StreamBuffer.AddChunk 150 (Scenario.chunk "b" 1)]
            (Scenario.add 10 "a" 0
               (Scenario.newBuffer 5 100 BufferFlushEvent.Time))).
  - reflexivity.
  - lia.
  - vm_compute. reflexivity.
  - reflexivity.
  - vm_compute. reflexivity.
Defined.

Lemma paused_buffer_is_inert_witness :
  ∃ r, StreamBuffer.run 1
         [StreamBuffer.RunImmediate 11;
          StreamBuffer.AddChunk 12 (Scenario.chunk "b" 1);
          StreamBuffer.FireFlushTimer 100;
          StreamBuffer.Drain 120]
         (StreamBuffer.begin Scenario.pausedBuffer) = Some r
    ∧ StreamBuffer.chunks (StreamBuffer.buffer r)
      = StreamBuffer.chunks Scenario.pausedBuffer
    ∧ StreamBuffer.isActive (StreamBuffer.buffer r) = false
    ∧ StreamBuffer.entered r = [] ∧ StreamBuffer.left r = []
    ∧ StreamBuffer.chunks (StreamBuffer.resume 200 (StreamBuffer.buffer r))
      = StreamBuffer.chunks Scenario.pausedBuffer
    ∧ StreamBuffer.isActive (StreamBuffer.resume 200 (StreamBuffer.buffer r))
      = true
    ∧ (StreamBuffer.usesTimer (StreamBuffer.config (StreamBuffer.buffer r))
       = true →
       StreamBuffer.flushTimeout
         (StreamBuffer.resume 200 (StreamBuffer.buffer r))
       = Some (200 + Js.timerDelay
                       (BufferFlushEvent.maxTime
                          (StreamBuffer.config (StreamBuffer.buffer r))))).
Proof.
  apply (paused_buffer_is_inert 1 _ 200 Scenario.pausedBuffer).
  - reflexivity.
  - reflexivity.
Defined.

Lemma removeChunkAt_follows_splice_witness :
  ((StreamBuffer.removeChunkAt 1 Scenario.twoChunks).1
   = StreamBuffer.getChunkAt 1 Scenario.twoChunks
   ∧ is_Some (StreamBuffer.getChunkAt 1 Scenario.twoChunks)
   ∧ StreamBuffer.chunks (StreamBuffer.removeChunkAt 1 Scenario.twoChunks).2
     = delete (Z.to_nat 1) (StreamBuffer.chunks Scenario.twoChunks))
  ∧ (StreamBuffer.getChunkAt 2 Scenario.twoChunks = None
     ∧ StreamBuffer.removeChunkAt 2 Scenario.twoChunks
       = (None, Scenario.twoChunks))
  ∧ (StreamBuffer.getChunkAt (-1) Scenario.twoChunks = None
     ∧ (StreamBuffer.removeChunkAt (-1) Scenario.twoChunks).1
       = StreamBuffer.chunks Scenario.twoChunks
           !! Z.to_nat
                (Z.max (Z.of_nat (length (StreamBuffer.chunks Scenario.twoChunks))
                        + -1) 0)
     ∧ is_Some (StreamBuffer.removeChunkAt (-1) Scenario.twoChunks).1
     ∧ Z.of_nat (length (StreamBuffer.chunks
                           (StreamBuffer.removeChunkAt (-1) Scenario.twoChunks).2))
       = Z.of_nat (length (StreamBuffer.chunks Scenario.twoChunks)) - 1).
Proof.
  split; [|split].
  - apply (proj1 (removeChunkAt_follows_splice 1 Scenario.twoChunks)).
    vm_compute. by split.
  - apply (proj1 (proj2 (removeChunkAt_follows_splice 2 Scenario.twoChunks))).
    vm_compute. discriminate.
  - apply (proj2 (proj2 (removeChunkAt_follows_splice (-1) Scenario.twoChunks))).
    + lia.
    + vm_compute. reflexivity.
Defined.

(** ** BufferManager: routing of chunks, flushing all buffers *)

Section BufferManagerMore.

Import Js BufferManager.

(** An entry after [getBuffer] and after the buffer object has changed. *)
Lemma touch_get now k m :
  touch now k m
  = (buffer <$> get k m, (touch now k m).2)
  ∧ get k (touch now k m).2
    = (λ v, {| id := id v; buffer := buffer v; createdAt := createdAt v;
               lastActivity := now; sequenceId := sequenceId v |}) <$> get k m
  ∧ (∀ k', k' ≠ k → get k' (touch now k m).2 = get k' m)
  ∧ (touch now k m).2.*1 = m.*1.
Proof.
  induction m as [|[k0 v] m (IH1 & IH2 & IH3 & IH4)]; simpl; [done|].
  destruct (bool_decide (k0 = k)) eqn:Hk; simpl.
  - rewrite Hk. apply bool_decide_eq_true_1 in Hk. subst k0.
    repeat split; try done.
    intros k' Hne. by rewrite bool_decide_eq_false_2.
  - destruct (touch now k m) as [r m'] eqn:Ht. simpl in *. rewrite Hk.
    injection IH1 as ->. repeat split; try done.
    + intros k' Hne. destruct (bool_decide (k0 = k')); [done|by apply IH3].
    + f_equal. exact IH4.
Qed.

Lemma touch_missing now k m : get k m = None → touch now k m = (None, m).
Proof.
  induction m as [|[k0 v] m IH]; simpl; [done|].
  destruct (bool_decide (k0 = k)); [done|]. intros Hg. by rewrite IH.
Qed.

Lemma get_store k b m :
  get k (store k b m)
  = (λ v, {| id := id v; buffer := b; createdAt := createdAt v;
             lastActivity := lastActivity v; sequenceId := sequenceId v |})
    <$> get k m.
Proof.
  induction m as [|[k0 v] m IH]; simpl; [done|].
  destruct (bool_decide (k0 = k)) eqn:Hk; simpl; by rewrite Hk.
Qed.

Lemma get_store_ne k k' b m : k' ≠ k → get k' (store k b m) = get k' m.
Proof.
  intros Hne. induction m as [|[k0 v] m IH]; simpl; [done|].
  destruct (bool_decide (k0 = k)) eqn:Hk; simpl.
  - apply bool_decide_eq_true_1 in Hk. subst k0.
    by rewrite bool_decide_eq_false_2.
  - by rewrite IH.
Qed.

Lemma store_keys k b m : (store k b m).*1 = m.*1.
Proof.
  induction m as [|[k0 v] m IH]; simpl; [done|].
  destruct (bool_decide (k0 = k)); simpl; [done|]. f_equal. exact IH.
Qed.

Lemma buffers_get_set k info m : get k (set k info m) = Some info.
Proof.
  induction m as [|[k0 v] m IH]; simpl.
  - by rewrite bool_decide_eq_true_2.
  - destruct (bool_decide (k0 = k)) eqn:Hk; simpl; by rewrite Hk.
Qed.

Lemma get_None_has k m : get k m = None → has k m = false.
Proof.
  intros Hg. apply bool_decide_eq_false_2. intros Hin.
  induction m as [|[k0 v] m IH]; simpl in *; [by apply elem_of_nil in Hin|].
  destruct (bool_decide (k0 = k)) eqn:Hk; [done|].
  apply bool_decide_eq_false_1 in Hk.
  apply elem_of_cons in Hin as [->|Hin]; [done|by apply IH].
Qed.

Lemma manager_addChunk_known now k chunk options st info :
  get k (buffers st) = Some info →
  ∃ st',
    addChunk now k chunk options st
    = ({| success := true;
          shouldFlush :=
            Some (StreamBuffer.shouldFlush
                    (StreamBuffer.addChunk now chunk (buffer info)).1);
          flushReason :=
            StreamBuffer.flushReason
              (StreamBuffer.addChunk now chunk (buffer info)).1;
          bufferId := Some k |}, st')
    ∧ get k (buffers st')
      = Some {| id := id info;
                buffer := (StreamBuffer.addChunk now chunk (buffer info)).2;
                createdAt := createdAt info;
                lastActivity := now;
                sequenceId := sequenceId info |}
    ∧ (∀ k', k' ≠ k → get k' (buffers st') = get k' (buffers st))
    ∧ (buffers st').*1 = (buffers st).*1
    ∧ totalChunksProcessed st' = totalChunksProcessed st + 1.
Proof.
  intros Hget. unfold addChunk, route, getBuffer.
  destruct (touch_get now k (buffers st)) as (Ht & Hk & Hother & Hkeys).
  rewrite Ht, Hget. simpl.
  destruct (StreamBuffer.addChunk now chunk (buffer info)) as [result b'] eqn:Hadd.
  eexists. split; [reflexivity|]. simpl. repeat split.
  - by rewrite get_store, Hk, Hget.
  - intros k' Hne. rewrite get_store_ne by done. by apply Hother.
  - by rewrite store_keys.
Qed.

(** X19. [addChunk] of the manager, for an id it holds, is [addChunk] of that
    buffer: the hint is the hint of the buffer, the entry is marked as
    active at the time of the call, and no other entry changes. The call
    reports success and counts the chunk as processed also when the
    buffer is paused and has dropped the chunk. *)
Theorem manager_addChunk_routes_to_buffer now k chunk options st info :
  get k (buffers st) = Some info →
  ∃ st',
    addChunk now k chunk options st
    = ({| success := true;
          shouldFlush :=
            Some (StreamBuffer.shouldFlush
                    (StreamBuffer.addChunk now chunk (buffer info)).1);
          flushReason :=
            StreamBuffer.flushReason
              (StreamBuffer.addChunk now chunk (buffer info)).1;
          bufferId := Some k |}, st')
    ∧ get k (buffers st')
      = Some {| id := id info;
                buffer := (StreamBuffer.addChunk now chunk (buffer info)).2;
                createdAt := createdAt info;
                lastActivity := now;
                sequenceId := sequenceId info |}
    ∧ (∀ k', k' ≠ k → get k' (buffers st') = get k' (buffers st))
    ∧ totalChunksProcessed st' = totalChunksProcessed st + 1
    ∧ (StreamBuffer.isActive (buffer info) = false →
       StreamBuffer.chunks (StreamBuffer.addChunk now chunk (buffer info)).2
       = StreamBuffer.chunks (buffer info)).
Proof.
  intros Hget.
  destruct (manager_addChunk_known now k chunk options st info Hget)
    as (st' & Hcall & Hk & Hother & _ & Hcount).
  exists st'. repeat split; try done.
  intros Hpaused. unfold StreamBuffer.addChunk. by rewrite Hpaused.
Qed.

(** X20. [addChunk] with [createIfNotExists] for an id that the manager does
    not hold (and room for one more buffer) reports failure and drops the
    chunk, and yet leaves a new, empty buffer registered under the id:
    [createBuffer] registers the buffer and then throws in
    [setupBufferEventListeners], and [addChunk] catches the error. The
    same call made again finds the buffer and succeeds. *)
Theorem manager_auto_create_fails_once now now' k chunk chunk' options st :
  get k (buffers st) = None →
  createIfNotExists options = true →
  size (buffers st) < maxBuffers (config st) →
  ∃ st1 info st2,
    addChunk now k chunk options st = (failed, st1)
    ∧ get k (buffers st1) = Some info
    ∧ StreamBuffer.chunks (buffer info) = []
    ∧ totalChunksProcessed st1 = totalChunksProcessed st
    ∧ (addChunk now' k chunk' options st1).2 = st2
    ∧ success (addChunk now' k chunk' options st1).1 = true
    ∧ (StreamBuffer.chunks <$> (buffer <$> get k (buffers st2)))
      = Some [chunk'].
Proof.
  intros Hget Hcreate Hroom.
  unfold addChunk at 1. unfold route, getBuffer.
  rewrite (touch_missing now k _ Hget), withBuffers_same, Hcreate.
  unfold createBuffer. rewrite (get_None_has k _ Hget).
  rewrite (proj2 (Z.leb_gt _ _) Hroom). simpl.
  eexists _, _, _. split; [reflexivity|]. simpl.
  split; [apply buffers_get_set|]. split; [done|]. split; [done|].
  split; [reflexivity|].
  match goal with
  | |- context [addChunk now' k chunk' options ?s] =>
      destruct (manager_addChunk_known now' k chunk' options s _
                  (buffers_get_set k _ (buffers st)))
        as (st2 & Hcall & Hk & _)
  end.
  rewrite Hcall. simpl. split; [done|]. by rewrite Hk.
Qed.

Lemma get_of_entry e m : NoDup m.*1 → e ∈ m → get e.1 m = Some e.2.
Proof.
  induction m as [|[k0 v] m IH]; simpl; intros Hnd Hin;
    [by apply elem_of_nil in Hin|].
  apply NoDup_cons in Hnd as [Hfresh Hnd].
  apply elem_of_cons in Hin as [->|Hin]; simpl.
  - by rewrite bool_decide_eq_true_2.
  - rewrite bool_decide_eq_false_2; [by apply IH|].
    intros ->. apply Hfresh. apply list_elem_of_fmap. by exists e.
Qed.

Lemma flushEach_each fuel reason now todo :
  ∀ st results,
    NoDup todo.*1 →
    Forall (λ e, StreamBuffer.privateEmitter (buffer e.2)) todo →
    (∀ e, e ∈ todo → get e.1 (buffers st) = Some e.2) →
    ∃ entries st',
      flushEach fuel reason now todo st results = Some (results ++ entries, st')
      ∧ Forall2 (λ e entry,
                   ∃ res b',
                     StreamBuffer.flush fuel reason now (buffer e.2)
                     = Some (res, b')
                     ∧ entry = entryOf e.1 res
                     ∧ buffer <$> get e.1 (buffers st') = Some b')
          todo entries
      ∧ totalFlushes st'
        = totalFlushes st + Z.of_nat (length (List.filter succeeded entries))
      ∧ (∀ k, k ∉ todo.*1 → get k (buffers st') = get k (buffers st))
      ∧ (buffers st').*1 = (buffers st).*1.
Proof.
  induction todo as [|[k info] todo IH]; intros st results Hnd Hpriv Hget.
  - exists [], st. simpl. rewrite app_nil_r.
    split; [done|]. split; [constructor|]. split; [lia|]. done.
  - cbn [fmap list_fmap fst] in Hnd. apply NoDup_cons in Hnd as [Hfresh Hnd].
    inversion Hpriv as [|? ? Hp Hprivs]; subst. simpl in Hp.
    destruct (flush_private fuel reason now (buffer info) Hp)
      as (res & b' & Hflush & _).
    assert (get k (buffers st) = Some info) as Hk
      by (apply (Hget (k, info)); by left).
    cbn [flushEach]. rewrite Hflush.
    assert (∀ st1, buffers st1 = store k b' (buffers st) →
              ∀ e, e ∈ todo → get e.1 (buffers st1) = Some e.2) as Hrest.
    { intros st1 Hst1 e He. rewrite Hst1, get_store_ne.
      - apply Hget. by right.
      - intros Heq. apply Hfresh. apply list_elem_of_fmap. by exists e. }
    destruct res as [err|cs].
    + destruct (IH (withBuffers (store k b' (buffers st)) st)
                  (results ++ [{| entry_bufferId := k; entry_chunks := [];
                                  entry_error := Some err |}])
                  Hnd Hprivs)
        as (entries & st' & Hrun & Hall & Hcount & Hother & Hkeys);
        [by apply Hrest|].
      exists ({| entry_bufferId := k; entry_chunks := [];
                 entry_error := Some err |} :: entries), st'.
      rewrite Hrun, <- (assoc_L (++)). simpl in *.
      split; [done|]. split; [|split; [|split]].
      * constructor; [|done]. exists (inl err), b'. simpl.
        repeat split; try done.
        rewrite (Hother k Hfresh), get_store, Hk. done.
      * done.
      * intros k' Hk'. apply not_elem_of_cons in Hk' as [Hne Hk'].
        rewrite (Hother k' Hk'). by apply get_store_ne.
      * by rewrite Hkeys, store_keys.
    + destruct (IH {| buffers := store k b' (buffers st); config := config st;
                      totalChunksProcessed := totalChunksProcessed st;
                      totalFlushes := totalFlushes st + 1 |}
                  (results ++ [{| entry_bufferId := k; entry_chunks := cs;
                                  entry_error := None |}])
                  Hnd Hprivs)
        as (entries & st' & Hrun & Hall & Hcount & Hother & Hkeys);
        [by apply Hrest|].
      exists ({| entry_bufferId := k; entry_chunks := cs;
                 entry_error := None |} :: entries), st'.
      rewrite Hrun, <- (assoc_L (++)). simpl in *.
      split; [done|]. split; [|split; [|split]].
      * constructor; [|done]. exists (inr cs), b'. simpl.
        repeat split; try done.
        rewrite (Hother k Hfresh), get_store, Hk. done.
      * rewrite Hcount. lia.
      * intros k' Hk'. apply not_elem_of_cons in Hk' as [Hne Hk'].
        rewrite (Hother k' Hk'). by apply get_store_ne.
      * by rewrite Hkeys, store_keys.
Qed.

(** X21. [flushAllBuffers] flushes every buffer, whatever the flushes before
    did. The result has one entry for each buffer, in the order of the
    map; the entry of a buffer is the outcome of its own flush, with the
    error and no chunks when that flush failed; each buffer is left as its
    flush left it; and the counter of flushes grows by the number of
    flushes that did not fail, the flushes of empty and of paused buffers
    included. *)
Theorem flushAllBuffers_isolates_failures fuel reason now st :
  distinctKeys st →
  Forall (λ e, StreamBuffer.privateEmitter (buffer e.2)) (buffers st) →
  ∃ entries st',
    flushAllBuffers fuel reason now st = Some (entries, st')
    ∧ Forall2 (λ e entry,
                 ∃ res b',
                   StreamBuffer.flush fuel reason now (buffer e.2)
                   = Some (res, b')
                   ∧ entry = entryOf e.1 res
                   ∧ buffer <$> get e.1 (buffers st') = Some b')
        (buffers st) entries
    ∧ totalFlushes st'
      = totalFlushes st + Z.of_nat (length (List.filter succeeded entries))
    ∧ (buffers st').*1 = (buffers st).*1.
Proof.
  intros Hnd Hpriv.
  destruct (flushEach_each fuel reason now (buffers st) st [] Hnd Hpriv)
    as (entries & st' & Hrun & Hall & Hcount & _ & Hkeys).
  { intros e He. by apply get_of_entry. }
  exists entries, st'. done.
Qed.

End BufferManagerMore.

Lemma manager_addChunk_routes_to_buffer_witness :
  ∃ st',
    BufferManager.addChunk 20 "p" (Scenario.chunk "b" 1)
      {| BufferManager.createIfNotExists := false;
         BufferManager.bufferConfig := None |} Scenario.holdsPaused
    = ({| BufferManager.success := true;
          BufferManager.shouldFlush := Some false;
          BufferManager.flushReason := None;
          BufferManager.bufferId := Some "p"%string |}, st')
    ∧ BufferManager.totalChunksProcessed st' = 1
    ∧ (StreamBuffer.chunks <$>
         (BufferManager.buffer <$> BufferManager.get "p" (BufferManager.buffers st')))
      = Some [Scenario.chunk "a" 0]
    ∧ (BufferManager.lastActivity <$>
         BufferManager.get "p" (BufferManager.buffers st')) = Some 20.
Proof.
  destruct (manager_addChunk_routes_to_buffer 20 "p" (Scenario.chunk "b" 1)
              {| BufferManager.createIfNotExists := false;
                 BufferManager.bufferConfig := None |} Scenario.holdsPaused
              {| BufferManager.id := "p";
                 BufferManager.buffer := Scenario.pausedBuffer;
                 BufferManager.createdAt := 0;
                 BufferManager.lastActivity := 10;
                 BufferManager.sequenceId := None |} eq_refl)
    as (st' & Hcall & Hk & _ & Hcount & Hkept).
  exists st'. split; [exact Hcall|]. split; [exact Hcount|].
  rewrite Hk. simpl. by split.
Defined.

Lemma manager_auto_create_fails_once_witness :
  ∃ st1 info st2,
    BufferManager.addChunk 5 "s" (Scenario.chunk "a" 0)
      {| BufferManager.createIfNotExists := true;
         BufferManager.bufferConfig := None |}
      (BufferManager.create (BufferManager.defaultConfig None None))
    = (BufferManager.failed, st1)
    ∧ BufferManager.get "s" (BufferManager.buffers st1) = Some info
    ∧ StreamBuffer.chunks (BufferManager.buffer info) = []
    ∧ BufferManager.totalChunksProcessed st1 = 0
    ∧ (BufferManager.addChunk 6 "s" (Scenario.chunk "b" 1)
         {| BufferManager.createIfNotExists := true;
            BufferManager.bufferConfig := None |} st1).2 = st2
    ∧ BufferManager.success
        (BufferManager.addChunk 6 "s" (Scenario.chunk "b" 1)
           {| BufferManager.createIfNotExists := true;
              BufferManager.bufferConfig := None |} st1).1 = true
    ∧ (StreamBuffer.chunks <$>
         (BufferManager.buffer <$>
            BufferManager.get "s" (BufferManager.buffers st2)))
      = Some [Scenario.chunk "b" 1].
Proof.
  apply (manager_auto_create_fails_once 5 6 "s" (Scenario.chunk "a" 0)
           (Scenario.chunk "b" 1)
           {| BufferManager.createIfNotExists := true;
              BufferManager.bufferConfig := None |}
           (BufferManager.create (BufferManager.defaultConfig None None))).
  - reflexivity.
  - reflexivity.
  - vm_compute. reflexivity.
Defined.

Lemma flushAllBuffers_isolates_failures_witness :
  ∃ entries st',
    BufferManager.flushAllBuffers 1 BufferFlushEvent.Manual 10
      Scenario.failingAndPlain = Some (entries, st')
    ∧ Forall2 (λ e entry,
                 ∃ res b',
                   StreamBuffer.flush 1 BufferFlushEvent.Manual 10
                     (BufferManager.buffer e.2) = Some (res, b')
                   ∧ entry = BufferManager.entryOf e.1 res
                   ∧ BufferManager.buffer <$>
                       BufferManager.get e.1 (BufferManager.buffers st')
                     = Some b')
        (BufferManager.buffers Scenario.failingAndPlain) entries
    ∧ BufferManager.totalFlushes st'
      = BufferManager.totalFlushes Scenario.failingAndPlain
        + Z.of_nat (length (List.filter BufferManager.succeeded entries))
    ∧ (BufferManager.buffers st').*1
      = (BufferManager.buffers Scenario.failingAndPlain).*1.
Proof.
  apply (flushAllBuffers_isolates_failures 1 BufferFlushEvent.Manual 10
           Scenario.failingAndPlain).
  - unfold BufferManager.distinctKeys. simpl.
    apply NoDup_cons. split; [|apply NoDup_singleton].
    intros Hin. apply list_elem_of_singleton in Hin. discriminate.
  - repeat constructor.
Defined.

(** ** BufferManager: what a cleanup pass reports *)

Section CleanupReport.

Import Js BufferManager.

Lemma filter_split_length {A} (p : A → bool) (l : list A) :
  (length (List.filter p l) + length (List.filter (λ x, negb (p x)) l)
   = length l)%nat.
Proof.
  induction l as [|x l IH]; simpl; [done|].
  destruct (p x); simpl; lia.
Qed.

Lemma filter_again {A} (p : A → bool) (l : list A) :
  List.filter p (List.filter p l) = List.filter p l.
Proof.
  induction l as [|x l IH]; simpl; [done|].
  destruct (p x) eqn:Hx; simpl; [|done]. by rewrite Hx, IH.
Qed.

Lemma filter_none {A} (p : A → bool) (l : list A) :
  List.filter p (List.filter (λ x, negb (p x)) l) = [].
Proof.
  induction l as [|x l IH]; simpl; [done|].
  destruct (p x) eqn:Hx; simpl; [done|]. by rewrite Hx.
Qed.

(** X22. A cleanup pass reports the ids of exactly the buffers that were too
    old or idle, and the number of buffers that remain; the two numbers
    add up to the number of buffers before the pass. A second pass at the
    same time removes nothing. *)
Theorem cleanup_reports_what_it_removed now st :
  Z.of_nat (length (cleanup now st).1.1) + (cleanup now st).1.2
  = size (buffers st)
  ∧ (cleanup now st).1.2 = size (buffers (cleanup now st).2)
  ∧ (cleanup now st).1.1
    = (List.filter (λ e, expired now (cleanupAge (config st)) e.2)
         (buffers st)).*1
  ∧ cleanup now (cleanup now st).2
    = (([], (cleanup now st).1.2), (cleanup now st).2).
Proof.
  unfold cleanup, size. simpl. split; [|split; [done|split; [done|]]].
  - rewrite length_fmap, <- Nat2Z.inj_add.
    by rewrite filter_split_length.
  - rewrite filter_none, filter_again. done.
Qed.

End CleanupReport.
